(** * mlft backtest engine: matching, position ledger and order lifecycle

    A shallow embedding of [mlft/strategy.py] and [mlft/backtest.py]:
    the data classes, the strategy commands [submit_order] and
    [cancel_order], the body of the resolution loop and the bar loop
    of [BacktestEngine.__init__].  Reading the two CSV files and
    tabulating the results are left out: a run starts from the parsed
    instrument rows and bars and ends with the engine's order and
    trade logs.

    Numbers.  The engine computes with Python floats.  They are modelled
    as exact rationals extended with not-a-number: arithmetic on [Fin]
    values is exact (rounding and infinities are not modelled), [NaN]
    is absorbing, and every comparison with [NaN] is false, as in
    Python.  A statement about sums of quantities is made for whole
    numbers of bounded size, on which the operations of a Python float
    are exact as well; a statement about the cost of a position either
    gives the value by the formula of the source or allows for a cost
    that is not a number.

    Object references.  An [Order] object is shared by the order log,
    by pending events and by trades.  Its [order_id] is its index in
    the order log ([order_id = len(self._orders)] at creation), so the
    log is the arena and every reference to an order is that index.  A
    [Position] object is created once per instrument and is referenced
    by the instrument identifier that keys [self._positions].

    The strategy.  A callback is a program over the command interface.
    It reads the engine's objects but writes to them only through
    [submit_order] and [cancel_order], and the orders it cancels are
    orders the engine has created. *)

From Stdlib Require Import QArith Qcanon.
From stdpp Require Import base numbers option list gmap strings.

(* ===================================================================== *)
(** ** Python floats *)
(* ===================================================================== *)

Inductive float : Type :=
| Fin (q : Qc)
| NaN.

#[global] Instance float_eq_dec : EqDecision float.
Proof. solve_decision. Defined.

Definition of_Z (z : Z) : float := Fin (Q2Qc (inject_Z z)).

Definition fadd (a b : float) : float :=
  match a, b with Fin x, Fin y => Fin (x + y)%Qc | _, _ => NaN end.
Definition fsub (a b : float) : float :=
  match a, b with Fin x, Fin y => Fin (x - y)%Qc | _, _ => NaN end.
Definition fmul (a b : float) : float :=
  match a, b with Fin x, Fin y => Fin (x * y)%Qc | _, _ => NaN end.
(** Python raises [ZeroDivisionError] on a zero divisor.  The engine
    divides only by [hold_qty] and only under the guards
    [hold_qty < 0] and [hold_qty > 0], so that case is never reached;
    here it yields [NaN]. *)
Definition fdiv (a b : float) : float :=
  match a, b with
  | Fin x, Fin y => if decide (y = 0%Qc) then NaN else Fin (x / y)%Qc
  | _, _ => NaN
  end.
Definition fneg (a : float) : float :=
  match a with Fin x => Fin (- x)%Qc | NaN => NaN end.

Definition fltb (a b : float) : bool :=
  match a, b with Fin x, Fin y => bool_decide (x < y)%Qc | _, _ => false end.
Definition fleb (a b : float) : bool :=
  match a, b with Fin x, Fin y => bool_decide (x ≤ y)%Qc | _, _ => false end.
Definition feqb (a b : float) : bool :=
  match a, b with Fin x, Fin y => bool_decide (x = y) | _, _ => false end.

(** Python's builtin [min(a, b)]: the first argument unless the second
    is strictly smaller. *)
Definition pymin (a b : float) : float := if fltb b a then b else a.

Declare Scope float_scope.
Delimit Scope float_scope with F.
Bind Scope float_scope with float.
Notation "0" := (Fin 0%Qc) : float_scope.
Notation "1" := (Fin 1%Qc) : float_scope.
Infix "+" := fadd : float_scope.
Infix "-" := fsub : float_scope.
Infix "*" := fmul : float_scope.
Infix "/" := fdiv : float_scope.
Notation "- x" := (fneg x) : float_scope.
Infix "<?" := fltb : float_scope.
Infix "<=?" := fleb : float_scope.
Infix "=?" := feqb : float_scope.

Definition is_fin (a : float) : Prop :=
  match a with Fin _ => True | NaN => False end.

#[global] Instance is_fin_dec a : Decision (is_fin a).
Proof. destruct a; apply _. Defined.

(* ===================================================================== *)
(** ** Data model ([strategy.py]) *)
(* ===================================================================== *)

Inductive Direction : Type := Buy | Sell.
Inductive TimeInForce : Type := IOC | GTC.

#[global] Instance Direction_eq_dec : EqDecision Direction.
Proof. solve_decision. Defined.
#[global] Instance TimeInForce_eq_dec : EqDecision TimeInForce.
Proof. solve_decision. Defined.

(** [InstrumentID]: exchange and symbol, compared by value. *)
Record InstrumentID : Type := mkInstrumentID {
  exchange : string;
  symbol : string
}.

#[global] Instance InstrumentID_eq_dec : EqDecision InstrumentID.
Proof. solve_decision. Defined.
#[global] Instance InstrumentID_countable : Countable InstrumentID.
Proof.
  refine (inj_countable' (λ i, (exchange i, symbol i))
            (λ p, mkInstrumentID p.1 p.2) _).
  by intros [].
Defined.

Record InstrumentInfo : Type := mkInstrumentInfo {
  ins_id : InstrumentID;
  px_tick : float;
  qty_tick : float;
  multiplier : float;
  fee_per_qty : float;
  fee_per_mv : float
}.

Record BarData : Type := mkBarData {
  bar_time : Z;
  bar_last_time : Z;
  bar_open_px : float;
  bar_high_px : float;
  bar_low_px : float;
  bar_last_px : float;
  bar_trade_qty : float;
  bar_trade_mv : float;
  bar_hold_qty : float
}.

(** [Position.pending_qty] is a dict with exactly the keys [Buy] and
    [Sell]; it is read and updated by key. *)
Record PendingQty : Type := mkPendingQty {
  pending_buy : float;
  pending_sell : float
}.

Definition pending_get (pq : PendingQty) (d : Direction) : float :=
  match d with Buy => pending_buy pq | Sell => pending_sell pq end.
Definition pending_set (pq : PendingQty) (d : Direction) (v : float) : PendingQty :=
  match d with
  | Buy => mkPendingQty v (pending_sell pq)
  | Sell => mkPendingQty (pending_buy pq) v
  end.

Record Position : Type := mkPosition {
  instrument : InstrumentInfo;
  max_hold_qty : float;
  hold_qty : float;
  hold_mv : float;
  pending_qty : PendingQty;
  real_profit : float;
  fee : float
}.

(** [Position(instrument, max_hold_qty)] with the dataclass defaults. *)
Definition new_Position (i : InstrumentInfo) (m : float) : Position :=
  mkPosition i m 0%F 0%F (mkPendingQty 0%F 0%F) 0%F 0%F.

Record Order : Type := mkOrder {
  order_id : nat;
  position : InstrumentID;
  direction : Direction;
  tif : TimeInForce;
  limit_px : option float;
  orig_qty : float;
  pend_qty : float;
  exec_qty : float;
  insert_time : option Z;
  last_time : option Z
}.

(** [Order(...)] followed by [__post_init__]: [pend_qty = orig_qty]. *)
Definition new_Order (oid : nat) (pos : InstrumentID) (d : Direction)
    (t : TimeInForce) (lmt : option float) (qty : float)
    (tm : option Z) : Order :=
  mkOrder oid pos d t lmt qty qty 0%F tm None.

(** [Order._on_cancelled] and [Order._on_executed]; the engine does not
    call them, it writes the fields itself. *)
Definition Order_on_cancelled (o : Order) (tm : option Z) : Order :=
  mkOrder (order_id o) (position o) (direction o) (tif o) (limit_px o)
    (orig_qty o) 0%F (exec_qty o) (insert_time o) tm.

Definition Order_on_executed (o : Order) (tm : option Z) (qty : float) : Order :=
  mkOrder (order_id o) (position o) (direction o) (tif o) (limit_px o)
    (orig_qty o) (pend_qty o - qty)%F (exec_qty o + qty)%F (insert_time o) tm.

Record Trade : Type := mkTrade {
  trade_id : nat;
  trade_order : nat;
  trade_time : option Z;
  trade_px : float;
  trade_qty : float;
  trade_fee : float;
  trade_profit : float
}.

(* ===================================================================== *)
(** ** Engine state ([backtest.py]) *)
(* ===================================================================== *)

Inductive MatchAlgorithm : Type := NoTrade | AlwaysFilled.

(** [_Event]: [event_type] 0 is a fill attempt, 1 a cancel request. *)
Record Event : Type := mkEvent {
  event_type : nat;
  ev_order : nat
}.

Record Engine : Type := mkEngine {
  positions : gmap InstrumentID Position;
  orders : list Order;
  trades : list Trade;
  events : list Event;
  cur_tm : option Z;
  cur_px : gmap InstrumentID float
}.

#[global] Instance InstrumentInfo_eq_dec : EqDecision InstrumentInfo.
Proof. solve_decision. Defined.
#[global] Instance PendingQty_eq_dec : EqDecision PendingQty.
Proof. solve_decision. Defined.
#[global] Instance Position_eq_dec : EqDecision Position.
Proof. solve_decision. Defined.
#[global] Instance Order_eq_dec : EqDecision Order.
Proof. solve_decision. Defined.
#[global] Instance Trade_eq_dec : EqDecision Trade.
Proof. solve_decision. Defined.
#[global] Instance Event_eq_dec : EqDecision Event.
Proof. solve_decision. Defined.
#[global] Instance Engine_eq_dec : EqDecision Engine.
Proof. solve_decision. Defined.

(** What the resolution pass tells the strategy:
    [on_order_executed(trade)] or [on_order_cancelled(order)]. *)
Inductive Notification : Type :=
| Executed (t : Trade)
| Cancelled (oid : nat).

#[global] Instance Notification_eq_dec : EqDecision Notification.
Proof. solve_decision. Defined.

(** Exceptions of the resolution pass.  [RuntimeError] is the source's
    [raise RuntimeError('unknown event type')].  [DanglingReference]
    has no counterpart in the source, where references are object
    pointers: it is what the arena encoding returns for an index or an
    instrument that is not there. *)
Inductive exn : Type := RuntimeError | DanglingReference.

Inductive result (A : Type) : Type :=
| Ok (a : A)
| Raise (x : exn).
Arguments Ok {A} a.
Arguments Raise {A} x.

#[global] Instance exn_eq_dec : EqDecision exn.
Proof. solve_decision. Defined.
#[global] Instance result_eq_dec {A : Type} `{EqDecision A} :
  EqDecision (result A).
Proof. solve_decision. Defined.

(* ===================================================================== *)
(** ** Position ledger (the fill branch, lines 119-141 and 152-153) *)
(* ===================================================================== *)

Record Fill : Type := mkFill {
  fill_pos : Position;
  fill_close_qty : float;
  fill_profit : float;
  fill_fee : float
}.

(** Close quantity, realised profit and shrunken [hold_mv] of a fill:
    the [if ev_pos.hold_qty < 0] / [> 0] blocks. *)
Definition close_part (dir : Direction) (h mv ev_qty ev_px : float)
    : float * float * float :=
  match dir with
  | Buy =>
      if (h <? 0)%F then
        let ev_close_qty := pymin (- h)%F ev_qty in
        (ev_close_qty,
         ((mv / h - ev_px) * ev_close_qty)%F,
         (mv * (1 - ev_close_qty / - h))%F)
      else (0%F, 0%F, mv)
  | Sell =>
      if (0 <? h)%F then
        let ev_close_qty := pymin h ev_qty in
        (ev_close_qty,
         ((ev_px - mv / h) * ev_close_qty)%F,
         (mv * (1 - ev_close_qty / h))%F)
      else (0%F, 0%F, mv)
  end.

Definition apply_fill (ev_pos : Position) (dir : Direction)
    (ev_qty ev_px : float) : Fill :=
  let pq := pending_set (pending_qty ev_pos) dir
              (pending_get (pending_qty ev_pos) dir - ev_qty)%F in
  let '(ev_close_qty, ev_profit, mv1) :=
    close_part dir (hold_qty ev_pos) (hold_mv ev_pos) ev_qty ev_px in
  let h2 :=
    match dir with
    | Buy => (hold_qty ev_pos + ev_qty)%F
    | Sell => (hold_qty ev_pos - ev_qty)%F
    end in
  let mv2 :=
    match dir with
    | Buy => (mv1 + (ev_qty - ev_close_qty) * ev_px)%F
    | Sell => (mv1 - (ev_qty - ev_close_qty) * ev_px)%F
    end in
  let ev_fee :=
    (ev_qty * fee_per_qty (instrument ev_pos)
     + ev_qty * ev_px * fee_per_mv (instrument ev_pos))%F in
  mkFill
    (mkPosition (instrument ev_pos) (max_hold_qty ev_pos) h2 mv2 pq
       (real_profit ev_pos + ev_profit)%F (fee ev_pos + ev_fee)%F)
    ev_close_qty ev_profit ev_fee.

(** The cancel effect on the position:
    [ev_pos.pending_qty[direction] -= ev_qty]. *)
Definition release_pending (ev_pos : Position) (dir : Direction)
    (ev_qty : float) : Position :=
  mkPosition (instrument ev_pos) (max_hold_qty ev_pos) (hold_qty ev_pos)
    (hold_mv ev_pos)
    (pending_set (pending_qty ev_pos) dir
       (pending_get (pending_qty ev_pos) dir - ev_qty)%F)
    (real_profit ev_pos) (fee ev_pos).

(* ===================================================================== *)
(** ** One iteration of the resolution loop (lines 107-164) *)
(* ===================================================================== *)

Definition set_last_time (o : Order) (tm : option Z) : Order :=
  mkOrder (order_id o) (position o) (direction o) (tif o) (limit_px o)
    (orig_qty o) (pend_qty o) (exec_qty o) (insert_time o) tm.

Definition set_filled (o : Order) (ev_qty : float) : Order :=
  mkOrder (order_id o) (position o) (direction o) (tif o) (limit_px o)
    (orig_qty o) 0%F ev_qty (insert_time o) (last_time o).

Definition set_cancelled (o : Order) : Order :=
  mkOrder (order_id o) (position o) (direction o) (tif o) (limit_px o)
    (orig_qty o) 0%F (exec_qty o) (insert_time o) (last_time o).

Definition put_order (e : Engine) (i : nat) (o : Order) : Engine :=
  mkEngine (positions e) (<[i := o]> (orders e)) (trades e) (events e)
    (cur_tm e) (cur_px e).

Definition put_position (e : Engine) (k : InstrumentID) (p : Position) : Engine :=
  mkEngine (<[k := p]> (positions e)) (orders e) (trades e) (events e)
    (cur_tm e) (cur_px e).

Definition push_trade (e : Engine) (t : Trade) : Engine :=
  mkEngine (positions e) (orders e) (trades e ++ [t]) (events e)
    (cur_tm e) (cur_px e).

(** The cancel branch (lines 156-158 and 160-162). *)
Definition do_cancel (e : Engine) (i : nat) (o : Order) (ev_pos : Position)
    (ev_qty : float) : Engine * option Notification :=
  (put_position (put_order e i (set_cancelled o)) (position o)
     (release_pending ev_pos (direction o) ev_qty),
   Some (Cancelled i)).

(** The fill branch (lines 116-154).  [ins_id] is the loop variable of
    the bar loop: the instrument of the bar being processed. *)
Definition do_fill (ins_id : InstrumentID) (e : Engine) (i : nat) (o : Order)
    (ev_pos : Position) (ev_qty : float) : Engine * option Notification :=
  let ev_px := match cur_px e !! ins_id with Some p => p | None => NaN end in
  let f := apply_fill ev_pos (direction o) ev_qty ev_px in
  let trade :=
    mkTrade (length (trades e)) i (cur_tm e) ev_px ev_qty
      (fill_fee f) (fill_profit f) in
  (push_trade
     (put_position (put_order e i (set_filled o ev_qty)) (position o)
        (fill_pos f))
     trade,
   Some (Executed trade)).

Definition process_event (algo : MatchAlgorithm) (ins_id : InstrumentID)
    (e : Engine) (ev : Event) : result (Engine * option Notification) :=
  match orders e !! ev_order ev with
  | None => Raise DanglingReference
  | Some o0 =>
      if (pend_qty o0 <=? 0)%F then Ok (e, None)
      else
        let o := set_last_time o0 (cur_tm e) in
        match positions e !! position o with
        | None => Raise DanglingReference
        | Some ev_pos =>
            let ev_qty := pend_qty o in
            match event_type ev with
            | 0 =>
                match algo with
                | AlwaysFilled =>
                    Ok (do_fill ins_id e (ev_order ev) o ev_pos ev_qty)
                | NoTrade =>
                    match tif o with
                    | IOC => Ok (do_cancel e (ev_order ev) o ev_pos ev_qty)
                    | GTC => Ok (put_order e (ev_order ev) o, None)
                    end
                end
            | 1 => Ok (do_cancel e (ev_order ev) o ev_pos ev_qty)
            | _ => Raise RuntimeError
            end
        end
  end.

(* ===================================================================== *)
(** ** Strategy commands (lines 197-234) *)
(* ===================================================================== *)

(** [list(self._positions.values())]; the list comes in the order of
    the map, the insertion order of the dict is not kept. *)
Definition get_positions (e : Engine) : list Position :=
  (map_to_list (positions e)).*2.

Definition find_position (e : Engine) (k : InstrumentID) : option Position :=
  positions e !! k.

Definition capacity (ins_pos : Position) (dir : Direction) : float :=
  match dir with
  | Buy =>
      (max_hold_qty ins_pos - hold_qty ins_pos
       - pending_get (pending_qty ins_pos) dir)%F
  | Sell =>
      (max_hold_qty ins_pos + hold_qty ins_pos
       - pending_get (pending_qty ins_pos) dir)%F
  end.

Definition reserve_pending (p : Position) (dir : Direction) (qty : float)
    : Position :=
  mkPosition (instrument p) (max_hold_qty p) (hold_qty p) (hold_mv p)
    (pending_set (pending_qty p) dir
       (pending_get (pending_qty p) dir + qty)%F)
    (real_profit p) (fee p).

Definition push_order (e : Engine) (o : Order) : Engine :=
  mkEngine (positions e) (orders e ++ [o]) (trades e) (events e)
    (cur_tm e) (cur_px e).

Definition enqueue (e : Engine) (ev : Event) : Engine :=
  mkEngine (positions e) (orders e) (trades e) (events e ++ [ev])
    (cur_tm e) (cur_px e).

(** The state after an accepted submission (lines 216-227). *)
Definition accept_order (e : Engine) (k : InstrumentID) (ins_pos : Position)
    (dir : Direction) (qty : float) (t : TimeInForce)
    (lmt_px : option float) : Engine :=
  let order := new_Order (length (orders e)) k dir t lmt_px qty (cur_tm e) in
  enqueue
    (put_position (push_order e order) k (reserve_pending ins_pos dir qty))
    (mkEvent 0 (order_id order)).

(** The returned order is its index in the order log. *)
Definition submit_order (e : Engine) (k : InstrumentID) (dir : Direction)
    (qty : float) (t : TimeInForce) (lmt_px : option float)
    : option nat * Engine :=
  match find_position e k with
  | None => (None, e)
  | Some ins_pos =>
      let max_qty := capacity ins_pos dir in
      let qty := pymin qty max_qty in
      if (qty <=? 0)%F then (None, e)
      else (Some (length (orders e)), accept_order e k ins_pos dir qty t lmt_px)
  end.

(** [cancel_order(order)].  The source receives the order object; an
    index outside the order log denotes no object and is answered
    [false] with no effect. *)
Definition cancel_order (e : Engine) (i : nat) : bool * Engine :=
  match orders e !! i with
  | None => (false, e)
  | Some order =>
      if (pend_qty order =? 0)%F || bool_decide (tif order = IOC)
      then (false, e)
      else (true, enqueue e (mkEvent 1 i))
  end.

(* ===================================================================== *)
(** ** The strategy and the driver loop ([BacktestEngine.__init__]) *)
(* ===================================================================== *)

(** A strategy callback is a program over the command interface.  It
    may submit and cancel, and it may read the engine's objects
    ([get_positions], [find_position], and the fields of the orders,
    positions and trades it holds references to): [Observe] hands it
    the whole state, read-only. *)
Inductive Cmd (A : Type) : Type :=
| Ret (a : A)
| Submit (k : InstrumentID) (dir : Direction) (qty : float)
    (t : TimeInForce) (lmt_px : option float) (next : option nat → Cmd A)
| Cancel (i : nat) (next : bool → Cmd A)
| Observe (next : Engine → Cmd A).
Arguments Ret {A} a.
Arguments Submit {A} k dir qty t lmt_px next.
Arguments Cancel {A} i next.
Arguments Observe {A} next.

Fixpoint run_cmd {A : Type} (c : Cmd A) (e : Engine) : A * Engine :=
  match c with
  | Ret a => (a, e)
  | Submit k dir qty t lmt_px next =>
      let r := submit_order e k dir qty t lmt_px in
      run_cmd (next r.1) r.2
  | Cancel i next =>
      let r := cancel_order e i in
      run_cmd (next r.1) r.2
  | Observe next => run_cmd (next e) e
  end.

(** The abstract class [Strategy], with the strategy's own state made
    explicit. *)
Record Strategy (S : Type) : Type := mkStrategy {
  on_start : S → Cmd S;
  on_stop : S → Cmd S;
  on_order_cancelled : S → nat → Cmd S;
  on_order_executed : S → Trade → Cmd S;
  on_bar_data : S → InstrumentID → BarData → Cmd S
}.
Arguments on_start {S} _ _.
Arguments on_stop {S} _ _.
Arguments on_order_cancelled {S} _ _ _.
Arguments on_order_executed {S} _ _ _.
Arguments on_bar_data {S} _ _ _ _.

(** The resolution loop may not end: a callback can submit an order
    while [self._events] is being iterated, and the iteration then
    reaches the new event in the same pass.  The loop is given fuel. *)
Inductive outcome (A : Type) : Type :=
| Done (a : A)
| Raised (x : exn)
| OutOfFuel.
Arguments Done {A} a.
Arguments Raised {A} x.
Arguments OutOfFuel {A}.

#[global] Instance outcome_eq_dec {A : Type} `{EqDecision A} :
  EqDecision (outcome A).
Proof. solve_decision. Defined.

Definition begin_bar (e : Engine) (k : InstrumentID) (bar : BarData) : Engine :=
  mkEngine (positions e) (orders e) (trades e) (events e)
    (Some (bar_last_time bar)) (<[k := bar_last_px bar]> (cur_px e)).

Definition clear_events (e : Engine) : Engine :=
  mkEngine (positions e) (orders e) (trades e) [] (cur_tm e) (cur_px e).

Definition init_engine (rows : list (InstrumentInfo * float)) : Engine :=
  mkEngine
    (foldl (λ m r, <[ins_id r.1 := new_Position r.1 r.2]> m) ∅ rows)
    [] [] [] None ∅.

Section Driver.
Context {S : Type}.
Variable strategy : Strategy S.
Variable match_algo : MatchAlgorithm.

Definition notify (st : S) (n : Notification) : Cmd S :=
  match n with
  | Executed trade => on_order_executed strategy st trade
  | Cancelled i => on_order_cancelled strategy st i
  end.

(** [for _ev in self._events]: the event at index [i], then the next
    index, until the index is past the end of the (possibly grown)
    list.  [log] collects the notifications sent. *)
Fixpoint resolve_events (fuel : nat) (ins_id : InstrumentID) (i : nat)
    (st : S) (e : Engine) (log : list Notification)
    : outcome (S * Engine * list Notification) :=
  match fuel with
  | O => OutOfFuel
  | Datatypes.S fuel' =>
      match events e !! i with
      | None => Done (st, e, log)
      | Some ev =>
          match process_event match_algo ins_id e ev with
          | Raise x => Raised x
          | Ok (e1, None) =>
              resolve_events fuel' ins_id (Datatypes.S i) st e1 log
          | Ok (e1, Some n) =>
              let r := run_cmd (notify st n) e1 in
              resolve_events fuel' ins_id (Datatypes.S i) r.1 r.2
                (log ++ [n])
          end
      end
  end.

(** One turn of the bar loop (lines 97-167). *)
Definition bar_step (fuel : nat) (st : S) (e : Engine)
    (ins_id : InstrumentID) (bar : BarData) : outcome (S * Engine) :=
  match resolve_events fuel ins_id 0 st (begin_bar e ins_id bar) [] with
  | Done (st1, e1, _) =>
      Done (run_cmd (on_bar_data strategy st1 ins_id bar) (clear_events e1))
  | Raised x => Raised x
  | OutOfFuel => OutOfFuel
  end.

Fixpoint run_bars (fuel : nat) (bars : list (InstrumentID * BarData))
    (st : S) (e : Engine) : outcome (S * Engine) :=
  match bars with
  | [] => Done (st, e)
  | (ins_id, bar) :: rest =>
      match bar_step fuel st e ins_id bar with
      | Done (st1, e1) => run_bars fuel rest st1 e1
      | Raised x => Raised x
      | OutOfFuel => OutOfFuel
      end
  end.

Definition run (fuel : nat) (rows : list (InstrumentInfo * float))
    (bars : list (InstrumentID * BarData)) (st0 : S)
    : outcome (S * Engine) :=
  let r := run_cmd (on_start strategy st0) (init_engine rows) in
  match run_bars fuel bars r.1 r.2 with
  | Done (st1, e1) => Done (run_cmd (on_stop strategy st1) e1)
  | Raised x => Raised x
  | OutOfFuel => OutOfFuel
  end.
End Driver.

(** The states an engine can be in: the closure of the initial state
    under the operations the driver and the strategy perform. *)
Inductive reachable (algo : MatchAlgorithm)
    (rows : list (InstrumentInfo * float)) : Engine → Prop :=
| reach_init : reachable algo rows (init_engine rows)
| reach_submit e k dir qty t lmt_px :
    reachable algo rows e →
    reachable algo rows (submit_order e k dir qty t lmt_px).2
| reach_cancel e i :
    reachable algo rows e →
    reachable algo rows (cancel_order e i).2
| reach_bar e k bar :
    reachable algo rows e →
    reachable algo rows (begin_bar e k bar)
| reach_event e k ev e' n :
    reachable algo rows e →
    ev ∈ events e →
    process_event algo k e ev = Ok (e', n) →
    reachable algo rows e'
| reach_clear e :
    reachable algo rows e →
    reachable algo rows (clear_events e).

(* ===================================================================== *)
(** ** Specification predicates *)
(* ===================================================================== *)

(** The three states of an order: pending, filled, cancelled. *)
Definition lifecycle (o : Order) : Prop :=
  (pend_qty o = orig_qty o ∧ exec_qty o = 0%F)
  ∨ (pend_qty o = 0%F ∧ exec_qty o = orig_qty o)
  ∨ (pend_qty o = 0%F ∧ exec_qty o = 0%F).

(** An order the resolution loop would still act on: the negation of
    its guard [pend_qty <= 0]. *)
Definition awaiting (o : Order) : bool := negb (pend_qty o <=? 0)%F.

(** Order [i] is resolved: the loop's guard [pend_qty <= 0] holds of
    it, as it does once [pend_qty] has been set to 0. *)
Definition resolved (e : Engine) (i : nat) : Prop :=
  ∃ o, orders e !! i = Some o ∧ (pend_qty o <=? 0)%F = true.

Definition fsum (l : list float) : float := foldr fadd 0%F l.

(** The orders of instrument [k] and direction [d] still awaiting
    resolution. *)
Definition pending_orders (e : Engine) (k : InstrumentID) (d : Direction)
    : list Order :=
  filter (λ o, position o = k ∧ direction o = d ∧ awaiting o = true)
    (orders e).

Definition pending_matches (e : Engine) : Prop :=
  ∀ k p d, positions e !! k = Some p →
    pending_get (pending_qty p) d = fsum (pend_qty <$> pending_orders e k d).

Definition contrib (k : InstrumentID) (d : Direction) (o : Order) : float :=
  if decide (position o = k ∧ direction o = d) then pend_qty o else 0%F.

(** Every order quantity, respectively every fill price, recorded so
    far is a number. *)
Definition orders_fin (e : Engine) : Prop :=
  Forall (λ o, is_fin (orig_qty o)) (orders e).

Definition prices_fin (e : Engine) : Prop :=
  Forall (λ t, is_fin (trade_px t)) (trades e).

Definition flat_is_free (e : Engine) : Prop :=
  ∀ k p, positions e !! k = Some p → hold_qty p = 0%F → hold_mv p = 0%F.

Definition note_order (n : Notification) : nat :=
  match n with Executed t => trade_order t | Cancelled i => i end.

(** The engine with the time-in-force of order [i] replaced. *)
Definition set_tif (t : TimeInForce) (o : Order) : Order :=
  mkOrder (order_id o) (position o) (direction o) t (limit_px o)
    (orig_qty o) (pend_qty o) (exec_qty o) (insert_time o) (last_time o).

Definition retif (i : nat) (t : TimeInForce) (e : Engine) : Engine :=
  mkEngine (positions e) (alter (set_tif t) i (orders e)) (trades e)
    (events e) (cur_tm e) (cur_px e).

Definition map_result {A B : Type} (f : A → B) (r : result A) : result B :=
  match r with Ok a => Ok (f a) | Raise x => Raise x end.

(** The four ways an event can be resolved without an exception. *)
Inductive event_effect (algo : MatchAlgorithm) (k : InstrumentID)
    (e : Engine) (ev : Event) : Engine * option Notification → Prop :=
| effect_skip o :
    orders e !! ev_order ev = Some o →
    (pend_qty o <=? 0)%F = true →
    event_effect algo k e ev (e, None)
| effect_fill o p :
    orders e !! ev_order ev = Some o →
    (pend_qty o <=? 0)%F = false →
    positions e !! position o = Some p →
    event_type ev = 0 → algo = AlwaysFilled →
    event_effect algo k e ev
      (do_fill k e (ev_order ev) (set_last_time o (cur_tm e)) p (pend_qty o))
| effect_cancel o p :
    orders e !! ev_order ev = Some o →
    (pend_qty o <=? 0)%F = false →
    positions e !! position o = Some p →
    event_type ev = 1 ∨ (event_type ev = 0 ∧ algo = NoTrade ∧ tif o = IOC) →
    event_effect algo k e ev
      (do_cancel e (ev_order ev) (set_last_time o (cur_tm e)) p (pend_qty o))
| effect_idle o p :
    orders e !! ev_order ev = Some o →
    (pend_qty o <=? 0)%F = false →
    positions e !! position o = Some p →
    event_type ev = 0 → algo = NoTrade → tif o = GTC →
    event_effect algo k e ev
      (put_order e (ev_order ev) (set_last_time o (cur_tm e)), None).

(** Well-formedness of the arena: every order sits at its own index,
    points to a tracked position and is in one of its three states;
    every queued event names an order of the log and is of a known
    kind. *)
Definition order_ok (e : Engine) (i : nat) (o : Order) : Prop :=
  order_id o = i
  ∧ is_Some (positions e !! position o)
  ∧ lifecycle o
  ∧ (orig_qty o <=? 0)%F = false.

Definition wf (e : Engine) : Prop :=
  (∀ i o, orders e !! i = Some o → order_ok e i o)
  ∧ (∀ ev, ev ∈ events e →
       ev_order ev < length (orders e) ∧ event_type ev ≤ 1).

(** The pending quantity of every position and direction as the sum of
    the contributions of all orders of the log. *)
Definition pending_sum (e : Engine) : Prop :=
  ∀ k p d, positions e !! k = Some p →
    pending_get (pending_qty p) d = fsum (contrib k d <$> orders e).

(** A callback that only reads: it submits and cancels nothing. *)
Inductive quiet {A : Type} : Cmd A → Prop :=
| quiet_Ret a : quiet (Ret a)
| quiet_Observe next : (∀ e, quiet (next e)) → quiet (Observe next).

(** A strategy that does not trade from within its notification
    callbacks (it may in [on_start] and [on_bar_data]). *)
Definition quiet_notifications {S : Type} (strategy : Strategy S) : Prop :=
  (∀ st i, quiet (on_order_cancelled strategy st i))
  ∧ (∀ st t, quiet (on_order_executed strategy st t)).

(** A callback that submits only quantities that are numbers. *)
Inductive numeric {A : Type} : Cmd A → Prop :=
| numeric_Ret a : numeric (Ret a)
| numeric_Submit k dir qty t lmt_px next :
    is_fin qty → (∀ r, numeric (next r)) →
    numeric (Submit k dir qty t lmt_px next)
| numeric_Cancel i next : (∀ b, numeric (next b)) → numeric (Cancel i next)
| numeric_Observe next : (∀ e, numeric (next e)) → numeric (Observe next).

Definition numeric_strategy {S : Type} (strategy : Strategy S) : Prop :=
  (∀ st, numeric (on_start strategy st))
  ∧ (∀ st, numeric (on_stop strategy st))
  ∧ (∀ st i, numeric (on_order_cancelled strategy st i))
  ∧ (∀ st t, numeric (on_order_executed strategy st t))
  ∧ (∀ st k bar, numeric (on_bar_data strategy st k bar)).

(* ===================================================================== *)
(** ** Instrument identifiers as strings ([InstrumentID.__init__], [__str__]) *)
(* ===================================================================== *)

(** The character ['.'] (code 46). *)
Definition dot : Ascii.ascii := Ascii.ascii_of_nat 46.

(** [s.split('.')]: the pieces of [s] between its dots; a string with
    [n] dots has [n + 1] pieces, empty ones included. *)
Fixpoint split_dot (s : string) : list string :=
  match s with
  | EmptyString => [EmptyString]
  | String c s' =>
      if Ascii.eqb c dot then EmptyString :: split_dot s'
      else
        match split_dot s' with
        | [] => [String c EmptyString]
        | piece :: pieces => String c piece :: pieces
        end
  end.

(** [InstrumentID(ins_id_str)]; [None] is the [ValueError] raised for a
    string that does not split into exactly two pieces. *)
Definition InstrumentID_init (ins_id_str : string) : option InstrumentID :=
  match split_dot ins_id_str with
  | [ex; sym] => Some (mkInstrumentID ex sym)
  | _ => None
  end.

(** [str(ins_id)], which is also what [__repr__] returns and what
    [__hash__] hashes. *)
Definition InstrumentID_str (i : InstrumentID) : string :=
  (exchange i ++ String dot (symbol i))%string.

Fixpoint count_dots (s : string) : nat :=
  match s with
  | EmptyString => 0
  | String c s' =>
      (if Ascii.eqb c dot then 1 else 0) + count_dots s'
  end.

Definition dot_free (s : string) : Prop := count_dots s = 0.

(* ===================================================================== *)
(** ** Further specification predicates *)
(* ===================================================================== *)

(** What the engine never writes in a position, and in an order. *)
Definition position_static (p : Position) : InstrumentInfo * float :=
  (instrument p, max_hold_qty p).

Definition order_static (o : Order)
    : nat * InstrumentID * Direction * TimeInForce * option float * float
      * option Z :=
  (order_id o, position o, direction o, tif o, limit_px o, orig_qty o,
   insert_time o).

(** The position has room left in both directions: its capacity for a
    buy and for a sell are numbers and not negative. *)
Definition cap_ok (p : Position) : Prop :=
  ∀ d, ∃ c, capacity p d = Fin c ∧ (0 ≤ c)%Qc.






(** The first event of the queue that names an order still awaiting
    resolution is its fill attempt. *)
Definition fill_comes_first (e : Engine) : Prop :=
  ∀ i o, orders e !! i = Some o → (pend_qty o <=? 0)%F = false →
    ∃ idx, events e !! idx = Some (mkEvent 0 i)
           ∧ ∀ idx' ev', idx' < idx → events e !! idx' = Some ev' →
                         ev_order ev' ≠ i.

(** Every order that is no longer awaiting resolution was filled. *)
Definition none_cancelled (e : Engine) : Prop :=
  ∀ i o, orders e !! i = Some o → (pend_qty o <=? 0)%F = true →
    pend_qty o = 0%F ∧ exec_qty o = orig_qty o.

(** Every notification of the log is an execution. *)
Definition only_fills (log : list Notification) : Prop :=
  ∀ n, n ∈ log → ∃ t, n = Executed t.

(** The invariant of a run under [AlwaysFilled]. *)
Definition fills_only (rows : list (InstrumentInfo * float)) (e : Engine)
    : Prop :=
  reachable AlwaysFilled rows e ∧ fill_comes_first e ∧ none_cancelled e.

(** What a trade records of its order, in a state where the order
    is in the log. *)
Definition trade_ok (e : Engine) (j : nat) (t : Trade) : Prop :=
  trade_id t = j
  ∧ ∃ o, orders e !! trade_order t = Some o
         ∧ pend_qty o = 0%F
         ∧ exec_qty o = trade_qty t
         ∧ orig_qty o = trade_qty t
         ∧ last_time o = trade_time t.

(** The other side of a direction. *)
Definition opposite (dir : Direction) : Direction :=
  match dir with Buy => Sell | Sell => Buy end.


(* ===================================================================== *)
(** ** The demo strategy ([demo/run.py]) *)
(* ===================================================================== *)

(** [DemoStrategy].  Its callbacks log, which has no effect on the
    engine and is left out.  [on_bar_data] draws a direction with
    [random.choice] and a quantity with [random.randint(1, 5)] and
    submits an immediate-or-cancel order on the instrument of the bar.
    The draws are read off a tape, one entry for each bar; the state of
    the strategy is the number of bars it has seen. *)
Definition Tape : Type := nat → Direction * Z.

(** What [random.randint(1, 5)] returns. *)
Definition randint_1_5 (tape : Tape) : Prop :=
  ∀ n, (1 ≤ (tape n).2 ≤ 5)%Z.

Definition DemoStrategy (tape : Tape) : Strategy nat :=
  mkStrategy nat
    (λ st, Ret st)
    (λ st, Ret st)
    (λ st _, Ret st)
    (λ st _, Ret st)
    (λ st ins_id bar,
       Submit ins_id (tape st).1 (of_Z (tape st).2) IOC None
         (λ _, Ret (Datatypes.S st))).

(** An order of the demo: immediate-or-cancel, with no limit price and
    a quantity that is positive and at most 5. *)
Definition demo_order (o : Order) : Prop :=
  tif o = IOC ∧ limit_px o = None
  ∧ (orig_qty o <=? 0)%F = false ∧ (orig_qty o <=? of_Z 5)%F = true.

(** Every queued event is about the last order of the log. *)
Definition last_order_queued (e : Engine) : Prop :=
  ∀ ev, ev ∈ events e → Datatypes.S (ev_order ev) = length (orders e).

(** The invariant of a run of the demo after [n] bars. *)
Definition demo_state (algo : MatchAlgorithm)
    (rows : list (InstrumentInfo * float)) (n : nat) (e : Engine) : Prop :=
  reachable algo rows e
  ∧ last_order_queued e
  ∧ length (events e) ≤ 1
  ∧ length (orders e) ≤ n
  ∧ Forall demo_order (orders e).

(* ===================================================================== *)
(** ** The queue and the pass; exact quantities *)
(* ===================================================================== *)


(** A float that is a whole number. *)
Definition whole (a : float) : Prop := ∃ z : Z, a = of_Z z.

(** Every order quantity of the log is a whole number and their total
    is at most [2^53].  Every sum and difference of such quantities is
    a whole number of at most that size, which a Python float holds
    exactly: for such a log the additions and subtractions of
    [pending_qty] carry no rounding in the source, and are what they
    are here. *)
Definition orders_exact (e : Engine) : Prop :=
  Forall (λ o, whole (orig_qty o)) (orders e)
  ∧ (fsum (orig_qty <$> orders e) <=? of_Z (2 ^ 53))%F = true.

(** A flat position carries no cost, or its cost is not a number. *)
Definition flat_is_free_or_nan (p : Position) : Prop :=
  hold_qty p = 0%F → hold_mv p = 0%F ∨ hold_mv p = NaN.

(* ===================================================================== *)
(** ** Scenarios *)
(* ===================================================================== *)

Definition CU : InstrumentID := mkInstrumentID "SHFE" "CU2105".
Definition AL : InstrumentID := mkInstrumentID "SHFE" "AL2105".

(** An instrument with unit ticks and no fees. *)
Definition plain_info (k : InstrumentID) : InstrumentInfo :=
  mkInstrumentInfo k 1%F 1%F 1%F 0%F 0%F.

Definition two_rows : list (InstrumentInfo * float) :=
  [(plain_info CU, of_Z 10); (plain_info AL, of_Z 10)].

Definition flat_bar (tm : Z) (px : float) : BarData :=
  mkBarData tm tm px px px px 0%F 0%F 0%F.

(** Two instruments, one order on each.  The order on [AL] is submitted
    in [on_start], before any bar; the order on [CU] is submitted on
    the first bar, which is a [CU] bar at 100.  The second bar is an
    [AL] bar at 200. *)
Definition cross_strategy : Strategy nat :=
  mkStrategy nat
    (λ st, Submit AL Buy 1%F IOC None (λ _, Ret st))
    (λ st, Ret st)
    (λ st _, Ret st)
    (λ st _, Ret st)
    (λ st k bar,
       match st with
       | O => Submit CU Buy 1%F IOC None (λ _, Ret 1)
       | _ => Ret (Datatypes.S st)
       end).

Definition cross_bars : list (InstrumentID * BarData) :=
  [(CU, flat_bar 1 (of_Z 100)); (AL, flat_bar 2 (of_Z 200))].

(** Long 3 at average cost 50, with a sell of 5 pending. *)
Definition long3 : Position :=
  mkPosition (plain_info CU) (of_Z 10) (of_Z 3) (of_Z 150)
    (mkPendingQty 0%F (of_Z 5)) 0%F 0%F.

Definition sell5 : Fill := apply_fill long3 Sell (of_Z 5) (of_Z 60).

(** [max_hold_qty = 10]; a buy of 7 is pending; a second buy of 7 is
    being submitted. *)
Definition one_buy_pending : Engine :=
  (submit_order (init_engine two_rows) CU Buy (of_Z 7) GTC None).2.

(** A state with one good-till-cancel buy order of 7 on [CU], still
    pending, and that state when the next bar arrives. *)
Definition gtc_pending : Engine := one_buy_pending.

Definition gtc_at_bar : Engine :=
  begin_bar gtc_pending CU (flat_bar 2 (of_Z 100)).

(** Buy 3 on the first bar, sell 3 on the second, nothing afterwards;
    the first order is good-till-cancel, the second immediate-or-cancel. *)
Definition round_trip : Strategy nat :=
  mkStrategy nat
    (λ st, Ret st)
    (λ st, Ret st)
    (λ st _, Ret st)
    (λ st _, Ret st)
    (λ st k bar,
       match st with
       | 0 => Submit CU Buy (of_Z 3) GTC None (λ _, Ret 1)
       | 1 => Submit CU Sell (of_Z 3) IOC None (λ _, Ret 2)
       | _ => Ret st
       end).

Definition three_bars : list (InstrumentID * BarData) :=
  [(CU, flat_bar 1 (of_Z 100)); (CU, flat_bar 2 (of_Z 100));
   (CU, flat_bar 3 (of_Z 110))].

(** The engine a run ends with. *)
Definition final_engine {S : Type} (r : outcome (S * Engine)) : Engine :=
  match r with Done (_, e) => e | _ => init_engine [] end.

Definition round_trip_filled : Engine :=
  final_engine (run round_trip AlwaysFilled 2 two_rows three_bars 0).

(** The resolution pass over [gtc_at_bar] under [NoTrade]: the one
    queued fill attempt leaves the order pending. *)
Definition gtc_after_pass : Engine :=
  match resolve_events round_trip NoTrade 2 CU 0 0 gtc_at_bar [] with
  | Done (_, e, _) => e
  | _ => gtc_at_bar
  end.

(** The good-till-cancel order of [gtc_pending] with its cancellation
    requested before the next bar: the queue holds its fill attempt
    and then its cancel request. *)
Definition both_queued : Engine :=
  begin_bar (cancel_order gtc_pending 0).2 CU (flat_bar 2 (of_Z 100)).

(** The run of [round_trip] after two bars: long 3, with the sell of 3
    submitted on the second bar still queued. *)
Definition long3_selling : Engine :=
  final_engine
    (run round_trip AlwaysFilled 2 two_rows (take 2 three_bars) 0).

(** A good-till-cancel buy of 3 on the first bar, with its cancellation
    requested at once; nothing afterwards. *)
Definition cancel_at_once : Strategy nat :=
  mkStrategy nat
    (λ st, Ret st)
    (λ st, Ret st)
    (λ st _, Ret st)
    (λ st _, Ret st)
    (λ st k bar,
       match st with
       | 0 =>
           Submit CU Buy (of_Z 3) GTC None
             (λ r, match r with
                   | Some i => Cancel i (λ _, Ret 1)
                   | None => Ret 1
                   end)
       | _ => Ret st
       end).

(** A strategy that answers every execution with an order of one unit
    on the other side.  Its state is the side of its next order. *)
Definition ping_pong : Strategy Direction :=
  mkStrategy Direction
    (λ st, Submit CU st 1%F IOC None (λ _, Ret (opposite st)))
    (λ st, Ret st)
    (λ st _, Ret st)
    (λ st _, Submit CU st 1%F IOC None (λ _, Ret (opposite st)))
    (λ st _ _, Ret st).

(** The state of a pass of [ping_pong] when the cursor is on the last
    event of the queue, the fill attempt of a one-unit order on the
    side opposite to [st], and the position is flat before a buy and
    long one unit before a sell. *)
Definition rally (i : nat) (st : Direction) (e : Engine) : Prop :=
  ∃ j o p,
    length (events e) = Datatypes.S i
    ∧ events e !! i = Some (mkEvent 0 j)
    ∧ length (orders e) = Datatypes.S j
    ∧ orders e !! j = Some o
    ∧ pend_qty o = 1%F ∧ direction o = opposite st ∧ position o = CU
    ∧ positions e !! CU = Some p
    ∧ max_hold_qty p = of_Z 10
    ∧ hold_qty p = match st with Sell => 0%F | Buy => 1%F end
    ∧ pending_qty p
      = match st with
        | Sell => mkPendingQty 1%F 0%F
        | Buy => mkPendingQty 0%F 1%F
        end.

(** Draws of the demo: buy and sell in turn, quantities 1 to 5 in
    turn. *)
Definition demo_tape : Tape :=
  λ n, (if Nat.even n then Buy else Sell, (1 + Z.of_nat n `mod` 5)%Z).

(** The engine and the notifications a finished pass ends with. *)
Definition pass_result {S : Type}
    (r : outcome (S * Engine * list Notification))
    : Engine * list Notification :=
  match r with Done (_, e, log) => (e, log) | _ => (init_engine [], []) end.

(** The run of [cancel_at_once] after the first bar, the pass of the
    second bar over it, and the end of its run over [three_bars]. *)
Definition cancel_requested : Engine :=
  final_engine
    (run_bars cancel_at_once AlwaysFilled 3 (take 1 three_bars) 0
       (init_engine two_rows)).

Definition cancel_ignored : Engine * list Notification :=
  pass_result
    (resolve_events cancel_at_once AlwaysFilled 3 CU 0 1
       (begin_bar cancel_requested CU (flat_bar 2 (of_Z 100))) []).

Definition cancel_at_once_end : Engine :=
  final_engine (run cancel_at_once AlwaysFilled 3 two_rows three_bars 0).

(** The pass of the third bar of [three_bars] over [long3_selling]. *)
Definition sell_pass : Engine * list Notification :=
  pass_result
    (resolve_events round_trip AlwaysFilled 2 CU 0 2
       (begin_bar long3_selling CU (flat_bar 3 (of_Z 110))) []).

(** The end of the demo over [three_bars] with the draws of
    [demo_tape]. *)
Definition demo_end : Engine :=
  final_engine
    (run (DemoStrategy demo_tape) AlwaysFilled 2 two_rows three_bars 0).







(** [three_bars] with a last price that is not a number on the third
    bar, and the end of the run of [round_trip] over them. *)
Definition nan_bars : list (InstrumentID * BarData) :=
  [(CU, flat_bar 1 (of_Z 100)); (CU, flat_bar 2 (of_Z 100));
   (CU, flat_bar 3 NaN)].

Definition nan_flat : Engine :=
  final_engine (run round_trip AlwaysFilled 2 two_rows nan_bars 0).

(** A buy whose quantity is not a number, on the first bar;
    [nan_at_bar] is the state when the second bar arrives, [nan_pass]
    the pass of that bar. *)
Definition nan_buyer : Strategy nat :=
  mkStrategy nat
    (λ st, Ret st)
    (λ st, Ret st)
    (λ st _, Ret st)
    (λ st _, Ret st)
    (λ st k bar,
       match st with
       | 0 => Submit CU Buy NaN IOC None (λ _, Ret 1)
       | _ => Ret st
       end).

Definition nan_at_bar : Engine :=
  begin_bar
    (final_engine (run nan_buyer AlwaysFilled 2 two_rows (take 1 three_bars) 0))
    CU (flat_bar 2 (of_Z 100)).

Definition nan_pass : Engine * list Notification :=
  pass_result (resolve_events nan_buyer AlwaysFilled 2 CU 0 1 nan_at_bar []).

(** Long 4 at average cost 50, with a sell of 2 pending. *)
Definition long4 : Position :=
  mkPosition (plain_info CU) (of_Z 10) (of_Z 4) (of_Z 200)
    (mkPendingQty 0%F (of_Z 2)) 0%F 0%F.


(* ===================================================================== *)
(** ** Float arithmetic *)
(* ===================================================================== *)

Lemma fleb_zero_false a :
  (a <=? 0)%F = false → a = NaN ∨ ∃ x, a = Fin x ∧ (0 < x)%Qc.
Proof.
  destruct a as [x|]; simpl; [|by left].
  intros H%bool_decide_eq_false. right. exists x. split; [done|].
  by apply Qcnot_le_lt.
Qed.

Lemma fadd_0_l a : (0 + a)%F = a.
Proof. destruct a as [x|]; simpl; [|done]. f_equal. ring. Qed.

Lemma fadd_0_r a : (a + 0)%F = a.
Proof. destruct a as [x|]; simpl; [|done]. f_equal. ring. Qed.

Lemma fadd_assoc a b c : (a + (b + c))%F = (a + b + c)%F.
Proof. destruct a, b, c; simpl; try done. f_equal. ring. Qed.

Lemma fsum_app l1 l2 : fsum (l1 ++ l2) = (fsum l1 + fsum l2)%F.
Proof.
  induction l1 as [|a l1 IH].
  - symmetry. apply fadd_0_l.
  - change (a + fsum (l1 ++ l2) = a + fsum l1 + fsum l2)%F.
    by rewrite IH, fadd_assoc.
Qed.

Lemma fsum_fin l : Forall is_fin l → is_fin (fsum l).
Proof.
  induction 1 as [|a l Ha _ IH]; simpl; [done|].
  destruct a; [|done]. by destruct (fsum l).
Qed.

(* ===================================================================== *)
(** ** The effect of one event *)
(* ===================================================================== *)

Lemma process_event_cases algo k e ev r :
  process_event algo k e ev = Ok r → event_effect algo k e ev r.
Proof.
  unfold process_event.
  destruct (orders e !! ev_order ev) as [o|] eqn:Ho; [|done].
  destruct (pend_qty o <=? 0)%F eqn:Hq.
  { intros [= <-]. by eapply effect_skip. }
  cbn [position set_last_time pend_qty tif].
  destruct (positions e !! position o) as [p|] eqn:Hp; [|done].
  destruct (event_type ev) as [|[|n]] eqn:Ht; [| |done].
  - destruct algo.
    + destruct (tif o) eqn:Htif; intros [= <-].
      * eapply effect_cancel; eauto.
      * eapply effect_idle; eauto.
    + intros [= <-]. eapply effect_fill; eauto.
  - intros [= <-]. eapply effect_cancel; eauto.
Qed.

Lemma event_effect_sound algo k e ev r :
  event_effect algo k e ev r → process_event algo k e ev = Ok r.
Proof.
  unfold process_event.
  destruct 1 as [o Ho Hq|o p Ho Hq Hp Ht ->|o p Ho Hq Hp Ht|o p Ho Hq Hp Ht -> Htif];
    rewrite Ho, Hq; [done|..];
    cbn [position set_last_time pend_qty tif]; rewrite Hp.
  - by rewrite Ht.
  - destruct Ht as [->|(-> & -> & ->)]; done.
  - by rewrite Ht, Htif.
Qed.

(** Case analysis on the operations that build a reachable state, with
    the outcome of each operation spelled out. *)
Lemma reachable_cases algo rows (P : Engine → Prop) :
  P (init_engine rows) →
  (∀ e k p dir qty t lmt_px,
     reachable algo rows e → P e →
     positions e !! k = Some p →
     (pymin qty (capacity p dir) <=? 0)%F = false →
     P (accept_order e k p dir (pymin qty (capacity p dir)) t lmt_px)) →
  (∀ e i o,
     reachable algo rows e → P e →
     orders e !! i = Some o →
     P (enqueue e (mkEvent 1 i))) →
  (∀ e k bar, reachable algo rows e → P e → P (begin_bar e k bar)) →
  (∀ e k ev r,
     reachable algo rows e → P e → ev ∈ events e →
     event_effect algo k e ev r → P r.1) →
  (∀ e, reachable algo rows e → P e → P (clear_events e)) →
  ∀ e, reachable algo rows e → P e.
Proof.
  intros Hinit Hsub Hcan Hbar Hev Hclr e He.
  induction He as [|e k dir qty t lmt_px He IH|e i He IH|e k bar He IH
                  |e k ev e' n He IH Hin Hpe|e He IH].
  - done.
  - unfold submit_order, find_position.
    destruct (positions e !! k) as [p|] eqn:Hp; [|done].
    destruct (pymin qty (capacity p dir) <=? 0)%F eqn:Hq; [done|].
    by apply Hsub.
  - unfold cancel_order.
    destruct (orders e !! i) as [o|] eqn:Ho; [|done].
    destruct ((pend_qty o =? 0)%F || bool_decide (tif o = IOC)); [done|].
    by eapply Hcan.
  - by apply Hbar.
  - apply process_event_cases in Hpe.
    by apply (Hev e k ev (e', n)).
  - by apply Hclr.
Qed.

(* ===================================================================== *)
(** ** Well-formedness of reachable states *)
(* ===================================================================== *)

Lemma lifecycle_awaiting o :
  lifecycle o → (pend_qty o <=? 0)%F = false →
  pend_qty o = orig_qty o ∧ exec_qty o = 0%F.
Proof.
  intros [H|[[H _]|[H _]]] Hq; [done|..]; by rewrite H in Hq.
Qed.

Lemma order_ok_frame e e' i o :
  (∀ k, is_Some (positions e !! k) → is_Some (positions e' !! k)) →
  order_ok e i o → order_ok e' i o.
Proof. intros Hk (? & ? & ? & ?). split_and!; auto. Qed.

Lemma is_Some_insert_mono (m : gmap InstrumentID Position) k p j :
  is_Some (m !! j) → is_Some (<[k := p]> m !! j).
Proof. rewrite lookup_insert_is_Some. destruct (decide (k = j)); auto. Qed.

(** How the order log changes when one event is resolved: nothing, or
    the order of the event is rewritten in place. *)
Lemma event_effect_orders algo k e ev r :
  event_effect algo k e ev r →
  r = (e, None)
  ∨ ∃ o o', orders e !! ev_order ev = Some o
      ∧ (pend_qty o <=? 0)%F = false
      ∧ orders r.1 = <[ev_order ev := o']> (orders e)
      ∧ order_id o' = order_id o ∧ position o' = position o
      ∧ direction o' = direction o ∧ tif o' = tif o
      ∧ orig_qty o' = orig_qty o
      ∧ ((pend_qty o' = pend_qty o ∧ exec_qty o' = exec_qty o ∧ r.2 = None)
         ∨ (pend_qty o' = 0%F ∧ exec_qty o' = pend_qty o
            ∧ ∃ t, r.2 = Some (Executed t) ∧ trade_order t = ev_order ev)
         ∨ (pend_qty o' = 0%F ∧ exec_qty o' = exec_qty o
            ∧ r.2 = Some (Cancelled (ev_order ev)))).
Proof.
  destruct 1 as [o Ho Hq|o p Ho Hq Hp Ht ->|o p Ho Hq Hp Ht|o p Ho Hq Hp Ht -> Htif].
  - by left.
  - right. eexists o, _. split_and!; [done|done|reflexivity|try done..].
    right. left. simpl. eauto.
  - right. eexists o, _. split_and!; [done|done|reflexivity|try done..].
    right. right. done.
  - right. eexists o, _. split_and!; [done|done|reflexivity|try done..].
    by left.
Qed.

Lemma event_effect_positions algo k e ev r j :
  event_effect algo k e ev r →
  is_Some (positions e !! j) → is_Some (positions r.1 !! j).
Proof.
  destruct 1; simpl; auto using is_Some_insert_mono.
Qed.

Lemma event_effect_events algo k e ev r :
  event_effect algo k e ev r → events r.1 = events e.
Proof. by destruct 1. Qed.

Lemma wf_reachable algo rows e : reachable algo rows e → wf e.
Proof.
  revert e. apply (reachable_cases algo rows wf).
  - split; [intros i o; simpl; by rewrite lookup_nil
           |intros ev; simpl; by rewrite elem_of_nil].
  - intros e k p dir qty t lmt_px _ [Ho He] Hp Hq. split.
    + intros i o. simpl. intros [[_ Hi]|[-> <-]]%lookup_snoc_Some.
      * eapply order_ok_frame; [|by apply Ho].
        intros j. simpl. apply is_Some_insert_mono.
      * split_and!; simpl; [done| |by left|done].
        rewrite lookup_insert_eq. eauto.
    + intros ev. simpl. rewrite length_app. simpl.
      intros [Hin|Hx%list_elem_of_singleton]%elem_of_app.
      * destruct (He ev Hin). lia.
      * subst ev. simpl. lia.
  - intros e i o _ [Ho He] Hi. split; [done|].
    intros ev. simpl.
    intros [Hin|Hx%list_elem_of_singleton]%elem_of_app; [by apply He|].
    subst ev. simpl. split; [by eapply lookup_lt_Some|lia].
  - intros e k bar _ [Ho He]. split; [|done].
    intros i o Hi. eapply order_ok_frame; [|by apply Ho]. done.
  - intros e k ev r _ [Ho He] Hin Heff. split.
    + intros i o Hi.
      destruct (event_effect_orders _ _ _ _ _ Heff)
        as [->|(o0 & o' & Ho0 & Hq & Heq & Hid & Hpos & _ & _ & Horig & Hst)].
      * by apply Ho.
      * rewrite Heq in Hi. apply list_lookup_insert_Some in Hi as [(<- & <- & _)|[_ Hi]].
        2:{ eapply order_ok_frame; [|by apply Ho].
            intros j. by eapply event_effect_positions. }
        destruct (Ho _ _ Ho0) as (Hid0 & Hp0 & Hl0 & Hor0).
        destruct (lifecycle_awaiting _ Hl0 Hq) as [Hpe Hex].
        split_and!.
        -- congruence.
        -- rewrite Hpos. by eapply event_effect_positions.
        -- unfold lifecycle. rewrite Horig.
           destruct Hst as [(-> & -> & _)|[(-> & -> & _)|(-> & -> & _)]]; auto.
        -- congruence.
    + intros ev' Hin'. rewrite (event_effect_events _ _ _ _ _ Heff) in Hin'.
      destruct (He _ Hin') as [Hlt Hty]. split; [|done].
      destruct (event_effect_orders _ _ _ _ _ Heff)
        as [->|(? & ? & _ & _ & -> & _)]; [done|].
      by rewrite length_insert.
  - intros e _ [Ho He]. split; [|intros ev; simpl; by rewrite elem_of_nil].
    intros i o Hi. eapply order_ok_frame; [|by apply Ho]. done.
Qed.

(** In a reachable state no queued event raises: the event kind is
    known and every reference resolves. *)
Lemma process_event_no_raise algo rows e k ev :
  reachable algo rows e → ev ∈ events e →
  ∃ r, process_event algo k e ev = Ok r.
Proof.
  intros [Ho He]%wf_reachable Hin.
  destruct (He _ Hin) as [Hlt Hty].
  destruct (lookup_lt_is_Some_2 _ _ Hlt) as [o Hlk].
  destruct (Ho _ _ Hlk) as (_ & [p Hp] & _ & _).
  unfold process_event. rewrite Hlk.
  destruct (pend_qty o <=? 0)%F; [eauto|].
  cbn [position set_last_time pend_qty tif]. rewrite Hp.
  destruct (event_type ev) as [|[|n]]; [| |lia].
  - destruct algo; [destruct (tif o)|]; eauto.
  - eauto.
Qed.

(* ===================================================================== *)
(** ** Invariants of the driver *)
(* ===================================================================== *)

Section DriverInvariant.
Context {S : Type}.
Variable strategy : Strategy S.
Variable algo : MatchAlgorithm.
Variable Inv : Engine → Prop.

Hypothesis Inv_submit : ∀ e k dir qty t lmt_px,
  Inv e → Inv (submit_order e k dir qty t lmt_px).2.
Hypothesis Inv_cancel : ∀ e i, Inv e → Inv (cancel_order e i).2.
Hypothesis Inv_bar : ∀ e k bar, Inv e → Inv (begin_bar e k bar).
Hypothesis Inv_event : ∀ e k ev r,
  Inv e → ev ∈ events e → process_event algo k e ev = Ok r → Inv r.1.
Hypothesis Inv_clear : ∀ e, Inv e → Inv (clear_events e).

Lemma run_cmd_inv {A : Type} (c : Cmd A) e :
  Inv e → Inv (run_cmd c e).2.
Proof.
  revert e. induction c as [a|k dir qty t lmt_px next IH|i next IH|next IH];
    intros e He; simpl; auto.
Qed.

Lemma resolve_events_inv fuel k i st e log r :
  Inv e →
  resolve_events strategy algo fuel k i st e log = Done r →
  Inv r.1.2.
Proof.
  revert i st e log. induction fuel as [|fuel IH]; intros i st e log He;
    simpl; [done|].
  destruct (events e !! i) as [ev|] eqn:Hev; [|by intros [= <-]].
  destruct (process_event algo k e ev) as [[e1 [n|]]|x] eqn:Hpe; [| |done].
  - apply IH. apply run_cmd_inv.
    apply (Inv_event e k ev (e1, Some n)); [done| |done].
    apply list_elem_of_lookup; eauto.
  - apply IH.
    apply (Inv_event e k ev (e1, None)); [done| |done].
    apply list_elem_of_lookup; eauto.
Qed.

Lemma bar_step_inv fuel st e k bar r :
  Inv e → bar_step strategy algo fuel st e k bar = Done r → Inv r.2.
Proof.
  intros He. unfold bar_step.
  destruct (resolve_events strategy algo fuel k 0 st (begin_bar e k bar) [])
    as [[[st1 e1] lg]| |] eqn:Hres; [|done..].
  intros [= <-]. apply run_cmd_inv, Inv_clear.
  apply (resolve_events_inv _ _ _ _ _ _ _ (Inv_bar _ k bar He) Hres).
Qed.

Lemma run_bars_inv fuel bars st e r :
  Inv e → run_bars strategy algo fuel bars st e = Done r → Inv r.2.
Proof.
  revert st e. induction bars as [|[k bar] bars IH]; intros st e He; simpl.
  - by intros [= <-].
  - destruct (bar_step strategy algo fuel st e k bar) as [[st1 e1]| |] eqn:Hb;
      [|done..].
    apply IH. apply (bar_step_inv _ _ _ _ _ _ He Hb).
Qed.

Lemma run_inv fuel rows bars st0 r :
  Inv (init_engine rows) →
  run strategy algo fuel rows bars st0 = Done r → Inv r.2.
Proof.
  intros H0. unfold run.
  destruct (run_bars strategy algo fuel bars _ _) as [[st1 e1]| |] eqn:Hb;
    [|done..].
  intros [= <-]. apply run_cmd_inv.
  eapply (run_bars_inv _ _ _ _ (st1, e1)); [|exact Hb].
  by apply run_cmd_inv.
Qed.
End DriverInvariant.

(** Every state of a run is reachable. *)
Lemma run_cmd_reachable {A : Type} algo rows (c : Cmd A) e :
  reachable algo rows e → reachable algo rows (run_cmd c e).2.
Proof.
  apply run_cmd_inv; intros; by constructor.
Qed.

Lemma resolve_events_reachable {S : Type} (strategy : Strategy S) algo rows
    fuel k i st e log r :
  reachable algo rows e →
  resolve_events strategy algo fuel k i st e log = Done r →
  reachable algo rows r.1.2.
Proof.
  apply resolve_events_inv; intros; try by constructor.
  destruct r0. by eapply reach_event.
Qed.

Lemma run_reachable {S : Type} (strategy : Strategy S) algo rows fuel bars
    st0 r :
  run strategy algo fuel rows bars st0 = Done r →
  reachable algo rows r.2.
Proof.
  apply run_inv; intros; try by constructor.
  destruct r0. by eapply reach_event.
Qed.

(* ===================================================================== *)
(** ** Termination of the driver *)
(* ===================================================================== *)

Lemma run_cmd_quiet {A : Type} (c : Cmd A) e : quiet c → (run_cmd c e).2 = e.
Proof. induction 1; simpl; auto. Qed.

Section Termination.
Context {S : Type}.
Variable strategy : Strategy S.
Variable algo : MatchAlgorithm.

(** More fuel does not change a finished pass. *)
Lemma resolve_events_fuel_mono fuel fuel' k i st e log r :
  fuel ≤ fuel' →
  resolve_events strategy algo fuel k i st e log = Done r →
  resolve_events strategy algo fuel' k i st e log = Done r.
Proof.
  revert fuel' i st e log. induction fuel as [|fuel IH];
    intros fuel' i st e log Hle; [done|].
  destruct fuel' as [|fuel']; [lia|]. simpl.
  destruct (events e !! i) as [ev|]; [|done].
  destruct (process_event algo k e ev) as [[e1 [n|]]|x]; [| |done];
    apply IH; lia.
Qed.

(** With quiet notification callbacks the queue does not grow during a
    pass, and the pass over a reachable state finishes within one step
    per queued event. *)
Lemma resolve_events_total rows fuel k i st e log :
  quiet_notifications strategy →
  reachable algo rows e →
  length (events e) - i < fuel →
  ∃ r, resolve_events strategy algo fuel k i st e log = Done r.
Proof.
  intros [Hqc Hqe]. revert i st e log.
  induction fuel as [|fuel IH]; intros i st e log He Hlen; [lia|]. simpl.
  destruct (events e !! i) as [ev|] eqn:Hev; [|eauto].
  assert (ev ∈ events e) as Hin by (apply list_elem_of_lookup; eauto).
  destruct (process_event_no_raise algo rows e k ev He Hin) as [[e1 n] Hpe].
  rewrite Hpe.
  assert (reachable algo rows e1) as He1 by by eapply reach_event.
  assert (events e1 = events e) as Hev1.
  { by apply (event_effect_events _ _ _ _ _ (process_event_cases _ _ _ _ _ Hpe)). }
  apply lookup_lt_Some in Hev.
  destruct n as [n|].
  - assert (quiet (notify strategy st n)) as Hq by (destruct n; simpl; auto).
    rewrite (run_cmd_quiet _ e1 Hq). apply IH; [done|]. rewrite Hev1. lia.
  - apply IH; [done|]. rewrite Hev1. lia.
Qed.

Lemma bar_step_fuel_mono fuel fuel' st e k bar r :
  fuel ≤ fuel' →
  bar_step strategy algo fuel st e k bar = Done r →
  bar_step strategy algo fuel' st e k bar = Done r.
Proof.
  intros Hle. unfold bar_step.
  destruct (resolve_events strategy algo fuel k 0 st (begin_bar e k bar) [])
    as [[[st1 e1] lg]| |] eqn:Hres; [|done..].
  by rewrite (resolve_events_fuel_mono _ _ _ _ _ _ _ _ Hle Hres).
Qed.

Lemma run_bars_fuel_mono fuel fuel' bars st e r :
  fuel ≤ fuel' →
  run_bars strategy algo fuel bars st e = Done r →
  run_bars strategy algo fuel' bars st e = Done r.
Proof.
  intros Hle. revert st e.
  induction bars as [|[k bar] bars IH]; intros st e; simpl; [done|].
  destruct (bar_step strategy algo fuel st e k bar) as [[st1 e1]| |] eqn:Hb;
    [|done..].
  rewrite (bar_step_fuel_mono _ _ _ _ _ _ _ Hle Hb). apply IH.
Qed.

Lemma run_bars_total rows bars st e :
  quiet_notifications strategy →
  reachable algo rows e →
  ∃ fuel r, run_bars strategy algo fuel bars st e = Done r.
Proof.
  intros Hq. revert st e.
  induction bars as [|[k bar] bars IH]; intros st e He; simpl.
  - exists 0. eauto.
  - destruct (resolve_events_total rows (Datatypes.S (length (events e))) k 0 st
                (begin_bar e k bar) [] Hq) as [[[st1 e1] lg] Hres].
    { by apply reach_bar. }
    { simpl. lia. }
    pose proof (resolve_events_reachable _ _ _ _ _ _ _ _ _ _
                  (reach_bar _ _ _ k bar He) Hres) as He1.
    simpl in He1.
    destruct (IH (run_cmd (on_bar_data strategy st1 k bar) (clear_events e1)).1
                 (run_cmd (on_bar_data strategy st1 k bar) (clear_events e1)).2)
      as (fuel2 & r & Hr).
    { apply run_cmd_reachable. by apply reach_clear. }
    exists (Datatypes.S (length (events e)) `max` fuel2), r.
    unfold bar_step.
    rewrite (resolve_events_fuel_mono _ _ _ _ _ _ _ _
               (Nat.le_max_l _ _) Hres).
    destruct (run_cmd (on_bar_data strategy st1 k bar) (clear_events e1))
      as [st2 e2].
    apply (run_bars_fuel_mono fuel2); [lia|done].
Qed.

(** A run of a strategy with quiet notification callbacks finishes,
    given enough fuel. *)
Lemma run_total rows bars st0 :
  quiet_notifications strategy →
  ∃ fuel r, run strategy algo fuel rows bars st0 = Done r.
Proof.
  intros Hq. unfold run.
  destruct (run_bars_total rows bars
              (run_cmd (on_start strategy st0) (init_engine rows)).1
              (run_cmd (on_start strategy st0) (init_engine rows)).2 Hq)
    as (fuel & [st1 e1] & Hr).
  { apply run_cmd_reachable. apply reach_init. }
  exists fuel. rewrite Hr. eauto.
Qed.
End Termination.

(* ===================================================================== *)
(** ** What a callback can change *)
(* ===================================================================== *)

Lemma submit_order_orders e k dir qty t lmt_px :
  ∃ new, orders (submit_order e k dir qty t lmt_px).2 = orders e ++ new.
Proof.
  unfold submit_order, find_position.
  destruct (positions e !! k) as [p|]; [|exists []; by rewrite app_nil_r].
  destruct (pymin qty (capacity p dir) <=? 0)%F;
    [exists []; by rewrite app_nil_r|].
  eexists. reflexivity.
Qed.

Lemma cancel_order_orders e i : orders (cancel_order e i).2 = orders e.
Proof.
  unfold cancel_order. destruct (orders e !! i) as [o|]; [|done].
  by destruct ((pend_qty o =? 0)%F || bool_decide (tif o = IOC)).
Qed.

(** A callback only appends to the order log. *)
Lemma run_cmd_orders {A : Type} (c : Cmd A) e :
  ∃ new, orders (run_cmd c e).2 = orders e ++ new.
Proof.
  revert e. induction c as [a|k dir qty t lmt_px next IH|i next IH|next IH];
    intros e; simpl.
  - exists []. by rewrite app_nil_r.
  - destruct (submit_order_orders e k dir qty t lmt_px) as [n1 H1].
    destruct (IH (submit_order e k dir qty t lmt_px).1
                 (submit_order e k dir qty t lmt_px).2) as [n2 H2].
    exists (n1 ++ n2). by rewrite H2, H1, app_assoc.
  - destruct (IH (cancel_order e i).1 (cancel_order e i).2) as [n2 H2].
    exists n2. by rewrite H2, cancel_order_orders.
  - apply IH.
Qed.

Lemma submit_order_prices e k dir qty t lmt_px :
  trades (submit_order e k dir qty t lmt_px).2 = trades e
  ∧ cur_px (submit_order e k dir qty t lmt_px).2 = cur_px e.
Proof.
  unfold submit_order, find_position.
  destruct (positions e !! k) as [p|]; [|done].
  by destruct (pymin qty (capacity p dir) <=? 0)%F.
Qed.

Lemma cancel_order_prices e i :
  trades (cancel_order e i).2 = trades e
  ∧ cur_px (cancel_order e i).2 = cur_px e.
Proof.
  unfold cancel_order. destruct (orders e !! i) as [o|]; [|done].
  by destruct ((pend_qty o =? 0)%F || bool_decide (tif o = IOC)).
Qed.

(** A callback changes neither the trade log nor the price table. *)
Lemma run_cmd_prices {A : Type} (c : Cmd A) e :
  trades (run_cmd c e).2 = trades e ∧ cur_px (run_cmd c e).2 = cur_px e.
Proof.
  apply (run_cmd_inv (λ e', trades e' = trades e ∧ cur_px e' = cur_px e));
    [| |done].
  - intros e' k dir qty t lmt_px [<- <-]. apply submit_order_prices.
  - intros e' i [<- <-]. apply cancel_order_prices.
Qed.

(** While the bar of instrument [k] is being processed, the price
    table has a price for [k]: every fill of the pass is made at that
    price, and the fallback to not-a-number is not taken. *)
Lemma event_effect_bar_price algo k e ev r px :
  cur_px e !! k = Some px →
  event_effect algo k e ev r →
  cur_px r.1 = cur_px e
  ∧ (trades r.1 = trades e
     ∨ ∃ t, trades r.1 = trades e ++ [t] ∧ trade_px t = px).
Proof.
  intros Hpx. destruct 1; simpl; [auto..| |auto|auto].
  split; [done|]. right. rewrite Hpx. eauto.
Qed.

Section BarPrices.
Context {S : Type}.
Variable strategy : Strategy S.
Variable algo : MatchAlgorithm.

Lemma resolve_events_prices fuel k px i st e log r :
  cur_px e !! k = Some px → is_fin px → prices_fin e →
  resolve_events strategy algo fuel k i st e log = Done r →
  prices_fin r.1.2.
Proof.
  intros Hpx Hfin. revert i st e log Hpx.
  induction fuel as [|fuel IH]; intros i st e log Hpx Hpr; simpl; [done|].
  destruct (events e !! i) as [ev|]; [|by intros [= <-]].
  destruct (process_event algo k e ev) as [[e1 n]|x] eqn:Hpe; [|done].
  apply process_event_cases in Hpe.
  destruct (event_effect_bar_price _ _ _ _ _ _ Hpx Hpe) as [Hc Ht].
  simpl in Hc, Ht.
  assert (prices_fin e1) as Hpr1.
  { unfold prices_fin. destruct Ht as [->|(t & -> & Ht)]; [done|].
    apply Forall_app. split; [done|]. apply Forall_singleton. by rewrite Ht. }
  destruct n as [n|].
  - destruct (run_cmd_prices (notify strategy st n) e1) as [Ht2 Hc2].
    apply IH.
    + by rewrite Hc2, Hc.
    + unfold prices_fin. by rewrite Ht2.
  - apply IH; [by rewrite Hc|done].
Qed.

Lemma run_bars_prices fuel bars st e r :
  Forall (λ b, is_fin (bar_last_px b.2)) bars → prices_fin e →
  run_bars strategy algo fuel bars st e = Done r →
  prices_fin r.2.
Proof.
  intros Hbars. revert st e.
  induction Hbars as [|[k bar] bars Hb _ IH]; intros st e Hpr; simpl.
  - by intros [= <-].
  - unfold bar_step.
    destruct (resolve_events strategy algo fuel k 0 st (begin_bar e k bar) [])
      as [[[st1 e1] lg]| |] eqn:Hres; [|done..].
    apply (resolve_events_prices _ _ (bar_last_px bar)) in Hres;
      [|simpl; apply lookup_insert_eq|done|done].
    destruct (run_cmd (on_bar_data strategy st1 k bar) (clear_events e1))
      as [st2 e2] eqn:Hcmd.
    apply IH.
    pose proof (run_cmd_prices (on_bar_data strategy st1 k bar)
                  (clear_events e1)) as [Ht _].
    rewrite Hcmd in Ht. simpl in Ht. unfold prices_fin. by rewrite Ht.
Qed.

(** On bars whose last prices are numbers, every fill of a run is made
    at a price that is a number. *)
Lemma run_prices_fin fuel rows bars st0 r :
  Forall (λ b, is_fin (bar_last_px b.2)) bars →
  run strategy algo fuel rows bars st0 = Done r →
  prices_fin r.2.
Proof.
  intros Hbars. unfold run.
  destruct (run_bars strategy algo fuel bars _ _) as [[st1 e1]| |] eqn:Hb;
    [|done..].
  intros [= <-].
  apply run_bars_prices in Hb; [|done|].
  - destruct (run_cmd_prices (on_stop strategy st1) e1) as [Ht _].
    unfold prices_fin. by rewrite Ht.
  - destruct (run_cmd_prices (on_start strategy st0) (init_engine rows))
      as [Ht _].
    unfold prices_fin. rewrite Ht. by apply Forall_nil.
Qed.
End BarPrices.

(* ===================================================================== *)
(** ** Numbers in, numbers out *)
(* ===================================================================== *)

Lemma pymin_fin a b : is_fin a → is_fin (pymin a b).
Proof.
  intros Ha. unfold pymin. destruct (b <? a)%F eqn:Hlt; [|done].
  by destruct b, a.
Qed.

Lemma submit_order_fin e k dir qty t lmt_px :
  is_fin qty → orders_fin e →
  orders_fin (submit_order e k dir qty t lmt_px).2.
Proof.
  intros Hq He. unfold submit_order, find_position.
  destruct (positions e !! k) as [p|]; [|done].
  destruct (pymin qty (capacity p dir) <=? 0)%F; [done|].
  unfold orders_fin. simpl. apply Forall_app. split; [done|].
  apply Forall_singleton. simpl. by apply pymin_fin.
Qed.

Lemma run_cmd_fin {A : Type} (c : Cmd A) e :
  numeric c → orders_fin e → orders_fin (run_cmd c e).2.
Proof.
  intros Hc. revert e. induction Hc as [a|k dir qty t lmt_px next Hq _ IH
                                        |i next _ IH|next _ IH];
    intros e He; simpl; auto.
  - apply IH. by apply submit_order_fin.
  - apply IH. unfold orders_fin. by rewrite cancel_order_orders.
Qed.

Lemma event_effect_fin algo k e ev r :
  event_effect algo k e ev r → orders_fin e → orders_fin r.1.
Proof.
  intros Heff He.
  destruct (event_effect_orders _ _ _ _ _ Heff)
    as [->|(o & o' & Ho & _ & Heq & _ & _ & _ & _ & Horig & _)]; [done|].
  unfold orders_fin. rewrite Heq. apply Forall_insert; [done|].
  rewrite Horig. by apply (Forall_lookup_1 _ _ _ _ He Ho).
Qed.

Section NumericRun.
Context {S : Type}.
Variable strategy : Strategy S.
Variable algo : MatchAlgorithm.
Hypothesis Hnum : numeric_strategy strategy.

Lemma notify_numeric st n : numeric (notify strategy st n).
Proof. destruct Hnum as (_ & _ & ? & ? & _). destruct n; simpl; auto. Qed.

Lemma resolve_events_fin fuel k i st e log r :
  orders_fin e →
  resolve_events strategy algo fuel k i st e log = Done r →
  orders_fin r.1.2.
Proof.
  revert i st e log. induction fuel as [|fuel IH]; intros i st e log He;
    simpl; [done|].
  destruct (events e !! i) as [ev|]; [|by intros [= <-]].
  destruct (process_event algo k e ev) as [[e1 n]|x] eqn:Hpe; [|done].
  apply process_event_cases, event_effect_fin in Hpe; [|done].
  destruct n as [n|]; apply IH; [|done].
  apply run_cmd_fin; [apply notify_numeric|done].
Qed.

Lemma run_bars_fin fuel bars st e r :
  orders_fin e →
  run_bars strategy algo fuel bars st e = Done r → orders_fin r.2.
Proof.
  revert st e. induction bars as [|[k bar] bars IH]; intros st e He; simpl.
  - by intros [= <-].
  - unfold bar_step.
    destruct (resolve_events strategy algo fuel k 0 st (begin_bar e k bar) [])
      as [[[st1 e1] lg]| |] eqn:Hres; [|done..].
    apply resolve_events_fin in Hres; [|done].
    destruct (run_cmd (on_bar_data strategy st1 k bar) (clear_events e1))
      as [st2 e2] eqn:Hcmd.
    apply IH.
    change e2 with (st2, e2).2. rewrite <- Hcmd.
    apply run_cmd_fin; [|done]. by destruct Hnum as (_ & _ & _ & _ & ?).
Qed.

(** A strategy that submits numbers only fills the order log with
    quantities that are numbers. *)
Lemma run_orders_fin fuel rows bars st0 r :
  run strategy algo fuel rows bars st0 = Done r → orders_fin r.2.
Proof.
  unfold run.
  destruct (run_bars strategy algo fuel bars _ _) as [[st1 e1]| |] eqn:Hb;
    [|done..].
  intros [= <-]. destruct Hnum as (Hs & Hp & _).
  apply run_cmd_fin; [done|].
  apply run_bars_fin in Hb; [done|].
  apply run_cmd_fin; [done|]. apply Forall_nil_2.
Qed.
End NumericRun.

(* ===================================================================== *)
(** ** Closed goals by evaluation *)
(* ===================================================================== *)

(** Decide a closed proposition by evaluating its decision procedure. *)
Ltac by_compute := apply (bool_decide_unpack _); vm_compute; exact I.
Ltac refute_by_compute H :=
  apply (bool_decide_pack _) in H; vm_compute in H; exact H.

(* ===================================================================== *)
(** ** The submission and cancellation gate *)
(* ===================================================================== *)


(* ===================================================================== *)
(** ** Time-in-force under AlwaysFilled *)
(* ===================================================================== *)

Lemma insert_alter_same {A} (f : A → A) (l : list A) i x :
  <[i := x]> (alter f i l) = <[i := x]> l.
Proof.
  apply list_eq. intros j.
  destruct (decide (i = j)) as [->|Hne].
  - destruct (decide (j < length l)).
    + rewrite !list_lookup_insert_eq; [done|done|by rewrite length_alter].
    + rewrite !list_insert_ge; [|lia|rewrite length_alter; lia].
      rewrite list_lookup_alter. rewrite decide_True by done.
      rewrite (lookup_ge_None_2 l j) by lia. done.
  - rewrite !list_lookup_insert_ne by done.
    by rewrite list_lookup_alter_ne.
Qed.

Lemma alter_insert_same {A} (f : A → A) (l : list A) i x :
  alter f i (<[i := x]> l) = <[i := f x]> l.
Proof.
  apply list_eq. intros j.
  destruct (decide (i = j)) as [->|Hne].
  - rewrite list_lookup_alter, decide_True by done.
    destruct (decide (j < length l)).
    + by rewrite !list_lookup_insert_eq.
    + rewrite !list_insert_ge by lia.
      by rewrite (lookup_ge_None_2 l j) by lia.
  - rewrite list_lookup_alter_ne by done.
    by rewrite !list_lookup_insert_ne.
Qed.

Lemma alter_insert_ne {A} (f : A → A) (l : list A) i j x :
  i ≠ j → alter f i (<[j := x]> l) = <[j := x]> (alter f i l).
Proof.
  intros Hne. apply list_eq. intros n.
  destruct (decide (i = n)) as [->|Hn].
  - rewrite list_lookup_alter, decide_True by done.
    rewrite !list_lookup_insert_ne by done.
    by rewrite list_lookup_alter, decide_True.
  - rewrite list_lookup_alter_ne by done.
    destruct (decide (j = n)) as [->|Hj].
    + destruct (decide (n < length l)).
      * rewrite !list_lookup_insert_eq; [done|by rewrite length_alter|done].
      * rewrite !list_insert_ge; [|rewrite length_alter; lia|lia].
        by rewrite list_lookup_alter_ne.
    + rewrite !list_lookup_insert_ne by done.
      by rewrite list_lookup_alter_ne.
Qed.

(** C10: under [AlwaysFilled] the resolution of an event does not read
    the order's time-in-force.  For two engine states that differ only
    in the time-in-force of order [i], resolving the same event gives
    the same outcome: the same notification (the same trade, field by
    field), the same updates of the order, the position and the trade
    log, and final states that again differ only in that time-in-force;
    if one raises, so does the other. *)
Theorem always_filled_ignores_tif i t k e ev :
  process_event AlwaysFilled k (retif i t e) ev
  = map_result (λ r, (retif i t r.1, r.2))
      (process_event AlwaysFilled k e ev).
Proof.
  unfold process_event. cbn [retif orders positions cur_tm].
  rewrite list_lookup_alter.
  destruct (decide (i = ev_order ev)) as [->|Hne].
  - destruct (orders e !! ev_order ev) as [o|]; [|done].
    cbn [fmap option_fmap option_map set_tif pend_qty].
    destruct (pend_qty o <=? 0)%F; [done|].
    cbn [position set_last_time set_tif].
    destruct (positions e !! position o) as [p|]; [|done].
    destruct (event_type ev) as [|[|n]]; [| |done]; cbn [map_result].
    + unfold do_fill, retif, push_trade, put_position, put_order, set_filled.
      cbn. rewrite insert_alter_same, alter_insert_same. done.
    + unfold do_cancel, retif, put_position, put_order, set_cancelled.
      cbn. rewrite insert_alter_same, alter_insert_same. done.
  - destruct (orders e !! ev_order ev) as [o|]; [|done].
    destruct (pend_qty o <=? 0)%F; [done|].
    cbn [position set_last_time].
    destruct (positions e !! position o) as [p|]; [|done].
    destruct (event_type ev) as [|[|n]]; [| |done]; cbn [map_result].
    + unfold do_fill, retif, push_trade, put_position, put_order, set_filled.
      cbn. by rewrite alter_insert_ne.
    + unfold do_cancel, retif, put_position, put_order, set_cancelled.
      cbn. by rewrite alter_insert_ne.
Qed.

(* ===================================================================== *)
(** ** The ledger on a closing sell *)
(* ===================================================================== *)

(** The scenario as the specification words it, with [hold_mv = 120]
    afterwards, does not hold. *)
Lemma sell5_claimed_false :
  ¬ (fill_close_qty sell5 = of_Z 3
     ∧ fill_profit sell5 = of_Z 30
     ∧ hold_qty (fill_pos sell5) = of_Z (-2)
     ∧ hold_mv (fill_pos sell5) = of_Z 120).
Proof. intros (_ & _ & _ & H). refute_by_compute H. Qed.

(** C3: long 3 at average cost 50 ([hold_qty = 3], [hold_mv = 150]), a
    sell fill of 5 at 60: [close_qty = 3], realised profit
    [(60 - 50) * 3 = 30], and the remaining 2 open a short, so that
    afterwards [hold_qty = -2] and [hold_mv = -120]: for a sell the
    remaining [(q - close_qty) * p] is subtracted from [hold_mv]. *)
Theorem sell5_ledger :
  fill_close_qty sell5 = of_Z 3
  ∧ fill_profit sell5 = ((of_Z 60 - of_Z 50) * of_Z 3)%F
  ∧ fill_profit sell5 = of_Z 30
  ∧ hold_qty (fill_pos sell5) = of_Z (-2)
  ∧ hold_mv (fill_pos sell5) = of_Z (-120)
  ∧ hold_mv (fill_pos sell5)
      = (hold_mv long3 * (1 - of_Z 3 / of_Z 3)
         - (of_Z 5 - fill_close_qty sell5) * of_Z 60)%F.
Proof. split_and!; by_compute. Qed.

(* ===================================================================== *)
(** ** The fill price *)
(* ===================================================================== *)

(** Under [AlwaysFilled] the price of a fill is read from the last-price
    table at the instrument of the bar being processed, whatever the
    instrument of the order. *)
Lemma do_fill_price k e i o p q px :
  cur_px e !! k = Some px →
  ∃ t, (do_fill k e i o p q).2 = Some (Executed t) ∧ trade_px t = px.
Proof. intros H. unfold do_fill. rewrite H. eauto. Qed.

(** C1: the run of [cross_strategy] over [cross_bars] under
    [AlwaysFilled].  Order 0 is on [AL] and is resolved on the first
    bar, a [CU] bar at 100, when no price of [AL] has been seen: it is
    filled at 100, not at not-a-number.  Order 1 is on [CU] and is
    resolved on the second bar, an [AL] bar at 200: it is filled at
    200, while the last price of [CU] is still 100. *)
Theorem fill_price_is_of_the_bar :
  ∃ st e,
    run cross_strategy AlwaysFilled 2 two_rows cross_bars 0 = Done (st, e)
    ∧ position <$> orders e = [AL; CU]
    ∧ (λ t, (trade_order t, trade_time t, trade_px t)) <$> trades e
        = [(0, Some 1%Z, of_Z 100); (1, Some 2%Z, of_Z 200)]
    ∧ cur_px (begin_bar (init_engine two_rows) CU (flat_bar 1 (of_Z 100)))
        !! AL = None
    ∧ cur_px e !! CU = Some (of_Z 100).
Proof.
  eexists _, _. split; [vm_compute; reflexivity|].
  split_and!; by_compute.
Qed.

(* ===================================================================== *)
(** ** The quantities of an order *)
(* ===================================================================== *)

(** The two methods of [Order]: an execution moves quantity from
    [pend_qty] to [exec_qty] and keeps their sum; a cancellation
    zeroes [pend_qty] and touches nothing else. *)
Lemma Order_on_executed_balance o tm qty :
  is_fin (pend_qty o) → is_fin (exec_qty o) → is_fin qty →
  (pend_qty (Order_on_executed o tm qty)
   + exec_qty (Order_on_executed o tm qty))%F
  = (pend_qty o + exec_qty o)%F.
Proof.
  simpl. destruct (pend_qty o), (exec_qty o), qty; try done.
  intros _ _ _. simpl. f_equal. ring.
Qed.

Lemma Order_on_cancelled_quantities o tm :
  pend_qty (Order_on_cancelled o tm) = 0%F
  ∧ exec_qty (Order_on_cancelled o tm) = exec_qty o
  ∧ orig_qty (Order_on_cancelled o tm) = orig_qty o.
Proof. done. Qed.

(** An immediate-or-cancel order cancelled under [NoTrade] ends with
    [pend_qty = 0], [exec_qty = 0] and [orig_qty = 1]. *)
Lemma cancelled_breaks_sum :
  ∃ st e o,
    run cross_strategy NoTrade 2 two_rows cross_bars 0 = Done (st, e)
    ∧ orders e !! 0 = Some o
    ∧ (pend_qty o, exec_qty o, orig_qty o) = (0%F, 0%F, 1%F)
    ∧ (pend_qty o + exec_qty o)%F ≠ orig_qty o.
Proof.
  eexists _, _, _. split; [vm_compute; reflexivity|].
  split; [reflexivity|]. split; [by_compute|].
  intros H. refute_by_compute H.
Qed.

Lemma lifecycle_sum o :
  lifecycle o →
  (pend_qty o + exec_qty o)%F = orig_qty o
  ∨ (pend_qty o = 0%F ∧ exec_qty o = 0%F).
Proof.
  intros [[-> ->]|[[-> ->]|[-> ->]]]; [left|left|by right].
  - apply fadd_0_r.
  - apply fadd_0_l.
Qed.

(** C2: in every reachable state every order has
    [pend_qty + exec_qty = orig_qty] or is cancelled with
    [pend_qty = 0] and [exec_qty = 0].  The balance holds at creation
    and after a fill; a cancellation sets [pend_qty] to 0 and leaves
    [exec_qty] at 0, so that afterwards the sum is 0 and differs from
    [orig_qty]. *)
Theorem order_quantity_balance algo rows e :
  reachable algo rows e →
  (∀ i o, orders e !! i = Some o →
     (pend_qty o + exec_qty o)%F = orig_qty o
     ∨ (pend_qty o = 0%F ∧ exec_qty o = 0%F))
  ∧ (∀ k dir qty t lmt_px i e',
       submit_order e k dir qty t lmt_px = (Some i, e') →
       ∃ o, orders e' !! i = Some o
            ∧ (pend_qty o + exec_qty o)%F = orig_qty o)
  ∧ (∀ k ev e' t,
       process_event algo k e ev = Ok (e', Some (Executed t)) →
       ∃ o, orders e' !! ev_order ev = Some o
            ∧ (pend_qty o + exec_qty o)%F = orig_qty o)
  ∧ (∀ k ev e' i,
       process_event algo k e ev = Ok (e', Some (Cancelled i)) →
       ∃ o, orders e' !! i = Some o
            ∧ pend_qty o = 0%F ∧ exec_qty o = 0%F
            ∧ (pend_qty o + exec_qty o)%F ≠ orig_qty o).
Proof.
  intros He. pose proof (wf_reachable _ _ _ He) as [Ho _].
  split_and!.
  - intros i o Hi. apply lifecycle_sum.
    by destruct (Ho _ _ Hi) as (_ & _ & ? & _).
  - intros k dir qty t lmt_px i e'. unfold submit_order, find_position.
    destruct (positions e !! k) as [p|]; [|done].
    destruct (pymin qty (capacity p dir) <=? 0)%F; [done|].
    intros [= <- <-]. eexists. split.
    + simpl. apply lookup_snoc_Some. right. done.
    + simpl. apply fadd_0_r.
  - intros k ev e' t Hpe.
    destruct (event_effect_orders _ _ _ _ _ (process_event_cases _ _ _ _ _ Hpe))
      as [?|(o & o' & Hlk & Hq & Heq & _ & _ & _ & _ & Horig & Hst)]; [done|].
    simpl in Heq, Hst. exists o'. split.
    { rewrite Heq. apply list_lookup_insert_eq. by eapply lookup_lt_Some. }
    destruct (Ho _ _ Hlk) as (_ & _ & Hl & _).
    destruct (lifecycle_awaiting _ Hl Hq) as [Hpe' Hex].
    destruct Hst as [(_ & _ & ?)|[(-> & -> & _)|(_ & _ & ?)]]; [done| |done].
    rewrite Horig, Hpe'. apply fadd_0_l.
  - intros k ev e' i Hpe.
    destruct (event_effect_orders _ _ _ _ _ (process_event_cases _ _ _ _ _ Hpe))
      as [?|(o & o' & Hlk & Hq & Heq & _ & _ & _ & _ & Horig & Hst)]; [done|].
    simpl in Heq, Hst.
    destruct (Ho _ _ Hlk) as (_ & _ & Hl & Hor).
    destruct (lifecycle_awaiting _ Hl Hq) as [Hpe' Hex].
    destruct Hst as [(_ & _ & ?)|[(_ & _ & ? & ? & _)|(Hp0 & He0 & [= ->])]];
      [done|done|].
    exists o'. split.
    { rewrite Heq. apply list_lookup_insert_eq. by eapply lookup_lt_Some. }
    rewrite Hp0, He0, Hex, Horig. split_and!; [done|done|].
    intros H. rewrite fadd_0_l in H. by rewrite <- H in Hor.
Qed.

Lemma order_quantity_balance_witness :
  ∃ st e,
    run cross_strategy AlwaysFilled 2 two_rows cross_bars 0 = Done (st, e)
    ∧ ∀ i o, orders e !! i = Some o →
        (pend_qty o + exec_qty o)%F = orig_qty o
        ∨ (pend_qty o = 0%F ∧ exec_qty o = 0%F).
Proof.
  destruct (run cross_strategy AlwaysFilled 2 two_rows cross_bars 0)
    as [[st e]| |] eqn:Hrun; [|by vm_compute in Hrun..].
  exists st, e. split; [done|].
  apply (order_quantity_balance AlwaysFilled two_rows e).
  apply (run_reachable cross_strategy AlwaysFilled two_rows 2 cross_bars 0
           (st, e) Hrun).
Defined.

(* ===================================================================== *)
(** ** A fill attempt under NoTrade *)
(* ===================================================================== *)

(** The fill attempt of a good-till-cancel order under [NoTrade] is not
    without effect on the order: its [last_time] becomes the close
    time of the bar. *)
Lemma gtc_attempt_touches_order :
  ∃ e',
    process_event NoTrade CU gtc_at_bar (mkEvent 0 0) = Ok (e', None)
    ∧ last_time <$> orders gtc_at_bar = [None]
    ∧ last_time <$> orders e' = [Some 2%Z]
    ∧ orders e' ≠ orders gtc_at_bar.
Proof.
  eexists. split; [vm_compute; reflexivity|].
  split_and!; [by_compute|by_compute|].
  intros H. refute_by_compute H.
Qed.

(** C8: under [NoTrade], in a reachable state, the fill attempt of an
    order that is still pending: if the order is good-till-cancel,
    only its [last_time] changes (to the bar's close time); its other
    fields, its position, the trades and the queue are left as they
    are, [pend_qty = orig_qty] still holds, no notification is sent
    and the order keeps counting in [pending_qty[direction]]; if the
    order is immediate-or-cancel, the outcome is that of a cancel
    event for it. *)
Theorem no_trade_fill_attempt rows e k i o :
  reachable NoTrade rows e →
  orders e !! i = Some o →
  (pend_qty o <=? 0)%F = false →
  (tif o = GTC →
     ∃ e' o',
       process_event NoTrade k e (mkEvent 0 i) = Ok (e', None)
       ∧ orders e' = <[i := o']> (orders e)
       ∧ last_time o' = cur_tm e
       ∧ (order_id o', position o', direction o', tif o', limit_px o',
          orig_qty o', pend_qty o', exec_qty o', insert_time o')
           = (order_id o, position o, direction o, tif o, limit_px o,
              orig_qty o, pend_qty o, exec_qty o, insert_time o)
       ∧ pend_qty o' = orig_qty o'
       ∧ awaiting o' = true
       ∧ positions e' = positions e
       ∧ trades e' = trades e
       ∧ events e' = events e
       ∧ cur_tm e' = cur_tm e
       ∧ cur_px e' = cur_px e)
  ∧ (tif o = IOC →
       process_event NoTrade k e (mkEvent 0 i)
         = process_event NoTrade k e (mkEvent 1 i)
       ∧ ∃ e', process_event NoTrade k e (mkEvent 1 i)
                 = Ok (e', Some (Cancelled i))).
Proof.
  intros He Hi Hq.
  destruct (wf_reachable _ _ _ He) as [Ho _].
  destruct (Ho _ _ Hi) as (_ & [p Hp] & Hl & _).
  destruct (lifecycle_awaiting _ Hl Hq) as [Hpe _].
  split; intros Htif.
  - eexists _, (set_last_time o (cur_tm e)). split.
    { apply event_effect_sound.
      by apply (effect_idle NoTrade k e (mkEvent 0 i) o p). }
    split_and!; try done.
    unfold awaiting. simpl. by rewrite Hq.
  - rewrite (event_effect_sound NoTrade k e (mkEvent 0 i) _
               (effect_cancel NoTrade k e (mkEvent 0 i) o p Hi Hq Hp
                  (or_intror (conj eq_refl (conj eq_refl Htif))))).
    rewrite (event_effect_sound NoTrade k e (mkEvent 1 i) _
               (effect_cancel NoTrade k e (mkEvent 1 i) o p Hi Hq Hp
                  (or_introl eq_refl))).
    split; [done|]. eexists. reflexivity.
Qed.

Lemma no_trade_fill_attempt_witness :
  ∃ e',
    process_event NoTrade CU gtc_at_bar (mkEvent 0 0) = Ok (e', None)
    ∧ positions e' = positions gtc_at_bar
    ∧ pend_qty <$> orders e' = [of_Z 7].
Proof.
  destruct (no_trade_fill_attempt two_rows gtc_at_bar CU 0
              (new_Order 0 CU Buy GTC None (of_Z 7) None)) as [H _].
  - apply reach_bar. apply (reach_submit _ _ (init_engine two_rows)).
    apply reach_init.
  - by_compute.
  - by vm_compute.
  - destruct H as (e' & o' & H1 & H2 & _ & H3 & _ & _ & H4 & _); [done|].
    exists e'. split_and!; [done|done|].
    rewrite H2. injection H3 as _ _ _ _ _ _ H3 _ _.
    change (orders gtc_at_bar) with [new_Order 0 CU Buy GTC None (of_Z 7) None].
    simpl. by rewrite H3.
Defined.

(* ===================================================================== *)
(** ** The ledger: a flat position carries no cost *)
(* ===================================================================== *)

Lemma Qc_neg_ne_0 (x : Qc) : (x < 0)%Qc → (- x)%Qc ≠ 0%Qc.
Proof.
  intros H E. apply (Qclt_not_eq _ _ H).
  rewrite <- (Qcopp_involutive x), E. ring.
Qed.

Lemma Fin_inj (x y : Qc) : Fin x = Fin y → x = y.
Proof.
  intros H.
  by apply (f_equal (λ a, match a with Fin q => q | NaN => x end)) in H.
Qed.

Lemma fdiv_fin (x y : Qc) : y ≠ 0%Qc → (Fin x / Fin y)%F = Fin (x / y)%Qc.
Proof. intros H. unfold fdiv. by rewrite decide_False. Qed.

(** On numbers, with a positive fill quantity, a fill that flattens the
    position closes all of it and leaves no cost. *)
Lemma close_part_fin dir (x m y c : Qc) :
  (0 < y)%Qc →
  ∃ cq pr m1,
    close_part dir (Fin x) (Fin m) (Fin y) (Fin c) = (Fin cq, Fin pr, Fin m1)
    ∧ (match dir with Buy => (x + y)%Qc | Sell => (x - y)%Qc end = 0%Qc →
       m1 = 0%Qc ∧ cq = y).
Proof.
  intros Hy. destruct dir; unfold close_part, pymin; cbn [fltb fneg].
  - case_bool_decide as Hx.
    + assert (x ≠ 0%Qc) as Hx0 by by apply Qclt_not_eq.
      assert ((- x)%Qc ≠ 0%Qc) as Hx1 by by apply Qc_neg_ne_0.
      case_bool_decide as Hlt; rewrite !fdiv_fin by done; cbn [fsub fmul];
        eexists _, _, _; (split; [reflexivity|]); intros E.
      * exfalso. apply (Qclt_not_eq _ _ Hlt).
        replace y with (x + y - x)%Qc by ring. rewrite E. ring.
      * assert (y = (- x)%Qc) as ->.
        { replace y with (x + y - x)%Qc by ring. rewrite E. ring. }
        split; [|done]. field. done.
    + eexists _, _, _. split; [reflexivity|]. intros E. exfalso.
      apply Qcnot_lt_le in Hx.
      apply (Qclt_not_eq 0 (x + y)); [by apply Qcplus_nonneg_pos|done].
  - case_bool_decide as Hx.
    + assert (x ≠ 0%Qc) as Hx0.
      { intros ->. by apply (Qclt_not_eq _ _ Hx). }
      case_bool_decide as Hlt; rewrite !fdiv_fin by done; cbn [fsub fmul];
        eexists _, _, _; (split; [reflexivity|]); intros E.
      * exfalso. apply (Qclt_not_eq _ _ Hlt).
        replace x with (x - y + y)%Qc by ring. rewrite E. ring.
      * assert (y = x) as ->.
        { replace x with (x - y + y)%Qc by ring. rewrite E. ring. }
        split; [|done]. field. done.
    + eexists _, _, _. split; [reflexivity|]. intros E. exfalso.
      apply Qcnot_lt_le in Hx.
      apply (Qclt_not_eq (x - y) 0); [|done].
      apply Qclt_minus_iff. 
      replace (0 + - (x - y))%Qc with (- x + y)%Qc by ring.
      apply Qcplus_nonneg_pos; [|done].
      apply Qcle_minus_iff in Hx. by rewrite Qcplus_0_l in Hx.
Qed.

Lemma init_positions rows k p :
  positions (init_engine rows) !! k = Some p →
  ∃ i m, p = new_Position i m.
Proof.
  unfold init_engine. cbn [positions].
  assert (∀ m0 : gmap InstrumentID Position,
            (∀ k p, m0 !! k = Some p → ∃ i m, p = new_Position i m) →
            foldl (λ m r, <[ins_id r.1 := new_Position r.1 r.2]> m) m0 rows
              !! k = Some p →
            ∃ i m, p = new_Position i m) as Hgen.
  { clear. induction rows as [|r rows IH]; intros m0 Hm0; simpl.
    - apply Hm0.
    - apply IH. intros k' p'. rewrite lookup_insert.
      case_decide; [intros [= <-]; eauto|apply Hm0]. }
  apply Hgen. intros k' p'. by rewrite lookup_empty.
Qed.

Lemma fmul_nan_r a : (a * NaN)%F = NaN.
Proof. by destruct a. Qed.

Lemma fadd_nan_r a : (a + NaN)%F = NaN.
Proof. by destruct a. Qed.

Lemma fsub_nan_r a : (a - NaN)%F = NaN.
Proof. by destruct a. Qed.

(** A fill of a quantity that passed the guard [pend_qty <= 0] leaves
    the position with a cost of 0, or a cost that is not a number,
    whenever it leaves it flat. *)
Lemma apply_fill_flat p dir q px :
  (q <=? 0)%F = false →
  flat_is_free_or_nan (fill_pos (apply_fill p dir q px)).
Proof.
  intros Hq. unfold flat_is_free_or_nan, apply_fill.
  destruct (fleb_zero_false _ Hq) as [->|(y & -> & Hy)].
  { destruct (close_part _ _ _ _ _) as [[cq pr] m1]. cbn.
    by destruct dir, (hold_qty p). }
  destruct (hold_qty p) as [x|] eqn:Hh.
  2:{ destruct (close_part _ _ _ _ _) as [[cq pr] m1]. cbn. by destruct dir. }
  destruct (hold_mv p) as [m|] eqn:Hm.
  2:{ destruct (close_part _ _ _ _ _) as [[cq pr] m1] eqn:Hcp.
      assert (m1 = NaN) as ->.
      { unfold close_part in Hcp.
        destruct dir; destruct (_ <? _)%F; by injection Hcp as _ _ <-. }
      cbn. intros _. right. by destruct dir. }
  destruct px as [c|].
  2:{ destruct (close_part _ _ _ _ _) as [[cq pr] m1].
      cbn -[fadd fsub fmul]. intros _. right.
      destruct dir; by rewrite fmul_nan_r, ?fadd_nan_r, ?fsub_nan_r. }
  destruct (close_part_fin dir x m y c Hy) as (cq & pr & m1 & -> & Hz).
  cbn. destruct dir; cbn; intros E%Fin_inj; destruct (Hz E) as [-> ->];
    left; f_equal; ring.
Qed.

Lemma flat_reachable algo rows e :
  reachable algo rows e →
  ∀ k p, positions e !! k = Some p → flat_is_free_or_nan p.
Proof.
  revert e.
  apply (reachable_cases algo rows
           (λ e, ∀ k p, positions e !! k = Some p → flat_is_free_or_nan p)).
  - intros k p (i & m & ->)%init_positions. by left.
  - intros e k p dir qty t lmt_px _ IH Hp Hq k' p'. simpl.
    rewrite lookup_insert. case_decide as Hk.
    + intros [= <-]. subst k'. apply (IH k p Hp).
    + by apply IH.
  - intros e i o _ IH _. by apply IH.
  - intros e k bar _ IH. by apply IH.
  - intros e k ev r _ IH _ Heff.
    destruct Heff as [o Ho Hq|o p Ho Hq Hp Ht ->|o p Ho Hq Hp Ht|o p Ho Hq Hp Ht -> Htif].
    + done.
    + unfold do_fill. cbn [fst]. intros k' p'.
      cbn [positions push_trade put_position]. rewrite lookup_insert.
      case_decide as Hk.
      * intros [= <-]. by apply apply_fill_flat.
      * by apply IH.
    + unfold do_cancel. cbn [fst]. intros k' p'.
      cbn [positions put_position]. rewrite lookup_insert.
      case_decide as Hk.
      * intros [= <-]. apply (IH _ _ Hp).
      * by apply IH.
    + cbn [fst]. done.
  - intros e _ IH. by apply IH.
Qed.

(** With a last price that is not a number on the bar of the closing
    fill, the run of [round_trip] ends flat with a cost that is not a
    number: [hold_qty == 0] and [hold_mv != 0]. *)
Lemma nan_price_breaks_flat :
  reachable AlwaysFilled two_rows nan_flat
  ∧ (λ p, (hold_qty p, hold_mv p)) <$> positions nan_flat !! CU
    = Some (0%F, NaN)
  ∧ ¬ flat_is_free nan_flat.
Proof.
  split.
  { apply (run_reachable round_trip AlwaysFilled two_rows 2 nan_bars 0
             (2, nan_flat)).
    by_compute. }
  split; [by_compute|].
  intros H.
  set (p := mkPosition (plain_info CU) (of_Z 10) 0%F NaN
              (mkPendingQty 0%F 0%F) NaN NaN).
  assert (positions nan_flat !! CU = Some p) as Hp by by_compute.
  specialize (H CU p Hp eq_refl). discriminate H.
Qed.

(** C6: in every reachable state, every position with [hold_qty = 0]
    has [hold_mv = 0] or a [hold_mv] that is not a number; and a fill
    of a quantity that passed the guard [pend_qty <= 0], applied to
    any position at any price, leaves a position of which this holds. *)
Theorem flat_position_has_no_cost algo rows e :
  reachable algo rows e →
  (∀ k p, positions e !! k = Some p →
     hold_qty p = 0%F → hold_mv p = 0%F ∨ hold_mv p = NaN)
  ∧ (∀ p dir q px,
       (q <=? 0)%F = false →
       hold_qty (fill_pos (apply_fill p dir q px)) = 0%F →
       hold_mv (fill_pos (apply_fill p dir q px)) = 0%F
       ∨ hold_mv (fill_pos (apply_fill p dir q px)) = NaN).
Proof.
  intros He. split.
  - intros k p Hp. by apply (flat_reachable _ _ _ He k p Hp).
  - intros p dir q px Hq. by apply apply_fill_flat.
Qed.

Lemma flat_position_has_no_cost_witness :
  reachable AlwaysFilled two_rows round_trip_filled
  ∧ (λ p, (hold_qty p, hold_mv p, real_profit p))
      <$> positions round_trip_filled !! CU
    = Some (0%F, 0%F, of_Z 30)
  ∧ ∀ k p, positions round_trip_filled !! k = Some p →
           hold_qty p = 0%F → hold_mv p = 0%F ∨ hold_mv p = NaN.
Proof.
  assert (reachable AlwaysFilled two_rows round_trip_filled) as He.
  { apply (run_reachable round_trip AlwaysFilled two_rows 2 three_bars 0
             (2, round_trip_filled)).
    by_compute. }
  split_and!; [done|by_compute|].
  apply (flat_position_has_no_cost AlwaysFilled two_rows _ He).
Defined.


(* ===================================================================== *)
(** ** Pending quantities *)
(* ===================================================================== *)

(** Replacing one summand by zero takes it off the sum. *)
Lemma fsum_insert_zero (l : list float) i a :
  Forall is_fin l → l !! i = Some a →
  fsum (<[i := 0%F]> l) = (fsum l - a)%F.
Proof.
  intros Hl. revert i. induction Hl as [|b l Hb Hl IH]; intros i Hi; [done|].
  pose proof (fsum_fin _ Hl) as Hs.
  destruct i as [|i]; simpl in *.
  - injection Hi as ->. destruct a as [x|]; [|done].
    destruct (fsum l) as [s|]; [|done]. simpl. f_equal. ring.
  - rewrite (IH _ Hi).
    assert (is_fin a) as Ha.
    { eapply Forall_lookup_1 in Hl; eauto. }
    destruct a as [x|], b as [y|], (fsum l) as [s|]; try done.
    simpl. f_equal. ring.
Qed.

Lemma not_awaiting_zero o :
  lifecycle o → (orig_qty o <=? 0)%F = false → awaiting o = false →
  pend_qty o = 0%F.
Proof.
  unfold awaiting. intros [[H _]|[[H _]|[H _]]] Hor Haw; [|done..].
  rewrite H, Hor in Haw. done.
Qed.

Lemma fsum_cons a l : fsum (a :: l) = (a + fsum l)%F.
Proof. reflexivity. Qed.

Lemma fsum_contrib_filter k d (l : list Order) :
  (∀ o, o ∈ l → awaiting o = false → pend_qty o = 0%F) →
  fsum (contrib k d <$> l)
  = fsum (pend_qty <$>
            filter (λ o, position o = k ∧ direction o = d ∧ awaiting o = true) l).
Proof.
  induction l as [|o l IH]; intros Hz; [done|].
  rewrite filter_cons, fmap_cons, fsum_cons.
  rewrite IH by (intros o' Ho'; apply Hz; by right).
  unfold contrib at 1.
  destruct (decide (position o = k ∧ direction o = d)) as [[Hk Hd]|Hn].
  - destruct (awaiting o) eqn:Haw.
    + rewrite decide_True by done. by rewrite fmap_cons, fsum_cons.
    + rewrite decide_False by (intros (_ & _ & ?); done).
      rewrite (Hz o) by (done || by left). apply fadd_0_l.
  - rewrite decide_False by (intros (? & ? & _); by apply Hn).
    apply fadd_0_l.
Qed.

Lemma pend_fin o : lifecycle o → is_fin (orig_qty o) → is_fin (pend_qty o).
Proof. intros [[-> _]|[[-> _]|[-> _]]]; done. Qed.

Lemma contrib_fin k d o :
  lifecycle o → is_fin (orig_qty o) → is_fin (contrib k d o).
Proof.
  intros Hl Hf. unfold contrib. case_decide; [by apply pend_fin|done].
Qed.

Lemma fsub_0_r a : (a - 0)%F = a.
Proof. destruct a as [x|]; simpl; [|done]. f_equal. ring. Qed.

Lemma Forall_insert_back {A} (P : A → Prop) (l : list A) i x y :
  l !! i = Some x → (P y → P x) → Forall P (<[i := y]> l) → Forall P l.
Proof.
  intros Hi Hxy Hl. apply Forall_lookup. intros j z Hj.
  destruct (decide (i = j)) as [<-|Hne].
  - rewrite Hi in Hj. injection Hj as <-. apply Hxy.
    eapply (Forall_lookup_1 _ _ i y Hl).
    apply list_lookup_insert_eq. by eapply lookup_lt_Some.
  - eapply (Forall_lookup_1 _ _ j z Hl). by rewrite list_lookup_insert_ne.
Qed.

Lemma contribs_fin e k d :
  (∀ i o, orders e !! i = Some o → order_ok e i o) → orders_fin e →
  Forall is_fin (contrib k d <$> orders e).
Proof.
  intros Hwf Hfin. apply Forall_fmap, Forall_lookup. intros i o Hi.
  destruct (Hwf _ _ Hi) as (_ & _ & Hl & _).
  apply contrib_fin; [done|]. by eapply (Forall_lookup_1 _ _ _ _ Hfin).
Qed.

(** Resolving order [i]: its pending quantity goes to zero in the log
    and is taken off [pending_qty[direction]] of its position. *)
Lemma pending_sum_resolve e e' i o o' p p' :
  pending_sum e →
  (∀ k d, Forall is_fin (contrib k d <$> orders e)) →
  orders e !! i = Some o →
  positions e !! position o = Some p →
  orders e' = <[i := o']> (orders e) →
  positions e' = <[position o := p']> (positions e) →
  position o' = position o → direction o' = direction o →
  pend_qty o' = 0%F →
  pending_qty p' =
    pending_set (pending_qty p) (direction o)
      (pending_get (pending_qty p) (direction o) - pend_qty o)%F →
  pending_sum e'.
Proof.
  intros IH Hfin Ho Hp Hos Hps Hpos Hdir Hpend Hpq k q d.
  rewrite Hos, Hps, list_fmap_insert.
  assert (contrib k d o' = 0%F) as ->.
  { unfold contrib. rewrite Hpend. by case_decide. }
  rewrite (fsum_insert_zero _ i (contrib k d o)); [|done|].
  2:{ by rewrite list_lookup_fmap, Ho. }
  rewrite lookup_insert. case_decide as Hk.
  - intros [= <-]. subst k. rewrite Hpq, <- (IH _ p d Hp).
    unfold contrib. destruct (decide (direction o = d)) as [<-|Hd].
    + rewrite decide_True by done. by destruct (direction o).
    + rewrite decide_False by (intros [_ ?]; done).
      rewrite fsub_0_r. by destruct (direction o), d.
  - intros Hq. rewrite <- (IH _ q d Hq).
    unfold contrib. rewrite decide_False by (intros [? _]; done).
    by rewrite fsub_0_r.
Qed.

Lemma apply_fill_pending p dir q px :
  pending_qty (fill_pos (apply_fill p dir q px))
  = pending_set (pending_qty p) dir (pending_get (pending_qty p) dir - q)%F.
Proof.
  unfold apply_fill. by destruct (close_part _ _ _ _ _) as [[? ?] ?].
Qed.

Lemma pending_sum_reachable algo rows e :
  reachable algo rows e → orders_fin e → pending_sum e.
Proof.
  intros He. pose proof He as Hwf. revert e He Hwf.
  apply (reachable_cases algo rows
           (λ e, reachable algo rows e → orders_fin e → pending_sum e)).
  - intros _ _ k p d (i & m & ->)%init_positions. by destruct d.
  - intros e k p dir qty t lmt_px He IH Hp Hq _ Hfin k' p' d.
    unfold orders_fin in Hfin. simpl in Hfin.
    apply Forall_app in Hfin as [Hfin _].
    specialize (IH He Hfin).
    cbn [accept_order enqueue put_position push_order positions orders].
    rewrite fmap_app, fsum_app, fmap_cons, fsum_cons. cbn [fmap list_fmap fsum foldr].
    rewrite fadd_0_r.
    rewrite lookup_insert. case_decide as Hk.
    + intros [= <-]. subst k'. rewrite <- (IH k p d Hp).
      unfold contrib. cbn [new_Order position direction pend_qty].
      destruct (decide (dir = d)) as [<-|Hd].
      * rewrite decide_True by done. by destruct dir.
      * rewrite decide_False by (intros [_ ?]; done).
        rewrite fadd_0_r. by destruct dir, d.
    + intros Hp'. rewrite <- (IH k' p' d Hp').
      unfold contrib. cbn [new_Order position direction pend_qty].
      rewrite decide_False by (intros [? _]; done).
      by rewrite fadd_0_r.
  - intros e i o He IH _ _ Hfin. by apply IH.
  - intros e k bar He IH _ Hfin. by apply IH.
  - intros e k ev r He IH _ Heff _.
    destruct (wf_reachable _ _ _ He) as [Hwf _].
    destruct Heff as [o Ho Hq|o p Ho Hq Hp Ht ->|o p Ho Hq Hp Ht|o p Ho Hq Hp Ht -> Htif];
      cbn [fst]; intros Hfin.
    + by apply IH.
    + assert (orders_fin e) as Hfin0.
      { revert Hfin. by apply Forall_insert_back with (x := o). }
      eapply (pending_sum_resolve e _ (ev_order ev) o _ p);
        [by apply IH|intros; by apply contribs_fin|done|done
        |reflexivity|reflexivity|done|done|done|].
      apply apply_fill_pending.
    + assert (orders_fin e) as Hfin0.
      { revert Hfin. by apply Forall_insert_back with (x := o). }
      eapply (pending_sum_resolve e _ (ev_order ev) o _ p);
        [by apply IH|intros; by apply contribs_fin|done|done
        |reflexivity|reflexivity|done|done|done|done].
    + assert (orders_fin e) as Hfin0.
      { revert Hfin. by apply Forall_insert_back with (x := o). }
      intros k' q d. cbn [put_order positions orders].
      rewrite list_fmap_insert.
      change (contrib k' d (set_last_time o (cur_tm e))) with (contrib k' d o).
      rewrite list_insert_id by (by rewrite list_lookup_fmap, Ho).
      by apply IH.
  - intros e He IH _ Hfin. by apply IH.
Qed.

Lemma pending_matches_reachable algo rows e :
  reachable algo rows e → orders_fin e → pending_matches e.
Proof.
  intros He Hfin k p d Hp. unfold pending_orders.
  rewrite <- fsum_contrib_filter.
  - by apply (pending_sum_reachable _ _ _ He Hfin).
  - intros o [i Hi]%list_elem_of_lookup.
    destruct (wf_reachable _ _ _ He) as [Hwf _].
    destruct (Hwf _ _ Hi) as (_ & _ & Hl & Hor).
    by apply not_awaiting_zero.
Qed.

Lemma whole_fin a : whole a → is_fin a.
Proof. by intros [z ->]. Qed.

Lemma orders_exact_fin e : orders_exact e → orders_fin e.
Proof.
  intros [H _]. unfold orders_fin. eapply Forall_impl; [exact H|].
  intros o. apply whole_fin.
Qed.

(** A buy whose quantity is not a number is accepted and, under
    [AlwaysFilled], filled by the next pass; after that pass no order
    is awaiting resolution and [pending_qty[Buy]] is not a number: it
    is not the sum, 0, of the quantities awaiting resolution. *)
Lemma nan_quantity_breaks_pending :
  reachable AlwaysFilled two_rows nan_at_bar
  ∧ resolve_events nan_buyer AlwaysFilled 2 CU 0 1 nan_at_bar []
    = Done (1, nan_pass.1, nan_pass.2)
  ∧ (λ o, (orig_qty o, pend_qty o)) <$> orders nan_pass.1 = [(NaN, 0%F)]
  ∧ pending_orders nan_pass.1 CU Buy = []
  ∧ pending_qty <$> positions nan_pass.1 !! CU = Some (mkPendingQty NaN 0%F)
  ∧ ¬ pending_matches nan_pass.1.
Proof.
  split.
  { apply reach_bar.
    apply (run_reachable nan_buyer AlwaysFilled two_rows 2 (take 1 three_bars) 0
             (1, final_engine
                   (run nan_buyer AlwaysFilled 2 two_rows (take 1 three_bars) 0))).
    by_compute. }
  split_and!; [by_compute|by_compute|by_compute|by_compute|].
  intros H.
  set (p := mkPosition (plain_info CU) (of_Z 10) NaN NaN
              (mkPendingQty NaN 0%F) 0%F NaN).
  assert (positions nan_pass.1 !! CU = Some p) as Hp by by_compute.
  specialize (H CU p Buy Hp). refute_by_compute H.
Qed.

(** C5: after a resolution pass started in a reachable state, with or
    without the final clearing of the queue, if every order quantity
    of the log is a whole number and their total is at most [2^53],
    then for every position and each direction [pending_qty[direction]]
    is the sum of [pend_qty] over the orders of that instrument and
    direction that are still awaiting resolution, whether or not any
    later event will act on them. *)
Theorem pending_qty_after_pass {S : Type} (strategy : Strategy S) algo rows
    fuel k st e st' e' log :
  reachable algo rows e →
  resolve_events strategy algo fuel k 0 st e [] = Done (st', e', log) →
  orders_exact e' →
  pending_matches e' ∧ pending_matches (clear_events e').
Proof.
  intros He Hres Hfin%orders_exact_fin.
  pose proof (resolve_events_reachable _ _ _ _ _ _ _ _ _ _ He Hres) as He'.
  split.
  - by apply (pending_matches_reachable algo rows).
  - apply (pending_matches_reachable algo rows); [|done].
    by apply reach_clear.
Qed.

Lemma pending_qty_after_pass_witness :
  reachable NoTrade two_rows gtc_at_bar
  ∧ resolve_events round_trip NoTrade 2 CU 0 0 gtc_at_bar []
      = Done (0, gtc_after_pass, [])
  ∧ orders_exact gtc_after_pass
  ∧ pending_matches gtc_after_pass
  ∧ pending_qty <$> positions gtc_after_pass !! CU
      = Some (mkPendingQty (of_Z 7) 0%F)
  ∧ pend_qty <$> pending_orders gtc_after_pass CU Buy = [of_Z 7].
Proof.
  assert (reachable NoTrade two_rows gtc_at_bar) as He.
  { apply reach_bar. apply (reach_submit _ _ (init_engine two_rows)).
    apply reach_init. }
  assert (resolve_events round_trip NoTrade 2 CU 0 0 gtc_at_bar []
            = Done (0, gtc_after_pass, [])) as Hres by by_compute.
  assert (orders_exact gtc_after_pass) as Hfin.
  { split; [|by_compute].
    apply Forall_lookup. intros i o Ho.
    assert (orig_qty <$> orders gtc_after_pass = [of_Z 7]) as Hq by by_compute.
    apply (f_equal (λ l, l !! i)) in Hq. rewrite list_lookup_fmap, Ho in Hq.
    destruct i; [|done]. injection Hq as ->. by exists 7%Z. }
  split_and!; [done|done|done| |by_compute|by_compute].
  apply (pending_qty_after_pass round_trip NoTrade two_rows 2 CU 0
           gtc_at_bar 0 gtc_after_pass [] He Hres Hfin).
Defined.

(* ===================================================================== *)
(** ** Resolved orders within a pass *)
(* ===================================================================== *)

(** Under [NoTrade], with the fill attempt and the cancel request of a
    good-till-cancel order queued in the same pass, the fill attempt
    resolves nothing and it is the later-queued cancel request that
    takes effect. *)
Lemma later_cancel_takes_effect :
  events both_queued = [mkEvent 0 0; mkEvent 1 0]
  ∧ ∃ e1 e2,
      process_event NoTrade CU both_queued (mkEvent 0 0) = Ok (e1, None)
      ∧ process_event NoTrade CU e1 (mkEvent 1 0)
          = Ok (e2, Some (Cancelled 0))
      ∧ e2 ≠ e1
      ∧ ∃ st,
          resolve_events round_trip NoTrade 3 CU 0 0 both_queued []
            = Done (st, e2, [Cancelled 0]).
Proof.
  split; [by_compute|].
  eexists _, _. split; [vm_compute; reflexivity|].
  split; [vm_compute; reflexivity|].
  split; [intros H; refute_by_compute H|].
  exists 0. by_compute.
Qed.

Lemma resolved_zero e i o :
  orders e !! i = Some o → pend_qty o = 0%F → resolved e i.
Proof. intros Ho Hq. exists o. by rewrite Hq. Qed.

Lemma process_event_resolved algo k e ev :
  resolved e (ev_order ev) → process_event algo k e ev = Ok (e, None).
Proof.
  intros (o & Ho & Hq). unfold process_event. by rewrite Ho, Hq.
Qed.

Lemma event_effect_keeps_resolved algo k e ev r j :
  event_effect algo k e ev r → resolved e j →
  resolved r.1 j ∧ orders r.1 !! j = orders e !! j.
Proof.
  intros Heff (o & Ho & Hq).
  destruct (event_effect_orders _ _ _ _ _ Heff)
    as [->|(o0 & o' & Ho0 & Hq0 & Heq & _)].
  - split; [by exists o|done].
  - assert (ev_order ev ≠ j) as Hne by congruence.
    unfold resolved. rewrite Heq, list_lookup_insert_ne by done.
    split; [by exists o|done].
Qed.

Lemma event_effect_notified algo k e ev r n :
  event_effect algo k e ev r → r.2 = Some n →
  note_order n = ev_order ev
  ∧ ¬ resolved e (ev_order ev)
  ∧ resolved r.1 (ev_order ev).
Proof.
  intros Heff Hn.
  destruct (event_effect_orders _ _ _ _ _ Heff)
    as [->|(o & o' & Ho & Hq & Heq & _ & _ & _ & _ & _ & Hst)]; [done|].
  assert (pend_qty o' = 0%F ∧ note_order n = ev_order ev) as [Hp0 Hno].
  { destruct Hst as [(_ & _ & H)|[(? & _ & t & H & Ht)|(? & _ & H)]];
      rewrite Hn in H; [done|injection H as ->|injection H as ->]; done. }
  split_and!; [done| |].
  - intros (o1 & Ho1 & Hq1). congruence.
  - exists o'. rewrite Heq, Hp0. split; [|done].
    apply list_lookup_insert_eq. by eapply lookup_lt_Some.
Qed.

Lemma run_cmd_keeps_resolved {A : Type} (c : Cmd A) e j :
  resolved e j →
  resolved (run_cmd c e).2 j ∧ orders (run_cmd c e).2 !! j = orders e !! j.
Proof.
  intros (o & Ho & Hq). destruct (run_cmd_orders c e) as [new Hnew].
  assert (orders (run_cmd c e).2 !! j = Some o) as H.
  { rewrite Hnew. apply lookup_app_l_Some. done. }
  split; [by exists o|by rewrite H].
Qed.

Section Pass.
Context {S : Type}.
Variable strategy : Strategy S.
Variable algo : MatchAlgorithm.

Lemma resolve_events_frame fuel k i st e log r j :
  resolved e j →
  resolve_events strategy algo fuel k i st e log = Done r →
  resolved r.1.2 j
  ∧ orders r.1.2 !! j = orders e !! j
  ∧ ∃ new, r.2 = log ++ new ∧ j ∉ note_order <$> new.
Proof.
  revert i st e log. induction fuel as [|fuel IH]; intros i st e log Hj;
    simpl; [done|].
  destruct (events e !! i) as [ev|] eqn:Hev.
  2:{ intros [= <-]. split_and!; [done|done|].
      exists []. rewrite app_nil_r. split; [done|]. simpl. apply not_elem_of_nil. }
  destruct (process_event algo k e ev) as [[e1 [n|]]|x] eqn:Hpe; [| |done].
  - apply process_event_cases in Hpe.
    destruct (event_effect_keeps_resolved _ _ _ _ _ j Hpe Hj) as [Hj1 Ho1].
    destruct (event_effect_notified _ _ _ _ _ n Hpe eq_refl)
      as (Hno & Hnr & _).
    destruct (run_cmd_keeps_resolved (notify strategy st n) e1 j Hj1)
      as [Hj2 Ho2].
    intros Hres. destruct (IH _ _ _ _ Hj2 Hres) as (Hr & Ho & new & Hlog & Hnew).
    split_and!; [done|by rewrite Ho, Ho2|].
    exists (n :: new). split; [by rewrite Hlog, <- app_assoc|].
    rewrite fmap_cons, not_elem_of_cons. split; [|done].
    rewrite Hno. intros ->. done.
  - apply process_event_cases in Hpe.
    destruct (event_effect_keeps_resolved _ _ _ _ _ j Hpe Hj) as [Hj1 Ho1].
    intros Hres. destruct (IH _ _ _ _ Hj1 Hres) as (Hr & Ho & new & Hlog & Hnew).
    split_and!; [done|by rewrite Ho|by exists new].
Qed.

Lemma resolve_events_log fuel k i st e log r :
  NoDup (note_order <$> log) →
  (∀ j, j ∈ note_order <$> log → resolved e j) →
  resolve_events strategy algo fuel k i st e log = Done r →
  NoDup (note_order <$> r.2)
  ∧ (∀ j, j ∈ note_order <$> r.2 → resolved r.1.2 j).
Proof.
  revert i st e log. induction fuel as [|fuel IH]; intros i st e log Hnd Hres;
    simpl; [done|].
  destruct (events e !! i) as [ev|] eqn:Hev; [|by intros [= <-]].
  destruct (process_event algo k e ev) as [[e1 [n|]]|x] eqn:Hpe; [| |done].
  - apply process_event_cases in Hpe.
    destruct (event_effect_notified _ _ _ _ _ n Hpe eq_refl)
      as (Hno & Hnr & Hr1).
    apply IH.
    + rewrite fmap_app. apply NoDup_app. split_and!; [done| |].
      * intros j Hj [->|[]%elem_of_nil]%elem_of_cons.
        rewrite Hno in Hj. by apply Hnr, Hres.
      * apply NoDup_singleton.
    + intros j. rewrite fmap_app, elem_of_app.
      intros [Hj|[->|[]%elem_of_nil]%elem_of_cons];
        apply run_cmd_keeps_resolved.
      * by apply (event_effect_keeps_resolved _ _ _ _ _ j Hpe), Hres.
      * by rewrite Hno.
  - apply process_event_cases in Hpe. apply IH; [done|].
    intros j Hj.
    by apply (event_effect_keeps_resolved _ _ _ _ _ j Hpe), Hres.
Qed.
End Pass.

Lemma event_effect_trades algo k e ev r :
  event_effect algo k e ev r →
  trades r.1 = trades e
  ∨ ∃ t, trades r.1 = trades e ++ [t] ∧ r.2 = Some (Executed t).
Proof. destruct 1; simpl; eauto. Qed.

(** Every trade belongs to a resolved order, and no order has two. *)
Lemma trades_once algo rows e :
  reachable algo rows e →
  NoDup (trade_order <$> trades e)
  ∧ (∀ t, t ∈ trades e → resolved e (trade_order t)).
Proof.
  revert e.
  apply (reachable_cases algo rows
           (λ e, NoDup (trade_order <$> trades e)
                 ∧ (∀ t, t ∈ trades e → resolved e (trade_order t)))).
  - split; [apply NoDup_nil_2|]. intros t; simpl. by rewrite elem_of_nil.
  - intros e k p dir qty t lmt_px _ [Hnd Hres] _ _. split; [done|].
    intros t' Ht'. destruct (Hres t' Ht') as (o & Ho & Hq).
    exists o. split; [|done]. simpl. by apply lookup_app_l_Some.
  - intros e i o _ IH _. done.
  - intros e k bar _ IH. done.
  - intros e k ev r _ [Hnd Hres] _ Heff.
    destruct (event_effect_trades _ _ _ _ _ Heff) as [->|(t & -> & Hn)].
    + split; [done|]. intros t Ht.
      by apply (event_effect_keeps_resolved _ _ _ _ _ _ Heff), Hres.
    + destruct (event_effect_notified _ _ _ _ _ _ Heff Hn) as (Hno & Hnr & Hr).
      simpl in Hno. split.
      * rewrite fmap_app. apply NoDup_app. split_and!; [done| |apply NoDup_singleton].
        intros j Hj [->|[]%elem_of_nil]%elem_of_cons.
        apply list_elem_of_fmap in Hj as (t' & Hj & Ht').
        apply Hnr. rewrite <- Hno, Hj. by apply Hres.
      * intros t'. rewrite elem_of_app.
        intros [Ht'|[->|[]%elem_of_nil]%elem_of_cons].
        -- by apply (event_effect_keeps_resolved _ _ _ _ _ _ Heff), Hres.
        -- by rewrite Hno.
  - intros e _ IH. done.
Qed.

(** C9: an event whose order is resolved ([pend_qty <= 0], as after
    [pend_qty] was set to 0) is skipped with no effect.  Once an order
    is resolved, it stays resolved and unchanged to the end of the
    pass and is not notified again.  The notifications of a pass name
    pairwise different orders, each of them resolved at the end of
    the pass: no order is both filled and cancelled in one pass.  In a
    reachable state no order has two trades.  Under [AlwaysFilled] a
    fill attempt leaves its order resolved, so that a cancel request
    queued after it has no effect. *)
Theorem resolved_orders_are_skipped :
  (∀ algo k e ev, resolved e (ev_order ev) →
     process_event algo k e ev = Ok (e, None))
  ∧ (∀ e i o, orders e !! i = Some o → pend_qty o = 0%F → resolved e i)
  ∧ (∀ (S : Type) (strategy : Strategy S) algo fuel k i st e log r j,
       resolved e j →
       resolve_events strategy algo fuel k i st e log = Done r →
       resolved r.1.2 j
       ∧ orders r.1.2 !! j = orders e !! j
       ∧ ∃ new, r.2 = log ++ new ∧ j ∉ note_order <$> new)
  ∧ (∀ (S : Type) (strategy : Strategy S) algo fuel k st e r,
       resolve_events strategy algo fuel k 0 st e [] = Done r →
       NoDup (note_order <$> r.2)
       ∧ (∀ j, j ∈ note_order <$> r.2 → resolved r.1.2 j))
  ∧ (∀ algo rows e, reachable algo rows e →
       NoDup (trade_order <$> trades e))
  ∧ (∀ k e i r algo' k',
       process_event AlwaysFilled k e (mkEvent 0 i) = Ok r →
       resolved r.1 i
       ∧ process_event algo' k' r.1 (mkEvent 1 i) = Ok (r.1, None)).
Proof.
  split_and!.
  - apply process_event_resolved.
  - apply resolved_zero.
  - intros S strategy algo fuel k i st e log r j.
    apply resolve_events_frame.
  - intros S strategy algo fuel k st e r.
    apply resolve_events_log; [apply NoDup_nil_2|].
    intros j. simpl. by rewrite elem_of_nil.
  - intros algo rows e He. by apply (trades_once algo rows e He).
  - intros k e i r algo' k' Hpe.
    assert (resolved r.1 i) as Hr.
    { apply process_event_cases in Hpe.
      destruct Hpe as [o Ho Hq|o p Ho Hq Hp Ht _|o p Ho Hq Hp Ht|o p Ho Hq Hp Ht Ha Htif].
      - by exists o.
      - exists (set_filled (set_last_time o (cur_tm e)) (pend_qty o)).
        split; [|done]. simpl.
        apply list_lookup_insert_eq. by eapply lookup_lt_Some.
      - simpl in Ht. destruct Ht as [?|(_ & ? & _)]; done.
      - done. }
    split; [done|]. by apply process_event_resolved.
Qed.

Lemma resolved_orders_are_skipped_witness :
  ∃ r,
    process_event AlwaysFilled CU both_queued (mkEvent 0 0) = Ok r
    ∧ resolved r.1 0
    ∧ process_event NoTrade CU r.1 (mkEvent 1 0) = Ok (r.1, None).
Proof.
  destruct resolved_orders_are_skipped as (_ & _ & _ & _ & _ & H).
  destruct (process_event AlwaysFilled CU both_queued (mkEvent 0 0))
    as [r|x] eqn:Hpe; [|by vm_compute in Hpe].
  exists r. split; [done|]. by apply (H CU both_queued 0 r NoTrade CU).
Defined.

(* ===================================================================== *)
(** ** The event queue and the pass that reaches an event *)
(* ===================================================================== *)

Lemma submit_order_events e k dir qty t lmt_px :
  ∃ new, events (submit_order e k dir qty t lmt_px).2 = events e ++ new.
Proof.
  unfold submit_order, find_position.
  destruct (positions e !! k) as [p|]; [|exists []; by rewrite app_nil_r].
  destruct (pymin qty (capacity p dir) <=? 0)%F;
    [exists []; by rewrite app_nil_r|].
  eexists. reflexivity.
Qed.

Lemma cancel_order_events e i :
  ∃ new, events (cancel_order e i).2 = events e ++ new.
Proof.
  unfold cancel_order. destruct (orders e !! i) as [o|];
    [|exists []; by rewrite app_nil_r].
  destruct ((pend_qty o =? 0)%F || bool_decide (tif o = IOC));
    [exists []; by rewrite app_nil_r|].
  eexists. reflexivity.
Qed.

(** A callback only appends to the event queue. *)
Lemma run_cmd_events {A : Type} (c : Cmd A) e :
  ∃ new, events (run_cmd c e).2 = events e ++ new.
Proof.
  revert e. induction c as [a|k dir qty t lmt_px next IH|i next IH|next IH];
    intros e; simpl.
  - exists []. by rewrite app_nil_r.
  - destruct (submit_order_events e k dir qty t lmt_px) as [n1 H1].
    destruct (IH (submit_order e k dir qty t lmt_px).1
                 (submit_order e k dir qty t lmt_px).2) as [n2 H2].
    exists (n1 ++ n2). by rewrite H2, H1, app_assoc.
  - destruct (cancel_order_events e i) as [n1 H1].
    destruct (IH (cancel_order e i).1 (cancel_order e i).2) as [n2 H2].
    exists (n1 ++ n2). by rewrite H2, H1, app_assoc.
  - apply IH.
Qed.

Lemma submit_order_cur e k dir qty t lmt_px :
  cur_tm (submit_order e k dir qty t lmt_px).2 = cur_tm e.
Proof.
  unfold submit_order, find_position.
  destruct (positions e !! k) as [p|]; [|done].
  by destruct (pymin qty (capacity p dir) <=? 0)%F.
Qed.

Lemma cancel_order_cur e i : cur_tm (cancel_order e i).2 = cur_tm e.
Proof.
  unfold cancel_order. destruct (orders e !! i) as [o|]; [|done].
  by destruct ((pend_qty o =? 0)%F || bool_decide (tif o = IOC)).
Qed.

Lemma run_cmd_cur_tm {A : Type} (c : Cmd A) e :
  cur_tm (run_cmd c e).2 = cur_tm e.
Proof.
  apply (run_cmd_inv (λ e', cur_tm e' = cur_tm e)); [| |done].
  - intros e' k dir qty t lmt_px <-. apply submit_order_cur.
  - intros e' i <-. apply cancel_order_cur.
Qed.





Section Reach.
Context {S : Type}.
Variable strategy : Strategy S.
Variable algo : MatchAlgorithm.


End Reach.










(* ===================================================================== *)
(** * Further properties of the code *)
(* ===================================================================== *)

(* ===================================================================== *)
(** ** Instrument identifiers and their strings *)
(* ===================================================================== *)

Lemma split_dot_length s : length (split_dot s) = Datatypes.S (count_dots s).
Proof.
  induction s as [|c s IH]; [done|]. simpl.
  destruct (Ascii.eqb c dot); simpl; [by rewrite IH|].
  destruct (split_dot s); [done|]. simpl in *. done.
Qed.

Lemma split_dot_dot_free s : dot_free s → split_dot s = [s].
Proof.
  unfold dot_free. induction s as [|c s IH]; [done|]. simpl.
  destruct (Ascii.eqb c dot); [done|]. simpl. intros H. by rewrite IH.
Qed.

Lemma split_dot_pieces s : Forall dot_free (split_dot s).
Proof.
  induction s as [|c s IH]; simpl.
  - by constructor.
  - destruct (Ascii.eqb c dot) eqn:Hc.
    + by constructor.
    + destruct (split_dot s) as [|p ps]; [repeat constructor; unfold dot_free; simpl; by rewrite Hc|].
      apply Forall_cons in IH as [Hp Hps]. constructor; [|done].
      unfold dot_free in *. simpl. by rewrite Hc.
Qed.

Lemma split_dot_app a b :
  dot_free a → split_dot (a ++ String dot b)%string = a :: split_dot b.
Proof.
  unfold dot_free. induction a as [|c a IH]; [done|].
  change (String c a +:+ String dot b) with (String c (a +:+ String dot b)).
  simpl. destruct (Ascii.eqb c dot); [done|]. simpl. intros H. by rewrite IH.
Qed.

Lemma split_dot_two s ex sym :
  split_dot s = [ex; sym] → s = (ex ++ String dot sym)%string.
Proof.
  revert ex. induction s as [|c s IH]; intros ex; [done|]. simpl.
  destruct (Ascii.eqb c dot) eqn:Hc.
  - intros [= <- Hs]. apply Ascii.eqb_eq in Hc as ->.
    pose proof (split_dot_length s) as Hl. rewrite Hs in Hl. simpl in Hl.
    assert (dot_free s) as Hf by (unfold dot_free; lia).
    rewrite (split_dot_dot_free s Hf) in Hs. by injection Hs as ->.
  - destruct (split_dot s) as [|p ps] eqn:Hs; [done|].
    intros [= <- ->]. by rewrite (IH p eq_refl) at 1.
Qed.

Lemma InstrumentID_init_str s i :
  InstrumentID_init s = Some i →
  InstrumentID_str i = s ∧ dot_free (exchange i) ∧ dot_free (symbol i).
Proof.
  unfold InstrumentID_init, InstrumentID_str.
  pose proof (split_dot_pieces s) as Hp.
  destruct (split_dot s) as [|ex [|sym [|]]] eqn:Hs; try done.
  intros [= <-]. simpl.
  apply Forall_cons in Hp as [Hex Hp]. apply Forall_cons in Hp as [Hsym _].
  split; [|done]. symmetry. by apply split_dot_two.
Qed.

(** X1: a string that [InstrumentID(s)] accepts is what [str] prints for
    the identifier made from it, parsing the printed string gives the
    same identifier, and neither field contains a dot. *)
Theorem InstrumentID_parse_print s i :
  InstrumentID_init s = Some i →
  InstrumentID_str i = s
  ∧ InstrumentID_init (InstrumentID_str i) = Some i
  ∧ dot_free (exchange i) ∧ dot_free (symbol i).
Proof.
  intros H. destruct (InstrumentID_init_str s i H) as (E & Hex & Hsym).
  split_and!; try done. by rewrite E.
Qed.

Lemma InstrumentID_parse_print_witness :
  InstrumentID_init "SHFE.CU2105" = Some CU
  ∧ InstrumentID_str CU = "SHFE.CU2105"%string.
Proof.
  assert (InstrumentID_init "SHFE.CU2105" = Some CU) as H by reflexivity.
  split; [exact H|]. apply (InstrumentID_parse_print _ _ H).
Defined.

(** X2: printing an identifier and parsing the string gives the
    identifier back exactly when neither its exchange nor its symbol
    contains a dot. *)
Theorem InstrumentID_str_init i :
  InstrumentID_init (InstrumentID_str i) = Some i
  ↔ dot_free (exchange i) ∧ dot_free (symbol i).
Proof.
  split.
  - intros H. apply InstrumentID_init_str in H. tauto.
  - intros [Hex Hsym]. unfold InstrumentID_init, InstrumentID_str.
    rewrite split_dot_app, split_dot_dot_free by done. by destruct i.
Qed.

(** X3: [InstrumentID(s)] raises [ValueError] exactly when [s] does not
    contain exactly one dot. *)
Theorem InstrumentID_init_error s :
  InstrumentID_init s = None ↔ count_dots s ≠ 1.
Proof.
  unfold InstrumentID_init. pose proof (split_dot_length s) as Hl.
  destruct (split_dot s) as [|ex [|sym [|]]]; simpl in Hl; split; try done; lia.
Qed.

(** X4: on identifiers made by [InstrumentID(s)], equality of the
    identifiers, equality of the strings they were made from and
    equality of their printed strings, which [__hash__] hashes, all
    agree. *)
Theorem InstrumentID_str_inj s1 s2 i1 i2 :
  InstrumentID_init s1 = Some i1 → InstrumentID_init s2 = Some i2 →
  (i1 = i2 ↔ s1 = s2) ∧ (InstrumentID_str i1 = InstrumentID_str i2 ↔ i1 = i2).
Proof.
  intros H1 H2.
  destruct (InstrumentID_init_str _ _ H1) as (E1 & _).
  destruct (InstrumentID_init_str _ _ H2) as (E2 & _).
  split; split.
  - intros ->. by rewrite <- E1, <- E2.
  - intros ->. congruence.
  - rewrite E1, E2. intros ->. congruence.
  - by intros ->.
Qed.

Lemma InstrumentID_str_inj_witness :
  InstrumentID_init "SHFE.CU2105" = Some CU
  ∧ InstrumentID_init "SHFE.AL2105" = Some AL
  ∧ InstrumentID_str CU ≠ InstrumentID_str AL.
Proof.
  assert (InstrumentID_init "SHFE.CU2105" = Some CU) as H1 by reflexivity.
  assert (InstrumentID_init "SHFE.AL2105" = Some AL) as H2 by reflexivity.
  split; [exact H1|]. split; [exact H2|].
  destruct (InstrumentID_str_inj _ _ _ _ H1 H2) as [_ [Hs _]].
  intros E. apply Hs in E. discriminate E.
Defined.

(* ===================================================================== *)
(** ** The position table *)
(* ===================================================================== *)

Lemma init_engine_snoc rows r :
  positions (init_engine (rows ++ [r]))
  = <[ins_id r.1 := new_Position r.1 r.2]> (positions (init_engine rows)).
Proof. unfold init_engine. simpl. by rewrite foldl_app. Qed.

Lemma init_engine_lookup rows k :
  find_position (init_engine rows) k
  = (λ r, new_Position r.1 r.2) <$> last (filter (λ r, ins_id r.1 = k) rows).
Proof.
  unfold find_position.
  induction rows as [|r rows IH] using rev_ind; [done|].
  rewrite init_engine_snoc, filter_app, lookup_insert.
  rewrite filter_cons, filter_nil. case_decide as Hk.
  - by rewrite last_snoc.
  - by rewrite app_nil_r.
Qed.

Lemma positions_static_reachable algo rows e :
  reachable algo rows e →
  position_static <$> positions e
  = position_static <$> positions (init_engine rows).
Proof.
  revert e.
  set (P0 := position_static <$> positions (init_engine rows)).
  apply (reachable_cases algo rows (λ e, position_static <$> positions e = P0)).
  - done.
  - intros e k p dir qty t lmt_px _ IH Hp _. simpl.
    rewrite fmap_insert, <- IH. apply insert_id.
    by rewrite lookup_fmap, Hp.
  - done.
  - done.
  - intros e k ev r _ IH _ Heff.
    destruct Heff as [o Ho Hq|o p Ho Hq Hp Ht ->|o p Ho Hq Hp Ht|o p Ho Hq Hp Ht -> Htif];
      simpl; [done| | |done].
    + rewrite fmap_insert, <- IH. apply insert_id.
      rewrite lookup_fmap, Hp. simpl. f_equal. unfold apply_fill.
      by destruct (close_part _ _ _ _ _) as [[? ?] ?].
    + rewrite fmap_insert, <- IH. apply insert_id.
      by rewrite lookup_fmap, Hp.
  - done.
Qed.

Lemma round_trip_filled_reachable :
  reachable AlwaysFilled two_rows round_trip_filled.
Proof.
  apply (run_reachable round_trip AlwaysFilled two_rows 2 three_bars 0
           (2, round_trip_filled)).
  by_compute.
Qed.

Lemma long3_selling_reachable :
  reachable AlwaysFilled two_rows long3_selling.
Proof.
  apply (run_reachable round_trip AlwaysFilled two_rows 2 (take 2 three_bars) 0
           (2, long3_selling)).
  by_compute.
Qed.

(** X5: after loading, the position of an instrument is a fresh
    position made from the last row of the instrument file with that
    identifier (a later row replaces an earlier one), there is none
    when no row has it, and a position is filed under the identifier
    of its own instrument. *)
Theorem position_table_last_row_wins rows k :
  find_position (init_engine rows) k
  = (λ r, new_Position r.1 r.2) <$> last (filter (λ r, ins_id r.1 = k) rows)
  ∧ ∀ p, find_position (init_engine rows) k = Some p →
         ins_id (instrument p) = k.
Proof.
  split; [apply init_engine_lookup|].
  intros p. rewrite init_engine_lookup.
  destruct (last _) as [r|] eqn:Hl; [|done]. intros [= <-].
  apply last_Some in Hl as [l' Hl].
  assert (r ∈ filter (λ r, ins_id r.1 = k) rows) as Hin.
  { rewrite Hl. apply elem_of_app. right. by apply list_elem_of_singleton. }
  by apply list_elem_of_filter in Hin as [Hin _].
Qed.

(** X6: in every reachable state the tracked instruments, their
    instrument descriptions and their [max_hold_qty] are those of the
    loaded table: no command and no event adds, removes or re-describes
    a position. *)
Theorem positions_stay_as_loaded algo rows e k :
  reachable algo rows e →
  position_static <$> find_position e k
  = position_static <$> find_position (init_engine rows) k.
Proof.
  intros He. unfold find_position.
  by rewrite <- !lookup_fmap, (positions_static_reachable _ _ _ He).
Qed.

Lemma positions_stay_as_loaded_witness :
  reachable AlwaysFilled two_rows round_trip_filled
  ∧ position_static <$> find_position round_trip_filled CU
    = Some (plain_info CU, of_Z 10).
Proof.
  pose proof round_trip_filled_reachable as He.
  split; [exact He|].
  rewrite (positions_stay_as_loaded _ _ _ CU He). by_compute.
Defined.

Lemma position_key_reachable algo rows e k p :
  reachable algo rows e → positions e !! k = Some p →
  ins_id (instrument p) = k.
Proof.
  intros He Hp.
  pose proof (positions_static_reachable _ _ _ He) as Hst.
  apply (f_equal (λ m, m !! k)) in Hst. rewrite !lookup_fmap, Hp in Hst.
  change (positions (init_engine rows) !! k)
    with (find_position (init_engine rows) k) in Hst.
  rewrite init_engine_lookup in Hst.
  destruct (last _) as [r|] eqn:Hl; [|done]. simpl in Hst.
  injection Hst as -> _.
  apply last_Some in Hl as [l' Hl].
  assert (r ∈ filter (λ r, ins_id r.1 = k) rows) as Hin.
  { rewrite Hl. apply elem_of_app. right. by apply list_elem_of_singleton. }
  by apply list_elem_of_filter in Hin as [Hin _].
Qed.

(** X7: in every reachable state [get_positions] lists exactly the
    positions that [find_position] can return, and lists at most one
    position for each instrument identifier. *)
Theorem get_positions_one_per_instrument algo rows e :
  reachable algo rows e →
  (∀ p, p ∈ get_positions e ↔ ∃ k, find_position e k = Some p)
  ∧ NoDup ((λ p, ins_id (instrument p)) <$> get_positions e).
Proof.
  intros He. unfold get_positions, find_position. split.
  - intros p. rewrite list_elem_of_fmap. split.
    + intros ([k p'] & -> & H%elem_of_map_to_list). eauto.
    + intros [k H]. exists (k, p). split; [done|]. by apply elem_of_map_to_list.
  - rewrite <- list_fmap_compose.
    rewrite (list_fmap_ext _ fst (map_to_list (positions e))).
    + apply NoDup_fst_map_to_list.
    + intros i [k p] Hi. simpl.
      apply (position_key_reachable algo rows e); [done|].
      apply elem_of_map_to_list, list_elem_of_lookup. eauto.
Qed.

Lemma get_positions_one_per_instrument_witness :
  reachable AlwaysFilled two_rows round_trip_filled
  ∧ NoDup ((λ p, ins_id (instrument p)) <$> get_positions round_trip_filled)
  ∧ length (get_positions round_trip_filled) = 2.
Proof.
  pose proof round_trip_filled_reachable as He.
  destruct (get_positions_one_per_instrument AlwaysFilled two_rows
              round_trip_filled He) as [_ Hnd].
  split_and!; [exact He|exact Hnd|by_compute].
Defined.

(* ===================================================================== *)
(** ** The position cap *)
(* ===================================================================== *)

Lemma Qc_nonneg_sub (a b : Qc) : (b ≤ a)%Qc ↔ (0 ≤ a - b)%Qc.
Proof. rewrite Qcle_minus_iff. by replace (a + - b)%Qc with (a - b)%Qc by ring. Qed.

(** The quantity of an accepted order is positive and at most the
    requested quantity and the capacity. *)
Lemma pymin_fin_le (a : float) (c y : Qc) :
  pymin a (Fin c) = Fin y → (y ≤ c)%Qc ∧ ∃ x, a = Fin x ∧ (y ≤ x)%Qc.
Proof.
  unfold pymin. destruct a as [x|]; simpl; [|done].
  case_bool_decide as Hlt; intros [= <-].
  - split; [apply Qcle_refl|]. exists x. split; [done|]. by apply Qclt_le_weak.
  - split; [by apply Qcnot_lt_le|]. exists x. split; [done|]. apply Qcle_refl.
Qed.

Lemma capacity_fin p d c :
  capacity p d = Fin c →
  ∃ m h x, max_hold_qty p = Fin m ∧ hold_qty p = Fin h
           ∧ pending_get (pending_qty p) d = Fin x
           ∧ c = match d with Buy => (m - h - x)%Qc | Sell => (m + h - x)%Qc end.
Proof.
  unfold capacity.
  destruct d, (max_hold_qty p), (hold_qty p), (pending_get (pending_qty p) _);
    simpl; try done; intros [= <-]; eauto 10.
Qed.

Lemma cap_ok_reserve p dir q y :
  cap_ok p → capacity p dir = Fin q → (0 ≤ y)%Qc → (y ≤ q)%Qc →
  cap_ok (reserve_pending p dir (Fin y)).
Proof.
  intros Hp Hc Hy Hle d. destruct (Hp d) as (c & Hcd & Hc0).
  destruct (capacity_fin _ _ _ Hcd) as (m & h & x & Hm & Hh & Hx & ->).
  destruct (decide (d = dir)) as [->|Hne].
  - rewrite Hcd in Hc. apply Fin_inj in Hc as <-.
    exists (match dir with Buy => m - h - x | Sell => m + h - x end - y)%Qc.
    split; [|by apply (proj1 (Qc_nonneg_sub _ _))].
    unfold capacity, reserve_pending. simpl.
    destruct dir; simpl in *; rewrite Hm, Hh, Hx; simpl; f_equal; ring.
  - eexists. split; [|exact Hc0].
    unfold capacity, reserve_pending. simpl.
    destruct d, dir; try done; simpl in *; by rewrite Hm, Hh, Hx.
Qed.

Lemma cap_ok_release p dir y :
  cap_ok p → (0 ≤ y)%Qc → cap_ok (release_pending p dir (Fin y)).
Proof.
  intros Hp Hy d. destruct (Hp d) as (c & Hcd & Hc0).
  destruct (capacity_fin _ _ _ Hcd) as (m & h & x & Hm & Hh & Hx & ->).
  destruct (decide (d = dir)) as [->|Hne].
  - exists (match dir with Buy => m - h - x | Sell => m + h - x end + y)%Qc.
    split; [|by apply Qcplus_nonneg_nonneg].
    unfold capacity, release_pending. simpl.
    destruct dir; simpl in *; rewrite Hm, Hh, Hx; simpl; f_equal; ring.
  - eexists. split; [|exact Hc0].
    unfold capacity, release_pending. simpl.
    destruct d, dir; try done; simpl in *; by rewrite Hm, Hh, Hx.
Qed.

Lemma apply_fill_hold_qty p dir q px :
  hold_qty (fill_pos (apply_fill p dir q px))
  = match dir with Buy => (hold_qty p + q)%F | Sell => (hold_qty p - q)%F end.
Proof. unfold apply_fill. by destruct (close_part _ _ _ _ _) as [[? ?] ?]. Qed.

Lemma apply_fill_max_hold_qty p dir q px :
  max_hold_qty (fill_pos (apply_fill p dir q px)) = max_hold_qty p.
Proof. unfold apply_fill. by destruct (close_part _ _ _ _ _) as [[? ?] ?]. Qed.

Lemma cap_ok_fill p dir y px :
  cap_ok p → (0 ≤ y)%Qc → cap_ok (fill_pos (apply_fill p dir (Fin y) px)).
Proof.
  intros Hp Hy d.
  destruct (Hp Buy) as (cb & Hcb & Hcb0). destruct (Hp Sell) as (cs & Hcs & Hcs0).
  destruct (capacity_fin _ _ _ Hcb) as (m & h & xb & Hm & Hh & Hxb & ->).
  destruct (capacity_fin _ _ _ Hcs) as (m' & h' & xs & Hm' & Hh' & Hxs & ->).
  rewrite Hm in Hm'. apply Fin_inj in Hm' as <-.
  rewrite Hh in Hh'. apply Fin_inj in Hh' as <-.
  unfold capacity.
  rewrite apply_fill_hold_qty, apply_fill_max_hold_qty, apply_fill_pending, Hm, Hh.
  simpl in Hxb, Hxs.
  destruct d, dir; simpl; rewrite ?Hxb, ?Hxs; simpl; eexists; (split; [reflexivity|]).
  - by replace (m - (h + y) - (xb - y))%Qc with (m - h - xb)%Qc by ring.
  - replace (m - (h - y) - xb)%Qc with (m - h - xb + y)%Qc by ring.
    by apply Qcplus_nonneg_nonneg.
  - replace (m + (h + y) - xs)%Qc with (m + h - xs + y)%Qc by ring.
    by apply Qcplus_nonneg_nonneg.
  - by replace (m + (h - y) - (xs - y))%Qc with (m + h - xs)%Qc by ring.
Qed.

Lemma awaiting_fin_pos o :
  lifecycle o → is_fin (orig_qty o) → (pend_qty o <=? 0)%F = false →
  ∃ y, pend_qty o = Fin y ∧ (0 < y)%Qc.
Proof.
  intros Hl Hf Hq. pose proof (pend_fin _ Hl Hf) as Hp.
  destruct (fleb_zero_false _ Hq) as [E|?]; [|done]. by rewrite E in Hp.
Qed.

Lemma cap_ok_reachable algo rows e :
  reachable algo rows e → orders_fin e →
  ∀ k p m, positions e !! k = Some p → max_hold_qty p = Fin m → (0 ≤ m)%Qc →
           cap_ok p.
Proof.
  revert e.
  apply (reachable_cases algo rows
           (λ e, orders_fin e →
                 ∀ k p m, positions e !! k = Some p →
                          max_hold_qty p = Fin m → (0 ≤ m)%Qc → cap_ok p)).
  - intros _ k p m (i & mx & ->)%init_positions Hm Hm0 d. simpl in Hm. subst mx.
    exists m. split; [|done]. destruct d; simpl; f_equal; ring.
  - intros e k p dir qty t lmt_px _ IH Hp Hq Hfin k' p' m.
    unfold orders_fin in Hfin.
    cbn [accept_order enqueue put_position push_order orders] in Hfin.
    apply Forall_app in Hfin as [Hfin Hnew].
    apply (proj1 (Forall_singleton _ _)) in Hnew.
    cbn [orig_qty new_Order] in Hnew.
    cbn [accept_order enqueue put_position push_order positions].
    rewrite lookup_insert. case_decide as Hk.
    + intros [= <-] Hm Hm0. cbn [reserve_pending max_hold_qty] in Hm.
      pose proof (IH Hfin k p m Hp Hm Hm0) as Hcap.
      destruct (Hcap dir) as (c & Hc & Hc0).
      destruct (pymin qty (capacity p dir)) as [y|] eqn:Hy; [|done].
      rewrite Hc in Hy. destruct (pymin_fin_le _ _ _ Hy) as [Hle _].
      destruct (fleb_zero_false _ Hq) as [?|(y' & [= <-] & Hy0)]; [done|].
      apply (cap_ok_reserve p dir c y); [done|done| |done].
      by apply Qclt_le_weak.
    + intros Hp'. by apply (IH Hfin k' p' m).
  - intros e i o _ IH _ Hfin. by apply IH.
  - intros e k bar _ IH Hfin. by apply IH.
  - intros e k ev r He IH _ Heff.
    destruct (wf_reachable _ _ _ He) as [Hwf _].
    destruct Heff as [o Ho Hq|o p Ho Hq Hp Ht ->|o p Ho Hq Hp Ht|o p Ho Hq Hp Ht -> Htif];
      cbn [fst]; intros Hfin.
    + by apply IH.
    + assert (orders_fin e) as Hfin0.
      { revert Hfin. by apply Forall_insert_back with (x := o). }
      destruct (Hwf _ _ Ho) as (_ & _ & Hl & _).
      destruct (awaiting_fin_pos o Hl (Forall_lookup_1 _ _ _ _ Hfin0 Ho) Hq)
        as (y & Hy & Hy0).
      intros k' p' m. unfold do_fill. cbn [fst positions push_trade put_position].
      rewrite lookup_insert. case_decide as Hk.
      * intros [= <-]. rewrite apply_fill_max_hold_qty. intros Hm Hm0.
        cbn [pend_qty set_last_time direction]. rewrite Hy.
        apply cap_ok_fill; [by apply (IH Hfin0 (position o) p m)|by apply Qclt_le_weak].
      * intros Hp'. by apply (IH Hfin0 k' p' m).
    + assert (orders_fin e) as Hfin0.
      { revert Hfin. by apply Forall_insert_back with (x := o). }
      destruct (Hwf _ _ Ho) as (_ & _ & Hl & _).
      destruct (awaiting_fin_pos o Hl (Forall_lookup_1 _ _ _ _ Hfin0 Ho) Hq)
        as (y & Hy & Hy0).
      intros k' p' m. unfold do_cancel. cbn [fst positions put_position].
      rewrite lookup_insert. case_decide as Hk.
      * intros [= <-]. intros Hm Hm0.
        cbn [pend_qty set_last_time direction]. rewrite Hy.
        apply cap_ok_release; [by apply (IH Hfin0 (position o) p m)|by apply Qclt_le_weak].
      * intros Hp'. by apply (IH Hfin0 k' p' m).
    + assert (orders_fin e) as Hfin0.
      { revert Hfin. by apply Forall_insert_back with (x := o). }
      by apply IH.
  - intros e _ IH Hfin. by apply IH.
Qed.

Lemma fsum_nonneg (l : list float) :
  Forall (λ a, ∃ x, a = Fin x ∧ (0 ≤ x)%Qc) l →
  ∃ s, fsum l = Fin s ∧ (0 ≤ s)%Qc.
Proof.
  induction 1 as [|a l (x & -> & Hx) _ (s & Hs & Hs0)].
  - by exists 0%Qc.
  - exists (x + s)%Qc. rewrite fsum_cons, Hs. split; [done|].
    by apply Qcplus_nonneg_nonneg.
Qed.

Lemma pending_nonneg algo rows e k p d :
  reachable algo rows e → orders_fin e → positions e !! k = Some p →
  ∃ x, pending_get (pending_qty p) d = Fin x ∧ (0 ≤ x)%Qc.
Proof.
  intros He Hfin Hp.
  rewrite (pending_sum_reachable _ _ _ He Hfin k p d Hp).
  apply fsum_nonneg, Forall_fmap, Forall_lookup. intros i o Ho.
  destruct (wf_reachable _ _ _ He) as [Hwf _].
  destruct (Hwf _ _ Ho) as (_ & _ & Hl & Hor).
  pose proof (Forall_lookup_1 _ _ _ _ Hfin Ho) as Hf. simpl in Hf.
  unfold contrib. simpl. case_decide; [|by exists 0%Qc].
  destruct Hl as [[-> _]|[[-> _]|[-> _]]]; [|by exists 0%Qc..].
  destruct (fleb_zero_false _ Hor) as [E|(x & -> & Hx)]; [by rewrite E in Hf|].
  exists x. split; [done|]. by apply Qclt_le_weak.
Qed.

(** Over exact arithmetic: the cap of a position whose order
    quantities are numbers. *)
Lemma position_within_cap_exact algo rows e k p m :
  reachable algo rows e → orders_fin e →
  positions e !! k = Some p → max_hold_qty p = Fin m → (0 ≤ m)%Qc →
  ∃ h pb ps,
    hold_qty p = Fin h
    ∧ pending_qty p = mkPendingQty (Fin pb) (Fin ps)
    ∧ (0 ≤ pb)%Qc ∧ (0 ≤ ps)%Qc
    ∧ (h + pb ≤ m)%Qc ∧ (- m ≤ h - ps)%Qc
    ∧ (- m ≤ h)%Qc ∧ (h ≤ m)%Qc.
Proof.
  intros He Hfin Hp Hm Hm0.
  pose proof (cap_ok_reachable _ _ _ He Hfin k p m Hp Hm Hm0) as Hcap.
  destruct (pending_nonneg _ _ _ k p Buy He Hfin Hp) as (pb & Hpb & Hpb0).
  destruct (pending_nonneg _ _ _ k p Sell He Hfin Hp) as (ps & Hps & Hps0).
  destruct (Hcap Buy) as (cb & Hcb & Hcb0). destruct (Hcap Sell) as (cs & Hcs & Hcs0).
  destruct (capacity_fin _ _ _ Hcb) as (m1 & h & x1 & Hm1 & Hh & Hx1 & ->).
  destruct (capacity_fin _ _ _ Hcs) as (m2 & h2 & x2 & Hm2 & Hh2 & Hx2 & ->).
  rewrite Hm in Hm1, Hm2. apply Fin_inj in Hm1 as <-. apply Fin_inj in Hm2 as <-.
  rewrite Hh in Hh2. apply Fin_inj in Hh2 as <-.
  rewrite Hpb in Hx1. apply Fin_inj in Hx1 as <-.
  rewrite Hps in Hx2. apply Fin_inj in Hx2 as <-.
  exists h, pb, ps. simpl in Hpb, Hps.
  split; [done|]. split; [destruct (pending_qty p); simpl in *; congruence|].
  split; [done|]. split; [done|].
  assert (h + pb ≤ m)%Qc as H1.
  { apply Qc_nonneg_sub. by replace (m - (h + pb))%Qc with (m - h - pb)%Qc by ring. }
  assert (- m ≤ h - ps)%Qc as H2.
  { apply Qc_nonneg_sub. by replace (h - ps - - m)%Qc with (m + h - ps)%Qc by ring. }
  split; [done|]. split; [done|]. split.
  - apply Qc_nonneg_sub. replace (h - - m)%Qc with ((m + h - ps) + ps)%Qc by ring.
    by apply Qcplus_nonneg_nonneg.
  - apply Qc_nonneg_sub. replace (m - h)%Qc with ((m - h - pb) + pb)%Qc by ring.
    by apply Qcplus_nonneg_nonneg.
Qed.

Lemma of_Z_le a b : (a ≤ b)%Z → (Q2Qc (inject_Z a) ≤ Q2Qc (inject_Z b))%Qc.
Proof.
  intros H. unfold Qcle. simpl. rewrite !Qred_correct. by rewrite <- Zle_Qle.
Qed.


Lemma whole_of_Z z : whole (of_Z z).
Proof. by exists z. Qed.

Lemma of_Z_nonneg z : (0 ≤ z)%Z → (0 ≤ Q2Qc (inject_Z z))%Qc.
Proof. intros H. by apply (of_Z_le 0 z). Qed.

(** X8: in every reachable state whose order quantities are whole
    numbers, a position whose [max_hold_qty] is a whole number [m]
    with [0 <= m <= 2^52] has a holding [h] and pending quantities
    [pb], [ps] that are numbers, with [pb] and [ps] not negative, and
    the holding stays within the cap even if everything pending on
    one side is filled: [h + pb <= m] and [-m <= h - ps], hence
    [-m <= h <= m].  (On whole numbers of this size the float
    operations of the source carry no rounding.) *)
Theorem position_within_cap algo rows e k p z :
  reachable algo rows e →
  Forall (λ o, whole (orig_qty o)) (orders e) →
  positions e !! k = Some p →
  max_hold_qty p = of_Z z → (0 ≤ z ≤ 2 ^ 52)%Z →
  ∃ h pb ps,
    hold_qty p = Fin h
    ∧ pending_qty p = mkPendingQty (Fin pb) (Fin ps)
    ∧ (0 ≤ pb)%Qc ∧ (0 ≤ ps)%Qc
    ∧ (h + pb ≤ Q2Qc (inject_Z z))%Qc
    ∧ (- Q2Qc (inject_Z z) ≤ h - ps)%Qc
    ∧ (- Q2Qc (inject_Z z) ≤ h)%Qc ∧ (h ≤ Q2Qc (inject_Z z))%Qc.
Proof.
  intros He Hw Hp Hm [Hz _].
  apply (position_within_cap_exact algo rows e k p _ He); [|done|done|by apply of_Z_nonneg].
  eapply Forall_impl; [exact Hw|]. intros o. apply whole_fin.
Qed.

Lemma position_within_cap_witness :
  ∃ p h pb ps,
    positions long3_selling !! CU = Some p
    ∧ hold_qty p = Fin h
    ∧ pending_qty p = mkPendingQty (Fin pb) (Fin ps)
    ∧ (h + pb ≤ Q2Qc (inject_Z 10))%Qc
    ∧ (- Q2Qc (inject_Z 10) ≤ h - ps)%Qc.
Proof.
  assert (Forall (λ o, whole (orig_qty o)) (orders long3_selling)) as Hw.
  { apply (proj1 (Forall_fmap orig_qty whole _)).
    assert (orig_qty <$> orders long3_selling = [of_Z 3; of_Z 3]) as ->
      by by_compute.
    repeat constructor; apply whole_of_Z. }
  set (p := mkPosition (plain_info CU) (of_Z 10) (of_Z 3) (of_Z 300)
              (mkPendingQty 0%F (of_Z 3)) 0%F 0%F).
  assert (positions long3_selling !! CU = Some p) as Hp by by_compute.
  assert (0 ≤ 10 ≤ 2 ^ 52)%Z as Hz by by_compute.
  destruct (position_within_cap AlwaysFilled two_rows long3_selling CU p
              10 long3_selling_reachable Hw Hp eq_refl Hz)
    as (h & pb & ps & H1 & H2 & _ & _ & H3 & H4 & _).
  exists p, h, pb, ps. split_and!; assumption.
Defined.

(* ===================================================================== *)
(** ** The ledger and the trade log *)
(* ===================================================================== *)










(* ===================================================================== *)
(** ** What a trade records; what NoTrade never does *)
(* ===================================================================== *)

Lemma trade_ok_reachable algo rows e :
  reachable algo rows e → ∀ j t, trades e !! j = Some t → trade_ok e j t.
Proof.
  intros He. pose proof He as He0. revert e He He0.
  apply (reachable_cases algo rows
           (λ e, reachable algo rows e →
                 ∀ j t, trades e !! j = Some t → trade_ok e j t)).
  - intros _ j t. simpl. by rewrite lookup_nil.
  - intros e k p dir qty t lmt_px He IH Hp Hq _ j t' Ht'.
    destruct (IH He j t' Ht') as (Hid & o & Ho & Hrest).
    split; [done|]. exists o. split; [|done]. simpl. by apply lookup_app_l_Some.
  - intros e i o He IH _ _. by apply IH.
  - intros e k bar He IH _. by apply IH.
  - intros e k ev r He IH _ Heff _. specialize (IH He).
    destruct (trades_once _ _ _ He) as [_ Hres].
    destruct (wf_reachable _ _ _ He) as [Hwf _].
    assert (∀ j t, trades e !! j = Some t →
                   orders e !! ev_order ev = orders r.1 !! ev_order ev ∨
                   trade_order t ≠ ev_order ev) as Hother.
    { intros j t Ht.
      destruct (event_effect_orders _ _ _ _ _ Heff)
        as [->|(o & o' & Ho & Hq & _)]; [by left|right].
      intros E. destruct (Hres t) as (o1 & Ho1 & Hq1).
      { apply list_elem_of_lookup. eauto. }
      rewrite E, Ho in Ho1. injection Ho1 as <-. congruence. }
    assert (∀ j t, trades e !! j = Some t → trade_ok r.1 j t) as Hold.
    { intros j t Ht. destruct (IH j t Ht) as (Hid & o & Ho & Hrest).
      split; [done|]. exists o. split; [|done].
      destruct (event_effect_orders _ _ _ _ _ Heff)
        as [->|(o0 & o' & Ho0 & Hq0 & -> & _)]; [done|].
      destruct (Hother j t Ht) as [E|Hne].
      - destruct (decide (trade_order t = ev_order ev)) as [E2|Hne].
        + destruct (Hres t) as (o1 & Ho1 & Hq1).
          { apply list_elem_of_lookup. eauto. }
          rewrite E2, Ho0 in Ho1. injection Ho1 as <-. congruence.
        + by rewrite list_lookup_insert_ne.
      - by rewrite list_lookup_insert_ne. }
    destruct (event_effect_trades _ _ _ _ _ Heff) as [Ht|(t & Ht & Hn)].
    + intros j t' Ht'. rewrite Ht in Ht'. by apply Hold.
    + intros j t' Ht'. rewrite Ht in Ht'.
      apply lookup_snoc_Some in Ht' as [[_ Ht']|[-> <-]]; [by apply Hold|].
      destruct Heff as [o Ho Hq|o p Ho Hq Hp Hty ->|o p Ho Hq Hp Hty|o p Ho Hq Hp Hty -> Htif];
        try done.
      injection Hn as <-. split; [done|].
      destruct (Hwf _ _ Ho) as (_ & _ & Hl & _).
      destruct (lifecycle_awaiting _ Hl Hq) as [Hpe _].
      eexists. split.
      { simpl. apply list_lookup_insert_eq. by eapply lookup_lt_Some. }
      simpl. by rewrite Hpe.
  - intros e He IH _. by apply IH.
Qed.

(** Under NoTrade there is never a trade, and no position ever moves. *)
Lemma no_trade_reachable rows e :
  reachable NoTrade rows e →
  trades e = []
  ∧ (∀ k p, positions e !! k = Some p →
       hold_qty p = 0%F ∧ hold_mv p = 0%F ∧ fee p = 0%F ∧ real_profit p = 0%F)
  ∧ (∀ i o, orders e !! i = Some o → exec_qty o = 0%F).
Proof.
  revert e.
  apply (reachable_cases NoTrade rows
           (λ e, trades e = []
                 ∧ (∀ k p, positions e !! k = Some p →
                      hold_qty p = 0%F ∧ hold_mv p = 0%F ∧ fee p = 0%F
                      ∧ real_profit p = 0%F)
                 ∧ (∀ i o, orders e !! i = Some o → exec_qty o = 0%F))).
  - split; [done|]. split.
    + by intros k p (i & m & ->)%init_positions.
    + intros i o. simpl. by rewrite lookup_nil.
  - intros e k p dir qty t lmt_px _ (Ht & Hp & Ho) Hk _. split; [done|]. split.
    + intros k' p'. simpl. rewrite lookup_insert. case_decide.
      * intros [= <-]. by apply (Hp k p).
      * apply Hp.
    + intros i o. simpl. intros [[_ Hi]|[_ <-]]%lookup_snoc_Some; [by eapply Ho|done].
  - done.
  - done.
  - intros e k ev r _ (Ht & Hp & Ho) _ Heff.
    destruct Heff as [o Hlk Hq|o p Hlk Hq Hpk Hty Ha|o p Hlk Hq Hpk Hty|o p Hlk Hq Hpk Hty _ Htif];
      [done|done| |].
    + split; [done|]. split.
      * intros k' p'. simpl. rewrite lookup_insert. case_decide.
        -- intros [= <-]. by apply (Hp (position o) p).
        -- apply Hp.
      * intros i o'. simpl. intros [(_ & <- & _)|[_ Hi]]%list_lookup_insert_Some;
          [simpl; by eapply Ho|by eapply Ho].
    + split; [done|]. split; [done|].
      intros i o'. simpl. intros [(_ & <- & _)|[_ Hi]]%list_lookup_insert_Some;
          [simpl; by eapply Ho|by eapply Ho].
  - done.
Qed.

(** X10: in every reachable state, the trade at index [j] of the trade
    log has [trade_id = j]; its order is in the order log, has
    nothing pending, and its original and executed quantities are
    the quantity of the trade and its [last_time] the time of the
    trade: a trade always fills its order in full; and no order has
    two trades. *)
Theorem trade_fills_its_order algo rows e j t :
  reachable algo rows e → trades e !! j = Some t →
  trade_id t = j
  ∧ (∃ o, orders e !! trade_order t = Some o
          ∧ pend_qty o = 0%F
          ∧ exec_qty o = trade_qty t
          ∧ orig_qty o = trade_qty t
          ∧ last_time o = trade_time t)
  ∧ ∀ j' t', trades e !! j' = Some t' → trade_order t' = trade_order t →
             j' = j.
Proof.
  intros He Ht. destruct (trade_ok_reachable _ _ _ He j t Ht) as [Hid Ho].
  split; [done|]. split; [done|].
  intros j' t' Ht' Ho'. destruct (trades_once _ _ _ He) as [Hnd _].
  apply (NoDup_lookup _ j' j (trade_order t) Hnd);
    rewrite list_lookup_fmap; [by rewrite Ht', <- Ho'|by rewrite Ht].
Qed.

Lemma trade_fills_its_order_witness :
  ∃ t o, trades round_trip_filled !! 1 = Some t
         ∧ orders round_trip_filled !! trade_order t = Some o
         ∧ exec_qty o = trade_qty t
         ∧ trade_qty t = of_Z 3.
Proof.
  set (t := mkTrade 1 1 (Some 3%Z) (of_Z 110) (of_Z 3) 0%F (of_Z 30)).
  assert (trades round_trip_filled !! 1 = Some t) as Ht by by_compute.
  destruct (trade_fills_its_order AlwaysFilled two_rows round_trip_filled 1 t
              round_trip_filled_reachable Ht) as (_ & (o & Ho & _ & He & _) & _).
  exists t, o. split_and!; [exact Ht|exact Ho|exact He|reflexivity].
Defined.

(** X11: under [NoTrade] no state has a trade, every position keeps
    [hold_qty], [hold_mv], [fee] and [real_profit] at 0, and every
    order keeps [exec_qty] at 0. *)
Theorem no_trade_never_trades rows e :
  reachable NoTrade rows e →
  trades e = []
  ∧ (∀ k p, positions e !! k = Some p →
       hold_qty p = 0%F ∧ hold_mv p = 0%F ∧ fee p = 0%F ∧ real_profit p = 0%F)
  ∧ (∀ i o, orders e !! i = Some o → exec_qty o = 0%F).
Proof. apply no_trade_reachable. Qed.

Lemma no_trade_never_trades_witness :
  reachable NoTrade two_rows gtc_at_bar
  ∧ trades gtc_at_bar = []
  ∧ length (orders gtc_at_bar) = 1.
Proof.
  assert (reachable NoTrade two_rows gtc_at_bar) as He.
  { apply reach_bar. apply (reach_submit _ _ (init_engine two_rows)).
    apply reach_init. }
  destruct (no_trade_never_trades two_rows gtc_at_bar He) as (Ht & _).
  split_and!; [exact He|exact Ht|reflexivity].
Defined.

(* ===================================================================== *)
(** ** AlwaysFilled leaves no order behind *)
(* ===================================================================== *)

Lemma always_filled_resolves k e ev r :
  process_event AlwaysFilled k e ev = Ok r → resolved r.1 (ev_order ev).
Proof.
  intros Hpe. apply process_event_cases in Hpe.
  destruct Hpe as [o Ho Hq|o p Ho Hq Hp Ht _|o p Ho Hq Hp Ht|o p Ho Hq Hp Ht Ha Htif].
  - by exists o.
  - exists (set_filled (set_last_time o (cur_tm e)) (pend_qty o)).
    split; [|done]. simpl.
    apply list_lookup_insert_eq. by eapply lookup_lt_Some.
  - exists (set_cancelled (set_last_time o (cur_tm e))).
    split; [|done]. simpl.
    apply list_lookup_insert_eq. by eapply lookup_lt_Some.
  - done.
Qed.

Lemma fills_only_submit rows e k dir qty t lmt_px :
  fills_only rows e → fills_only rows (submit_order e k dir qty t lmt_px).2.
Proof.
  intros (He & Hf & Hn). split; [by constructor|].
  destruct (wf_reachable _ _ _ He) as [_ Hev].
  unfold submit_order, find_position.
  destruct (positions e !! k) as [p|]; [|done].
  destruct (pymin qty (capacity p dir) <=? 0)%F eqn:Hq; [done|].
  split.
  - intros i o. simpl. intros [[_ Hi]|[-> <-]]%lookup_snoc_Some Haw.
    + destruct (Hf i o Hi Haw) as (idx & Hidx & Hfirst).
      exists idx. split; [by apply lookup_app_l_Some|].
      intros idx' ev' Hlt Hlk. apply (Hfirst idx' ev' Hlt).
      rewrite lookup_app_l in Hlk; [done|].
      apply lookup_lt_Some in Hidx. lia.
    + exists (length (events e)). split.
      { by rewrite lookup_app_r, Nat.sub_diag. }
      intros idx' ev' Hlt Hlk. rewrite lookup_app_l in Hlk by done.
      destruct (Hev ev') as [Hlen _]; [apply list_elem_of_lookup; eauto|]. lia.
  - intros i o. simpl. intros [[_ Hi]|[-> <-]]%lookup_snoc_Some Haw.
    + by apply (Hn i o).
    + simpl in Haw. congruence.
Qed.

Lemma fills_only_cancel rows e i :
  fills_only rows e → fills_only rows (cancel_order e i).2.
Proof.
  intros (He & Hf & Hn). split; [by constructor|].
  unfold cancel_order. destruct (orders e !! i) as [o|]; [|done].
  destruct ((pend_qty o =? 0)%F || bool_decide (tif o = IOC)); [done|].
  split; [|done].
  intros j o' Hj Haw. simpl.
  destruct (Hf j o' Hj Haw) as (idx & Hidx & Hfirst).
  exists idx. split; [by apply lookup_app_l_Some|].
  intros idx' ev' Hlt Hlk. apply (Hfirst idx' ev' Hlt).
  rewrite lookup_app_l in Hlk; [done|].
  apply lookup_lt_Some in Hidx. lia.
Qed.

Lemma run_cmd_fills_only {A : Type} rows (c : Cmd A) e :
  fills_only rows e → fills_only rows (run_cmd c e).2.
Proof.
  apply run_cmd_inv.
  - intros. by apply fills_only_submit.
  - intros. by apply fills_only_cancel.
Qed.

(** One event of a pass under [AlwaysFilled]: it is skipped or it
    fills its order; it never cancels. *)
Lemma fills_only_event rows k e i ev r :
  fills_only rows e →
  (∀ j ev', j < i → events e !! j = Some ev' → resolved e (ev_order ev')) →
  events e !! i = Some ev →
  process_event AlwaysFilled k e ev = Ok r →
  fills_only rows r.1 ∧ only_fills (option_list r.2).
Proof.
  intros (He & Hf & Hn) Hdone Hev Hpe.
  assert (reachable AlwaysFilled rows r.1) as He1.
  { destruct r. eapply reach_event; [done| |done].
    apply list_elem_of_lookup. eauto. }
  destruct (wf_reachable _ _ _ He) as [Hwf _].
  apply process_event_cases in Hpe.
  destruct Hpe as [o Ho Hq|o p Ho Hq Hp Ht _|o p Ho Hq Hp Ht|o p Ho Hq Hp Ht Ha Htif].
  - split; [done|]. intros n Hn'. by apply elem_of_nil in Hn'.
  - split.
    2:{ intros n ->%list_elem_of_singleton. eauto. }
    split; [done|]. split.
    + intros j o'. simpl.
      intros [(<- & <- & _)|[Hne Hj]]%list_lookup_insert_Some Haw; [done|].
      by apply (Hf j o').
    + intros j o'. simpl.
      intros [(<- & <- & _)|[Hne Hj]]%list_lookup_insert_Some Haw.
      * simpl. split; [done|].
        destruct (Hwf _ _ Ho) as (_ & _ & Hl & _).
        by destruct (lifecycle_awaiting _ Hl Hq).
      * by apply (Hn j o').
  - exfalso. destruct Ht as [Ht|(_ & [=] & _)].
    destruct (Hf _ _ Ho Hq) as (idx & Hidx & Hfirst).
    assert (idx < i) as Hlt.
    { destruct (decide (idx < i)) as [|Hge]; [done|].
      destruct (decide (idx = i)) as [->|Hne].
      - rewrite Hev in Hidx. injection Hidx as Heq. by rewrite Heq in Ht.
      - exfalso. apply (Hfirst i ev); [lia|done|done]. }
    destruct (Hdone idx _ Hlt Hidx) as (o' & Ho' & Hq'). simpl in Ho'.
    congruence.
  - done.
Qed.

Section FillsOnly.
Context {S : Type}.
Variable strategy : Strategy S.

Lemma resolve_events_fills_only rows fuel k i st e log r :
  fills_only rows e →
  (∀ j ev, j < i → events e !! j = Some ev → resolved e (ev_order ev)) →
  only_fills log →
  resolve_events strategy AlwaysFilled fuel k i st e log = Done r →
  fills_only rows r.1.2
  ∧ (∀ ev, ev ∈ events r.1.2 → resolved r.1.2 (ev_order ev))
  ∧ only_fills r.2.
Proof.
  revert i st e log. induction fuel as [|fuel IH]; intros i st e log HI Hdone Hlog;
    simpl; [done|].
  destruct (events e !! i) as [ev|] eqn:Hev.
  2:{ intros [= <-]. split; [done|]. split; [|done].
      intros ev [j Hj]%list_elem_of_lookup. simpl in *.
      apply (Hdone j ev); [|done].
      apply lookup_ge_None in Hev. apply lookup_lt_Some in Hj. lia. }
  destruct (process_event AlwaysFilled k e ev) as [[e1 n]|x] eqn:Hpe; [|done].
  destruct (fills_only_event rows k e i ev _ HI Hdone Hev Hpe) as [HI1 Hn1].
  simpl in HI1, Hn1.
  pose proof (always_filled_resolves _ _ _ _ Hpe) as Hr1. simpl in Hr1.
  apply process_event_cases in Hpe.
  pose proof (event_effect_events _ _ _ _ _ Hpe) as Hev1. simpl in Hev1.
  assert (∀ (e2 : Engine),
            (∀ j, resolved e1 j → resolved e2 j) →
            (∃ new, events e2 = events e1 ++ new) →
            ∀ j ev', j < Datatypes.S i → events e2 !! j = Some ev' →
                     resolved e2 (ev_order ev')) as Hstep.
  { intros e2 Hres [new Hnew] j ev' Hj Hlk.
    rewrite Hnew, Hev1 in Hlk.
    rewrite lookup_app_l in Hlk by (apply lookup_lt_Some in Hev; lia).
    apply Hres. destruct (decide (j = i)) as [->|Hne].
    - rewrite Hev in Hlk. by injection Hlk as <-.
    - apply (event_effect_keeps_resolved _ _ _ _ _ _ Hpe).
      apply (Hdone j); [lia|done]. }
  destruct n as [n|].
  - apply IH.
    + by apply run_cmd_fills_only.
    + apply Hstep.
      * intros j Hj. by apply run_cmd_keeps_resolved.
      * apply run_cmd_events.
    + intros n' [Hn'|Hn']%elem_of_app; [by apply Hlog|by apply Hn1].
  - apply IH; [done| |done].
    apply Hstep; [done|]. exists []. by rewrite app_nil_r.
Qed.

(** After a pass, every order of the log is filled. *)
Lemma pass_fills_all rows fuel k st e st' e' log :
  fills_only rows e →
  resolve_events strategy AlwaysFilled fuel k 0 st e [] = Done (st', e', log) →
  fills_only rows e'
  ∧ (∀ i o, orders e' !! i = Some o →
       pend_qty o = 0%F ∧ exec_qty o = orig_qty o)
  ∧ only_fills log.
Proof.
  intros HI Hres.
  destruct (resolve_events_fills_only rows _ _ _ _ _ _ _ HI
              (λ j ev (H : j < 0), ltac:(lia))
              (λ n (H : n ∈ []), ltac:(by apply elem_of_nil in H)) Hres)
    as (HI' & Hall & Hlog).
  simpl in HI', Hall, Hlog. split; [done|]. split; [|done].
  intros i o Ho. destruct HI' as (_ & Hf & Hn).
  destruct (pend_qty o <=? 0)%F eqn:Hq; [by apply (Hn i o)|].
  destruct (Hf i o Ho Hq) as (idx & Hidx & _).
  destruct (Hall (mkEvent 0 i)) as (o' & Ho' & Hq').
  { apply list_elem_of_lookup. eauto. }
  simpl in Ho'. congruence.
Qed.

Lemma bar_step_fills_only rows fuel st e k bar r :
  fills_only rows e →
  bar_step strategy AlwaysFilled fuel st e k bar = Done r →
  fills_only rows r.2.
Proof.
  intros HI. unfold bar_step.
  destruct (resolve_events strategy AlwaysFilled fuel k 0 st (begin_bar e k bar) [])
    as [[[st1 e1] lg]| |] eqn:Hres; [|done..].
  intros [= <-]. apply run_cmd_fills_only.
  assert (fills_only rows (begin_bar e k bar)) as HI0.
  { destruct HI as (He & Hf & Hn). split; [by constructor|done]. }
  destruct (pass_fills_all rows _ _ _ _ _ _ _ HI0 Hres) as ((He1 & _ & Hn1) & Hall & _).
  split; [by constructor|]. split; [|done].
  intros i o Ho Hq. simpl in Ho. destruct (Hall i o Ho) as [Hp _].
  by rewrite Hp in Hq.
Qed.

Lemma run_bars_fills_only rows fuel bars st e r :
  fills_only rows e →
  run_bars strategy AlwaysFilled fuel bars st e = Done r →
  fills_only rows r.2.
Proof.
  revert st e. induction bars as [|[k bar] bars IH]; intros st e HI; simpl.
  - by intros [= <-].
  - destruct (bar_step strategy AlwaysFilled fuel st e k bar)
      as [[st1 e1]| |] eqn:Hb; [|done..].
    apply IH. apply (bar_step_fills_only _ _ _ _ _ _ _ HI Hb).
Qed.

Lemma init_fills_only rows st0 :
  fills_only rows (run_cmd (on_start strategy st0) (init_engine rows)).2.
Proof.
  apply run_cmd_fills_only. split; [constructor|].
  split; intros i o; simpl; by rewrite lookup_nil.
Qed.

Lemma run_fills_only fuel rows bars st0 r :
  run strategy AlwaysFilled fuel rows bars st0 = Done r →
  fills_only rows r.2.
Proof.
  unfold run.
  destruct (run_bars strategy AlwaysFilled fuel bars _ _)
    as [[st1 e1]| |] eqn:Hb; [|done..].
  intros [= <-]. apply run_cmd_fills_only.
  apply (run_bars_fills_only _ _ _ _ _ _ (init_fills_only rows st0) Hb).
Qed.
End FillsOnly.

Lemma filter_none {A} (P : A → Prop) `{∀ x, Decision (P x)} (l : list A) :
  (∀ x, x ∈ l → ¬ P x) → filter P l = [].
Proof.
  induction l as [|x l IH]; intros Hl; [done|].
  rewrite filter_cons, decide_False by (apply Hl; by left).
  apply IH. intros y Hy. apply Hl. by right.
Qed.

(** With no order awaiting, nothing is pending. *)
Lemma none_awaiting_none_pending algo rows e :
  reachable algo rows e → orders_fin e →
  (∀ i o, orders e !! i = Some o → (pend_qty o <=? 0)%F = true) →
  ∀ k p, positions e !! k = Some p → pending_qty p = mkPendingQty 0%F 0%F.
Proof.
  intros He Hfin Hall k p Hp.
  assert (∀ d, pending_get (pending_qty p) d = 0%F) as H0.
  { intros d. rewrite (pending_matches_reachable _ _ _ He Hfin k p d Hp).
    unfold pending_orders. rewrite filter_none; [done|].
    intros o [i Hi]%list_elem_of_lookup (_ & _ & Haw).
    unfold awaiting in Haw. by rewrite (Hall i o Hi) in Haw. }
  pose proof (H0 Buy) as Hb. pose proof (H0 Sell) as Hs.
  destruct (pending_qty p). simpl in *. by subst.
Qed.

(** X12: under [AlwaysFilled], when a run has reached a bar, the
    resolution pass of that bar leaves every order of the log with
    nothing pending and executed in full, it notifies executions only
    ([on_order_cancelled] is not called), and, the order quantities
    being whole numbers with a total of at most [2^53], it leaves the
    pending quantities of every position at 0. *)
Theorem always_filled_pass_fills_all {S : Type} (strategy : Strategy S)
    rows fuel bars st0 st e fuel' k bar st' e' log :
  run_bars strategy AlwaysFilled fuel bars
    (run_cmd (on_start strategy st0) (init_engine rows)).1
    (run_cmd (on_start strategy st0) (init_engine rows)).2 = Done (st, e) →
  resolve_events strategy AlwaysFilled fuel' k 0 st (begin_bar e k bar) []
    = Done (st', e', log) →
  (∀ i o, orders e' !! i = Some o →
     pend_qty o = 0%F ∧ exec_qty o = orig_qty o)
  ∧ (∀ n, n ∈ log → ∃ t, n = Executed t)
  ∧ (orders_exact e' →
     ∀ k' p, positions e' !! k' = Some p →
             pending_qty p = mkPendingQty 0%F 0%F).
Proof.
  intros Hrun Hres.
  pose proof (run_bars_fills_only strategy rows _ _ _ _ _
                (init_fills_only strategy rows st0) Hrun) as (He & Hf & Hn).
  assert (fills_only rows (begin_bar e k bar)) as HI0.
  { split; [by constructor|done]. }
  destruct (pass_fills_all strategy rows _ _ _ _ _ _ _ HI0 Hres)
    as ((He' & _) & Hall & Hlog).
  split; [done|]. split; [done|].
  intros Hfin%orders_exact_fin.
  apply (none_awaiting_none_pending AlwaysFilled rows e' He' Hfin).
  intros i o Ho. destruct (Hall i o Ho) as [-> _]. by_compute.
Qed.

Lemma always_filled_pass_fills_all_witness :
  events (begin_bar cancel_requested CU (flat_bar 2 (of_Z 100)))
    = [mkEvent 0 0; mkEvent 1 0]
  ∧ (λ o, (tif o, pend_qty o, exec_qty o)) <$> orders cancel_ignored.1
    = [(GTC, 0%F, of_Z 3)]
  ∧ (∀ n, n ∈ cancel_ignored.2 → ∃ t, n = Executed t).
Proof.
  assert (run_bars cancel_at_once AlwaysFilled 3 (take 1 three_bars)
            (run_cmd (on_start cancel_at_once 0) (init_engine two_rows)).1
            (run_cmd (on_start cancel_at_once 0) (init_engine two_rows)).2
          = Done (1, cancel_requested)) as Hrun by by_compute.
  assert (resolve_events cancel_at_once AlwaysFilled 3 CU 0 1
            (begin_bar cancel_requested CU (flat_bar 2 (of_Z 100))) []
          = Done (1, cancel_ignored.1, cancel_ignored.2)) as Hres by by_compute.
  destruct (always_filled_pass_fills_all cancel_at_once two_rows 3
              (take 1 three_bars) 0 1 cancel_requested 3 CU
              (flat_bar 2 (of_Z 100)) 1 cancel_ignored.1 cancel_ignored.2
              Hrun Hres) as (_ & Hlog & _).
  split_and!; [by_compute|by_compute|exact Hlog].
Defined.

(** X13: under [AlwaysFilled] a run ends with every order either still
    pending in full or executed in full, and none cancelled: a
    cancel request that [cancel_order] accepted has no effect, the
    fill attempt of its order being resolved first. *)
Theorem always_filled_never_cancels {S : Type} (strategy : Strategy S)
    fuel rows bars st0 r i o :
  run strategy AlwaysFilled fuel rows bars st0 = Done r →
  orders r.2 !! i = Some o →
  (orig_qty o <=? 0)%F = false
  ∧ ((pend_qty o = orig_qty o ∧ exec_qty o = 0%F)
     ∨ (pend_qty o = 0%F ∧ exec_qty o = orig_qty o)).
Proof.
  intros Hrun Ho.
  destruct (run_fills_only strategy _ _ _ _ _ Hrun) as (He & _ & Hn).
  destruct (wf_reachable _ _ _ He) as [Hwf _].
  destruct (Hwf i o Ho) as (_ & _ & Hl & Hor). split; [done|].
  destruct (pend_qty o <=? 0)%F eqn:Hq.
  - right. by apply (Hn i o).
  - left. by apply lifecycle_awaiting.
Qed.

Lemma always_filled_never_cancels_witness :
  run cancel_at_once AlwaysFilled 3 two_rows three_bars 0
    = Done (1, cancel_at_once_end)
  ∧ ∃ o, orders cancel_at_once_end !! 0 = Some o
         ∧ tif o = GTC ∧ exec_qty o = orig_qty o.
Proof.
  assert (run cancel_at_once AlwaysFilled 3 two_rows three_bars 0
          = Done (1, cancel_at_once_end)) as Hrun by by_compute.
  set (o := mkOrder 0 CU Buy GTC None (of_Z 3) 0%F (of_Z 3) (Some 1%Z)
              (Some 2%Z)).
  assert (orders cancel_at_once_end !! 0 = Some o) as Ho by by_compute.
  destruct (always_filled_never_cancels cancel_at_once 3 two_rows three_bars 0
              (1, cancel_at_once_end) 0 o Hrun Ho) as [_ [[E _]|[_ E]]].
  - exfalso. refute_by_compute E.
  - split; [exact Hrun|]. exists o. split_and!; [exact Ho|reflexivity|exact E].
Defined.

(* ===================================================================== *)
(** ** A run never raises; the logs only grow *)
(* ===================================================================== *)

Section NoRaise.
Context {S : Type}.
Variable strategy : Strategy S.
Variable algo : MatchAlgorithm.

Lemma resolve_events_no_raise rows fuel k i st e log x :
  reachable algo rows e →
  resolve_events strategy algo fuel k i st e log ≠ Raised x.
Proof.
  revert i st e log. induction fuel as [|fuel IH]; intros i st e log He;
    simpl; [done|].
  destruct (events e !! i) as [ev|] eqn:Hev; [|done].
  assert (ev ∈ events e) as Hin by (apply list_elem_of_lookup; eauto).
  destruct (process_event_no_raise algo rows e k ev He Hin) as [[e1 n] Hpe].
  rewrite Hpe.
  assert (reachable algo rows e1) as He1 by by eapply reach_event.
  destruct n as [n|]; apply IH; [by apply run_cmd_reachable|done].
Qed.

Lemma run_bars_no_raise rows fuel bars st e x :
  reachable algo rows e →
  run_bars strategy algo fuel bars st e ≠ Raised x.
Proof.
  revert st e. induction bars as [|[k bar] bars IH]; intros st e He; simpl;
    [done|].
  unfold bar_step.
  destruct (resolve_events strategy algo fuel k 0 st (begin_bar e k bar) [])
    as [[[st1 e1] lg]|y|] eqn:Hres; [| |done].
  - destruct (run_cmd (on_bar_data strategy st1 k bar) (clear_events e1))
      as [st2 e2] eqn:Hcmd.
    apply IH. change e2 with (st2, e2).2. rewrite <- Hcmd.
    apply run_cmd_reachable, reach_clear.
    apply (resolve_events_reachable _ _ _ _ _ _ _ _ _ _
             (reach_bar _ _ _ k bar He) Hres).
  - exfalso. by apply (resolve_events_no_raise rows _ _ _ _ _ _ y
                         (reach_bar _ _ _ k bar He)) in Hres.
Qed.

Lemma run_no_raise fuel rows bars st0 x :
  run strategy algo fuel rows bars st0 ≠ Raised x.
Proof.
  unfold run.
  destruct (run_bars strategy algo fuel bars _ _) as [[st1 e1]|y|] eqn:Hb;
    [done| |done].
  exfalso. apply (run_bars_no_raise rows) in Hb; [done|].
  apply run_cmd_reachable, reach_init.
Qed.

Lemma run_fuel_mono fuel fuel' rows bars st0 r :
  fuel ≤ fuel' →
  run strategy algo fuel rows bars st0 = Done r →
  run strategy algo fuel' rows bars st0 = Done r.
Proof.
  intros Hle. unfold run.
  destruct (run_bars strategy algo fuel bars _ _) as [[st1 e1]| |] eqn:Hb;
    [|done..].
  by rewrite (run_bars_fuel_mono _ _ _ _ _ _ _ _ Hle Hb).
Qed.

End NoRaise.

(** X14: no run raises: the branch
    [raise RuntimeError('unknown event type')] is never reached, and
    no event refers to an order or a position that is not there. *)
Theorem run_never_raises {S : Type} (strategy : Strategy S) algo fuel rows
    bars st0 x :
  run strategy algo fuel rows bars st0 ≠ Raised x.
Proof. apply run_no_raise. Qed.

(** X15: a run of a strategy that submits and cancels nothing from
    within [on_order_executed] and [on_order_cancelled] finishes: with
    enough fuel, and with any larger amount, it ends with the same
    result. *)
Theorem quiet_run_finishes {S : Type} (strategy : Strategy S) algo rows bars
    st0 :
  quiet_notifications strategy →
  ∃ fuel r, ∀ fuel', fuel ≤ fuel' →
    run strategy algo fuel' rows bars st0 = Done r.
Proof.
  intros Hq. destruct (run_total strategy algo rows bars st0 Hq) as (fuel & r & Hr).
  exists fuel, r. intros fuel' Hle. by apply (run_fuel_mono strategy algo fuel).
Qed.

Lemma quiet_run_finishes_witness :
  quiet_notifications round_trip
  ∧ ∃ fuel r, ∀ fuel', fuel ≤ fuel' →
      run round_trip AlwaysFilled fuel' two_rows three_bars 0 = Done r.
Proof.
  assert (quiet_notifications round_trip) as Hq.
  { split; intros; constructor. }
  split; [exact Hq|].
  apply (quiet_run_finishes round_trip AlwaysFilled two_rows three_bars 0 Hq).
Defined.

(** Resolving an event rewrites no field of an order that the engine
    sets at creation. *)
Lemma event_effect_static algo k e ev r :
  event_effect algo k e ev r →
  order_static <$> orders r.1 = order_static <$> orders e.
Proof.
  destruct 1 as [o Ho Hq|o p Ho Hq Hp Ht ->|o p Ho Hq Hp Ht|o p Ho Hq Hp Ht -> Htif];
    [done|..]; simpl; rewrite list_fmap_insert; apply list_insert_id;
    by rewrite list_lookup_fmap, Ho.
Qed.

Lemma event_effect_fill_stamp algo k e ev r px :
  cur_px e !! k = Some px →
  event_effect algo k e ev r →
  cur_px r.1 = cur_px e ∧ cur_tm r.1 = cur_tm e
  ∧ ∀ t, r.2 = Some (Executed t) →
         trade_px t = px ∧ trade_time t = cur_tm e
         ∧ trades r.1 = trades e ++ [t].
Proof.
  intros Hpx. destruct 1; simpl; (split; [done|]); (split; [done|]);
    intros t [= <-]. simpl. by rewrite Hpx.
Qed.

Lemma run_cmd_grow {A : Type} (c : Cmd A) e :
  trades (run_cmd c e).2 = trades e
  ∧ ∃ more, orders (run_cmd c e).2 = orders e ++ more.
Proof. split; [apply run_cmd_prices|apply run_cmd_orders]. Qed.

Section Pass2.
Context {S : Type}.
Variable strategy : Strategy S.
Variable algo : MatchAlgorithm.

(** A pass only appends to the two logs, and rewrites no field of an
    order that was set at its creation. *)
Lemma resolve_events_grow fuel k i st e log r :
  resolve_events strategy algo fuel k i st e log = Done r →
  (∃ more, trades r.1.2 = trades e ++ more)
  ∧ (∃ more, order_static <$> orders r.1.2
             = (order_static <$> orders e) ++ more).
Proof.
  revert i st e log. induction fuel as [|fuel IH]; intros i st e log;
    simpl; [done|].
  destruct (events e !! i) as [ev|].
  2:{ intros [= <-]. split; exists []; by rewrite app_nil_r. }
  destruct (process_event algo k e ev) as [[e1 n]|x] eqn:Hpe; [|done].
  apply process_event_cases in Hpe.
  pose proof (event_effect_static _ _ _ _ _ Hpe) as Hst. simpl in Hst.
  assert (∃ more, trades e1 = trades e ++ more) as [m1 Hm1].
  { destruct (event_effect_trades _ _ _ _ _ Hpe) as [Ht|(t & Ht & _)];
      simpl in Ht; rewrite Ht; [exists []; by rewrite app_nil_r|eauto]. }
  assert (∀ e2, trades e2 = trades e1 →
                (∃ more, orders e2 = orders e1 ++ more) →
                resolve_events strategy algo fuel k (Datatypes.S i)
                  (match n with
                   | Some n => (run_cmd (notify strategy st n) e1).1
                   | None => st end) e2
                  (match n with Some n => log ++ [n] | None => log end)
                = Done r →
                (∃ more, trades r.1.2 = trades e ++ more)
                ∧ (∃ more, order_static <$> orders r.1.2
                           = (order_static <$> orders e) ++ more)) as Hstep.
  { intros e2 Ht2 [mo Ho2] Hres.
    destruct (IH _ _ _ _ Hres) as ([m2 Hm2] & [m3 Hm3]). split.
    - exists (m1 ++ m2). by rewrite Hm2, Ht2, Hm1, app_assoc.
    - exists ((order_static <$> mo) ++ m3).
      by rewrite Hm3, Ho2, fmap_app, Hst, app_assoc. }
  destruct n as [n|].
  - apply Hstep; apply run_cmd_grow.
  - apply Hstep; [done|]. exists []. by rewrite app_nil_r.
Qed.

Lemma resolve_events_stamps fuel k i st e log r px :
  cur_px e !! k = Some px →
  resolve_events strategy algo fuel k i st e log = Done r →
  ∃ new, r.2 = log ++ new
         ∧ ∀ t, Executed t ∈ new →
                trade_px t = px ∧ trade_time t = cur_tm e ∧ t ∈ trades r.1.2.
Proof.
  revert i st e log. induction fuel as [|fuel IH]; intros i st e log Hpx;
    simpl; [done|].
  destruct (events e !! i) as [ev|].
  2:{ intros [= <-]. exists []. rewrite app_nil_r. split; [done|].
      intros t Ht. by apply elem_of_nil in Ht. }
  destruct (process_event algo k e ev) as [[e1 n]|x] eqn:Hpe; [|done].
  apply process_event_cases in Hpe.
  destruct (event_effect_fill_stamp _ _ _ _ _ _ Hpx Hpe) as (Hc & Htm & Hst).
  simpl in Hc, Htm, Hst.
  destruct n as [n|].
  - destruct (run_cmd_prices (notify strategy st n) e1) as [Htr2 Hc2].
    pose proof (run_cmd_cur_tm (notify strategy st n) e1) as Htm2.
    intros Hres.
    destruct (IH _ _ _ _ ltac:(by rewrite Hc2, Hc) Hres) as (new & Hlog & Hnew).
    exists (n :: new). split; [by rewrite Hlog, <- app_assoc|].
    intros t [<-|Ht]%elem_of_cons.
    + destruct (Hst t eq_refl) as (H1 & H2 & H3). split_and!; [done|done|].
      destruct (resolve_events_grow _ _ _ _ _ _ _ Hres) as [[more Hmore] _].
      rewrite Hmore, Htr2, H3. apply elem_of_app. left.
      apply elem_of_app. right. by apply list_elem_of_singleton.
    + destruct (Hnew t Ht) as (H1 & H2 & H3).
      split_and!; [done| |done]. by rewrite H2, Htm2, Htm.
  - intros Hres.
    destruct (IH _ _ _ _ ltac:(by rewrite Hc) Hres) as (new & Hlog & Hnew).
    exists new. split; [done|]. intros t Ht.
    destruct (Hnew t Ht) as (H1 & H2 & H3). split_and!; [done| |done].
    by rewrite H2, Htm.
Qed.
End Pass2.

(** X16: one turn of the bar loop only appends to the trade log and to
    the order log, and rewrites no field of an order that is set at
    its creation ([order_id], instrument, [direction], [tif],
    [limit_px], [orig_qty], [insert_time]). *)
Theorem bar_keeps_the_logs {S : Type} (strategy : Strategy S) algo fuel st e
    k bar r :
  bar_step strategy algo fuel st e k bar = Done r →
  (∃ more, trades r.2 = trades e ++ more)
  ∧ (∃ more, order_static <$> orders r.2
             = (order_static <$> orders e) ++ more).
Proof.
  unfold bar_step.
  destruct (resolve_events strategy algo fuel k 0 st (begin_bar e k bar) [])
    as [[[st1 e1] lg]| |] eqn:Hres; [|done..].
  intros [= <-].
  destruct (resolve_events_grow strategy algo _ _ _ _ _ _ _ Hres)
    as ([m1 Hm1] & [m2 Hm2]). simpl in Hm1, Hm2.
  destruct (run_cmd_grow (on_bar_data strategy st1 k bar) (clear_events e1))
    as (Ht & [m3 Hm3]). simpl in Ht, Hm3.
  split.
  - exists m1. by rewrite Ht.
  - exists (m2 ++ (order_static <$> m3)).
    by rewrite Hm3, fmap_app, Hm2, app_assoc.
Qed.

Lemma bar_keeps_the_logs_witness :
  bar_step round_trip AlwaysFilled 2 2 long3_selling CU (flat_bar 3 (of_Z 110))
    = Done (2, round_trip_filled)
  ∧ ∃ more, trades round_trip_filled = trades long3_selling ++ more.
Proof.
  assert (bar_step round_trip AlwaysFilled 2 2 long3_selling CU
            (flat_bar 3 (of_Z 110)) = Done (2, round_trip_filled)) as Hb
    by by_compute.
  split; [exact Hb|].
  apply (bar_keeps_the_logs round_trip AlwaysFilled 2 2 long3_selling CU
           (flat_bar 3 (of_Z 110)) (2, round_trip_filled) Hb).
Defined.

(** X17: every execution notified during the resolution pass of a bar
    is a trade of the trade log whose price is the [last_px] and whose
    time is the [last_time] of that bar, whatever the instrument of
    its order. *)
Theorem fills_are_stamped_by_the_bar {S : Type} (strategy : Strategy S) algo
    fuel k bar st e st' e' log t :
  resolve_events strategy algo fuel k 0 st (begin_bar e k bar) []
    = Done (st', e', log) →
  Executed t ∈ log →
  trade_px t = bar_last_px bar
  ∧ trade_time t = Some (bar_last_time bar)
  ∧ t ∈ trades e'.
Proof.
  intros Hres Ht.
  destruct (resolve_events_stamps strategy algo _ _ _ _ _ _ _ (bar_last_px bar)
              (lookup_insert_eq _ _ _) Hres) as (new & Hlog & Hnew).
  simpl in Hlog. subst new. by apply Hnew.
Qed.

Lemma fills_are_stamped_by_the_bar_witness :
  ∃ t,
    resolve_events round_trip AlwaysFilled 2 CU 0 2
      (begin_bar long3_selling CU (flat_bar 3 (of_Z 110))) []
    = Done (2, sell_pass.1, sell_pass.2)
    ∧ Executed t ∈ sell_pass.2
    ∧ trade_order t = 1
    ∧ trade_px t = of_Z 110 ∧ trade_time t = Some 3%Z.
Proof.
  set (t := mkTrade 1 1 (Some 3%Z) (of_Z 110) (of_Z 3) 0%F (of_Z 30)).
  assert (resolve_events round_trip AlwaysFilled 2 CU 0 2
            (begin_bar long3_selling CU (flat_bar 3 (of_Z 110))) []
          = Done (2, sell_pass.1, sell_pass.2)) as Hres by by_compute.
  assert (Executed t ∈ sell_pass.2) as Ht by by_compute.
  destruct (fills_are_stamped_by_the_bar round_trip AlwaysFilled 2 CU
              (flat_bar 3 (of_Z 110)) 2 long3_selling 2 sell_pass.1
              sell_pass.2 t Hres Ht) as (Hpx & Htm & _).
  exists t. split_and!; [exact Hres|exact Ht|reflexivity|exact Hpx|exact Htm].
Defined.

Lemma fsub_diag a : is_fin a → (a - a)%F = 0%F.
Proof. destruct a as [x|]; [|done]. intros _. simpl. f_equal. ring. Qed.

(** X18: the engine does not call [Order._on_executed] and
    [Order._on_cancelled], it writes the fields itself; on an order
    awaiting resolution in a reachable state whose quantities are
    numbers, what it writes for a fill is what
    [_on_executed(time, pend_qty)] would write, and what it writes for
    a cancellation is what [_on_cancelled(time)] would write. *)
Theorem engine_writes_match_order_methods algo rows e i o tm :
  reachable algo rows e → orders_fin e →
  orders e !! i = Some o → (pend_qty o <=? 0)%F = false →
  set_filled (set_last_time o tm) (pend_qty o)
    = Order_on_executed o tm (pend_qty o)
  ∧ set_cancelled (set_last_time o tm) = Order_on_cancelled o tm.
Proof.
  intros He Hfin Ho Hq. split; [|done].
  destruct (wf_reachable _ _ _ He) as [Hwf _].
  destruct (Hwf i o Ho) as (_ & _ & Hl & _).
  destruct (lifecycle_awaiting _ Hl Hq) as [Hp Hex].
  pose proof (Forall_lookup_1 _ _ _ _ Hfin Ho) as Hf. simpl in Hf.
  unfold set_filled, Order_on_executed. simpl.
  rewrite Hex, fadd_0_l, fsub_diag; [done|]. by rewrite Hp.
Qed.

Lemma engine_writes_match_order_methods_witness :
  ∃ o, orders gtc_at_bar !! 0 = Some o
       ∧ set_filled (set_last_time o (Some 2%Z)) (pend_qty o)
         = Order_on_executed o (Some 2%Z) (pend_qty o)
       ∧ exec_qty (Order_on_executed o (Some 2%Z) (pend_qty o)) = of_Z 7.
Proof.
  assert (reachable NoTrade two_rows gtc_at_bar) as He.
  { apply reach_bar. apply (reach_submit _ _ (init_engine two_rows)).
    apply reach_init. }
  assert (orders_fin gtc_at_bar) as Hfin by by_compute.
  set (o := new_Order 0 CU Buy GTC None (of_Z 7) None).
  assert (orders gtc_at_bar !! 0 = Some o) as Ho by by_compute.
  assert ((pend_qty o <=? 0)%F = false) as Hq by by_compute.
  destruct (engine_writes_match_order_methods NoTrade two_rows gtc_at_bar 0 o
              (Some 2%Z) He Hfin Ho Hq) as [H _].
  exists o. split_and!; [exact Ho|exact H|by_compute].
Defined.

(** ** Average cost of a position *)

Lemma Qc_pos_ne (a : Qc) : (0 < a)%Qc → a ≠ 0%Qc.
Proof. intros H ->. by apply (Qclt_not_eq _ _ H). Qed.

Lemma Qc_neg_ne (a : Qc) : (a < 0)%Qc → a ≠ 0%Qc.
Proof. intros H ->. by apply (Qclt_not_eq _ _ H). Qed.

Lemma pymin_fin_fin (a b : Qc) :
  pymin (Fin a) (Fin b) = Fin (if bool_decide (b < a)%Qc then b else a).
Proof. unfold pymin. simpl. by case_bool_decide. Qed.

(** A sell that closes part of a long position, and a buy that
    closes part of a short one. *)
Lemma sell_part_scales_cost p (h m y c : Qc) :
  hold_qty p = Fin h → hold_mv p = Fin m →
  (0 < y)%Qc → (y < h)%Qc →
  let f := apply_fill p Sell (Fin y) (Fin c) in
  fill_close_qty f = Fin y
  ∧ fill_profit f = Fin ((c - m / h) * y)%Qc
  ∧ hold_qty (fill_pos f) = Fin (h - y)%Qc
  ∧ hold_mv (fill_pos f) = Fin (m * (1 - y / h))%Qc.
Proof.
  intros Hh Hm Hy Hlt f. subst f. unfold apply_fill, close_part.
  rewrite Hh, Hm.
  assert (0 < h)%Qc as Hh0 by by eapply Qclt_trans.
  assert (h ≠ 0%Qc) as Hne by by apply Qc_pos_ne.
  cbn [fltb]. rewrite bool_decide_true by done.
  rewrite pymin_fin_fin, bool_decide_true by done.
  rewrite !fdiv_fin by done. cbn.
  split_and!; try done. f_equal. field. done.
Qed.

Lemma buy_part_scales_cost p (h m y c : Qc) :
  hold_qty p = Fin h → hold_mv p = Fin m →
  (0 < y)%Qc → (y < - h)%Qc →
  let f := apply_fill p Buy (Fin y) (Fin c) in
  fill_close_qty f = Fin y
  ∧ fill_profit f = Fin ((m / h - c) * y)%Qc
  ∧ hold_qty (fill_pos f) = Fin (h + y)%Qc
  ∧ hold_mv (fill_pos f) = Fin (m * (1 - y / - h))%Qc.
Proof.
  intros Hh Hm Hy Hlt f. subst f. unfold apply_fill, close_part.
  rewrite Hh, Hm.
  assert (0 < - h)%Qc as Hh0 by by eapply Qclt_trans.
  assert (h < 0)%Qc as Hh1.
  { apply Qclt_minus_iff. by rewrite Qcplus_0_l. }
  assert (h ≠ 0%Qc) as Hne by by apply Qc_neg_ne.
  assert ((- h)%Qc ≠ 0%Qc) as Hne1 by by apply Qc_pos_ne.
  cbn [fltb fneg]. rewrite bool_decide_true by done.
  rewrite pymin_fin_fin, bool_decide_true by done.
  rewrite !fdiv_fin by done. cbn.
  split_and!; try done. f_equal. field. done.
Qed.

(** A sell larger than the long position closes all of it and opens a
    short at the fill price. *)
Lemma sell_through_long p (h m y c : Qc) :
  hold_qty p = Fin h → hold_mv p = Fin m →
  (0 < h)%Qc → (h < y)%Qc →
  let f := apply_fill p Sell (Fin y) (Fin c) in
  fill_close_qty f = Fin h
  ∧ fill_profit f = Fin ((c - m / h) * h)%Qc
  ∧ hold_qty (fill_pos f) = Fin (h - y)%Qc
  ∧ hold_mv (fill_pos f) = Fin ((h - y) * c)%Qc.
Proof.
  intros Hh Hm Hh0 Hlt f. subst f. unfold apply_fill, close_part.
  rewrite Hh, Hm.
  assert (h ≠ 0%Qc) as Hne by by apply Qc_pos_ne.
  cbn [fltb]. rewrite bool_decide_true by done.
  rewrite pymin_fin_fin, bool_decide_false by (apply Qcle_not_lt; by apply Qclt_le_weak).
  rewrite !fdiv_fin by done. cbn.
  split_and!; try done. f_equal. field. done.
Qed.

(** A buy larger than the short position closes all of it and opens a
    long at the fill price. *)
Lemma buy_through_short p (h m y c : Qc) :
  hold_qty p = Fin h → hold_mv p = Fin m →
  (h < 0)%Qc → (- h < y)%Qc →
  let f := apply_fill p Buy (Fin y) (Fin c) in
  fill_close_qty f = Fin (- h)%Qc
  ∧ fill_profit f = Fin ((m / h - c) * - h)%Qc
  ∧ hold_qty (fill_pos f) = Fin (h + y)%Qc
  ∧ hold_mv (fill_pos f) = Fin ((h + y) * c)%Qc.
Proof.
  intros Hh Hm Hh0 Hlt f. subst f. unfold apply_fill, close_part.
  rewrite Hh, Hm.
  assert (h ≠ 0%Qc) as Hne by by apply Qc_neg_ne.
  assert ((- h)%Qc ≠ 0%Qc) as Hne1 by by apply Qc_neg_ne_0.
  cbn [fltb fneg]. rewrite bool_decide_true by done.
  rewrite pymin_fin_fin, bool_decide_false by (apply Qcle_not_lt; by apply Qclt_le_weak).
  rewrite !fdiv_fin by done. cbn.
  split_and!; try done. f_equal. field. done.
Qed.

(** A fill on the side of the position, or on a flat position, closes
    nothing, realises nothing and adds its value to the cost. *)
Lemma fill_adds_to_position p dir (h m y c : Qc) :
  hold_qty p = Fin h → hold_mv p = Fin m →
  match dir with Buy => (0 ≤ h)%Qc | Sell => (h ≤ 0)%Qc end →
  let f := apply_fill p dir (Fin y) (Fin c) in
  fill_close_qty f = 0%F
  ∧ fill_profit f = 0%F
  ∧ hold_qty (fill_pos f)
    = Fin (match dir with Buy => h + y | Sell => h - y end)%Qc
  ∧ hold_mv (fill_pos f)
    = Fin (match dir with Buy => m + y * c | Sell => m - y * c end)%Qc.
Proof.
  intros Hh Hm Hside f. subst f. unfold apply_fill, close_part.
  rewrite Hh, Hm. cbn [fltb].
  destruct dir; rewrite bool_decide_false by (by apply Qcle_not_lt); cbn;
    split_and!; try done; f_equal; ring.
Qed.

(** X19: a fill smaller than the position it runs against closes that
    quantity, realises on it the difference between the fill price
    and [hold_mv / hold_qty] (for a short position, between
    [hold_mv / hold_qty] and the fill price), and scales [hold_mv] by
    [1 - close_qty / |hold_qty|], each by the formula of the source. *)
Theorem partial_close_scales_cost p dir (h m y c : Qc) :
  hold_qty p = Fin h → hold_mv p = Fin m → (0 < y)%Qc →
  match dir with Sell => (y < h)%Qc | Buy => (y < - h)%Qc end →
  let f := apply_fill p dir (Fin y) (Fin c) in
  fill_close_qty f = Fin y
  ∧ fill_profit f
    = Fin (match dir with
           | Sell => (c - m / h) * y
           | Buy => (m / h - c) * y
           end)%Qc
  ∧ hold_qty (fill_pos f)
    = Fin (match dir with Sell => h - y | Buy => h + y end)%Qc
  ∧ hold_mv (fill_pos f)
    = Fin (match dir with
           | Sell => m * (1 - y / h)
           | Buy => m * (1 - y / - h)
           end)%Qc.
Proof.
  destruct dir; intros Hh Hm Hy Hlt.
  - by apply buy_part_scales_cost.
  - by apply sell_part_scales_cost.
Qed.

Lemma partial_close_scales_cost_witness :
  fill_close_qty (apply_fill long4 Sell (of_Z 2) (of_Z 60)) = of_Z 2
  ∧ fill_profit (apply_fill long4 Sell (of_Z 2) (of_Z 60)) = of_Z 20
  ∧ hold_qty (fill_pos (apply_fill long4 Sell (of_Z 2) (of_Z 60))) = of_Z 2
  ∧ hold_mv (fill_pos (apply_fill long4 Sell (of_Z 2) (of_Z 60))) = of_Z 100.
Proof.
  assert (0 < Q2Qc (inject_Z 2))%Qc as Hy by by_compute.
  assert (Q2Qc (inject_Z 2) < Q2Qc (inject_Z 4))%Qc as Hlt by by_compute.
  destruct (partial_close_scales_cost long4 Sell (Q2Qc (inject_Z 4))
              (Q2Qc (inject_Z 200)) (Q2Qc (inject_Z 2)) (Q2Qc (inject_Z 60))
              eq_refl eq_refl Hy Hlt) as (Hc & Hpr & Hq & Hmv).
  split_and!.
  - exact Hc.
  - etrans; [exact Hpr|by_compute].
  - etrans; [exact Hq|by_compute].
  - etrans; [exact Hmv|by_compute].
Defined.


(** X20: a fill larger than the position it runs against closes all of
    it, realises the profit on the closed quantity, and opens a
    position on the other side whose cost is its quantity times the
    fill price; the cost of a short position is negative. *)
Theorem fill_through_position p dir (h m y c : Qc) :
  hold_qty p = Fin h → hold_mv p = Fin m →
  match dir with
  | Sell => (0 < h)%Qc ∧ (h < y)%Qc
  | Buy => (h < 0)%Qc ∧ (- h < y)%Qc
  end →
  let f := apply_fill p dir (Fin y) (Fin c) in
  fill_close_qty f = Fin (match dir with Sell => h | Buy => - h end)%Qc
  ∧ fill_profit f
    = Fin (match dir with
           | Sell => (c - m / h) * h
           | Buy => (m / h - c) * - h
           end)%Qc
  ∧ hold_qty (fill_pos f)
    = Fin (match dir with Sell => h - y | Buy => h + y end)%Qc
  ∧ hold_mv (fill_pos f)
    = Fin (match dir with Sell => (h - y) * c | Buy => (h + y) * c end)%Qc.
Proof.
  destruct dir; intros Hh Hm [H1 H2].
  - by apply buy_through_short.
  - by apply sell_through_long.
Qed.

Lemma fill_through_position_witness :
  fill_close_qty sell5 = of_Z 3
  ∧ fill_profit sell5 = of_Z 30
  ∧ hold_qty (fill_pos sell5) = of_Z (-2)
  ∧ hold_mv (fill_pos sell5) = of_Z (-120).
Proof.
  assert (0 < Q2Qc (inject_Z 3))%Qc as H1 by by_compute.
  assert (Q2Qc (inject_Z 3) < Q2Qc (inject_Z 5))%Qc as H2 by by_compute.
  destruct (fill_through_position long3 Sell (Q2Qc (inject_Z 3))
              (Q2Qc (inject_Z 150)) (Q2Qc (inject_Z 5)) (Q2Qc (inject_Z 60))
              eq_refl eq_refl (conj H1 H2)) as (Hc & Hpr & Hq & Hmv).
  split_and!.
  - exact Hc.
  - etrans; [exact Hpr|by_compute].
  - etrans; [exact Hq|by_compute].
  - etrans; [exact Hmv|by_compute].
Defined.

(** X21: a fill on the side of the position, or on a flat position,
    closes nothing, realises no profit, and adds its quantity to
    [hold_qty] and its value to [hold_mv] (subtracts them, for a
    sell). *)
Theorem fill_on_the_same_side p dir (h m y c : Qc) :
  hold_qty p = Fin h → hold_mv p = Fin m →
  match dir with Buy => (0 ≤ h)%Qc | Sell => (h ≤ 0)%Qc end →
  let f := apply_fill p dir (Fin y) (Fin c) in
  fill_close_qty f = 0%F
  ∧ fill_profit f = 0%F
  ∧ hold_qty (fill_pos f)
    = Fin (match dir with Buy => h + y | Sell => h - y end)%Qc
  ∧ hold_mv (fill_pos f)
    = Fin (match dir with Buy => m + y * c | Sell => m - y * c end)%Qc.
Proof.
  intros Hh Hm Hside f.
  destruct (fill_adds_to_position p dir h m y c Hh Hm Hside)
    as (H1 & H2 & H3 & H4).
  by fold f in H1, H2, H3, H4.
Qed.

Lemma fill_on_the_same_side_witness :
  hold_qty (fill_pos (apply_fill long3 Buy (of_Z 2) (of_Z 60))) = of_Z 5
  ∧ hold_mv (fill_pos (apply_fill long3 Buy (of_Z 2) (of_Z 60))) = of_Z 270.
Proof.
  assert (0 ≤ Q2Qc (inject_Z 3))%Qc as H1 by by_compute.
  destruct (fill_on_the_same_side long3 Buy (Q2Qc (inject_Z 3))
              (Q2Qc (inject_Z 150)) (Q2Qc (inject_Z 2)) (Q2Qc (inject_Z 60))
              eq_refl eq_refl H1) as (_ & _ & Hq & Hmv).
  split.
  - etrans; [exact Hq|by_compute].
  - etrans; [exact Hmv|by_compute].
Defined.

(** X22: out of a flat position and back: a fill of [y] at any price,
    on a position that is flat with no cost, closes nothing and
    realises nothing, and the opposite fill of the same [y], at any
    price, closes exactly [y] and leaves the position flat again,
    with a cost of 0 or a cost that is not a number. *)
Theorem flat_round_trip_is_flat p dir (y : Qc) (px1 px2 : float) :
  hold_qty p = 0%F → hold_mv p = 0%F → (0 < y)%Qc →
  let f1 := apply_fill p dir (Fin y) px1 in
  let f2 := apply_fill (fill_pos f1) (opposite dir) (Fin y) px2 in
  fill_close_qty f1 = 0%F
  ∧ fill_profit f1 = 0%F
  ∧ fill_close_qty f2 = Fin y
  ∧ hold_qty (fill_pos f2) = 0%F
  ∧ (hold_mv (fill_pos f2) = 0%F ∨ hold_mv (fill_pos f2) = NaN).
Proof.
  intros Hh Hm Hy f1 f2.
  assert ((Fin y <=? 0)%F = false) as Hq.
  { simpl. apply bool_decide_eq_false. by apply Qclt_not_le. }
  assert (fill_close_qty f1 = 0%F ∧ fill_profit f1 = 0%F
          ∧ hold_qty (fill_pos f1)
            = Fin (match dir with Buy => y | Sell => - y end)) as (H1 & H2 & H3).
  { subst f1. unfold apply_fill, close_part. rewrite Hh, Hm. cbn [fltb].
    assert (bool_decide (0 < 0)%Qc = false) as Hirr by by_compute.
    destruct dir; rewrite Hirr; cbn; split_and!; try done; f_equal; ring. }
  assert (hold_qty (fill_pos f2) = 0%F) as H5.
  { subst f2. rewrite apply_fill_hold_qty, H3.
    destruct dir; cbn; f_equal; ring. }
  split_and!; [done|done| |done|].
  - subst f2. unfold apply_fill at 1, close_part. rewrite H3.
    destruct dir; cbn [opposite fltb fneg].
    + rewrite bool_decide_true by done.
      rewrite pymin_fin_fin, bool_decide_false by
        (intros Hirr; by apply Qclt_not_eq in Hirr).
      by destruct (_ * _)%F, (_ * _)%F.
    + rewrite bool_decide_true.
      2:{ apply Qclt_minus_iff. by replace (0 + - - y)%Qc with y by ring. }
      rewrite pymin_fin_fin, Qcopp_involutive, bool_decide_false by
        (intros Hirr; by apply Qclt_not_eq in Hirr).
      by destruct (_ * _)%F, (_ * _)%F.
  - by apply (apply_fill_flat (fill_pos f1) (opposite dir) (Fin y) px2 Hq).
Qed.

Lemma flat_round_trip_is_flat_witness :
  let p := new_Position (plain_info CU) (of_Z 10) in
  let f1 := apply_fill p Buy (of_Z 3) (of_Z 100) in
  let f2 := apply_fill (fill_pos f1) Sell (of_Z 3) (of_Z 110) in
  fill_close_qty f2 = of_Z 3
  ∧ hold_qty (fill_pos f2) = 0%F
  ∧ hold_mv (fill_pos f2) = 0%F.
Proof.
  assert (0 < Q2Qc (inject_Z 3))%Qc as Hy by by_compute.
  destruct (flat_round_trip_is_flat (new_Position (plain_info CU) (of_Z 10)) Buy
              (Q2Qc (inject_Z 3)) (of_Z 100) (of_Z 110)
              eq_refl eq_refl Hy) as (_ & _ & Hc & Hq & _).
  split_and!; [exact Hc|exact Hq|by_compute].
Defined.


(* ===================================================================== *)
(** ** The demo strategy *)
(* ===================================================================== *)

Lemma pymin_randint z b :
  (z ≤ 5)%Z → (pymin (of_Z z) b <=? 0)%F = false →
  (pymin (of_Z z) b <=? of_Z 5)%F = true.
Proof.
  intros Hz. unfold pymin, of_Z.
  destruct b as [c|]; simpl.
  - case_bool_decide as Hlt; simpl; intros _; apply bool_decide_eq_true.
    + apply Qclt_le_weak. eapply Qclt_le_trans; [exact Hlt|by apply of_Z_le].
    + by apply of_Z_le.
  - intros _. apply bool_decide_eq_true. by apply of_Z_le.
Qed.

Lemma demo_quiet tape : quiet_notifications (DemoStrategy tape).
Proof. split; intros; constructor. Qed.

Lemma event_effect_demo algo k e ev r :
  event_effect algo k e ev r →
  events r.1 = events e
  ∧ length (orders r.1) = length (orders e)
  ∧ (Forall demo_order (orders e) → Forall demo_order (orders r.1)).
Proof.
  intros Heff. split; [by eapply event_effect_events|].
  destruct Heff as [o Ho Hq|o p Ho Hq Hp Ht ->|o p Ho Hq Hp Ht|o p Ho Hq Hp Ht -> Htif];
    [done|..]; simpl; (split; [by rewrite length_insert|]);
    intros Hall; (apply Forall_insert; [done|]);
    apply (Forall_lookup_1 _ _ _ _ Hall Ho).
Qed.

Lemma demo_pass tape algo fuel k i st e log r :
  resolve_events (DemoStrategy tape) algo fuel k i st e log = Done r →
  r.1.1 = st
  ∧ events r.1.2 = events e
  ∧ length (orders r.1.2) = length (orders e)
  ∧ (Forall demo_order (orders e) → Forall demo_order (orders r.1.2)).
Proof.
  revert i e log. induction fuel as [|fuel IH]; intros i e log; simpl; [done|].
  destruct (events e !! i) as [ev|]; [|by intros [= <-]].
  destruct (process_event algo k e ev) as [[e1 n]|x] eqn:Hpe; [|done].
  apply process_event_cases, event_effect_demo in Hpe as (Hev & Hlen & Hall).
  simpl in Hev, Hlen, Hall.
  assert (∀ log', resolve_events (DemoStrategy tape) algo fuel k
                    (Datatypes.S i) st e1 log' = Done r →
                  r.1.1 = st ∧ events r.1.2 = events e
                  ∧ length (orders r.1.2) = length (orders e)
                  ∧ (Forall demo_order (orders e) →
                     Forall demo_order (orders r.1.2))) as Hstep.
  { intros log' Hres. destruct (IH _ _ _ Hres) as (H1 & H2 & H3 & H4).
    split_and!; [done|congruence|congruence|auto]. }
  destruct n as [[t|j]|]; apply Hstep.
Qed.

(** The order of [on_bar_data]. *)
Lemma demo_submit tape e k st :
  randint_1_5 tape →
  events e = [] →
  let e' := (submit_order e k (tape st).1 (of_Z (tape st).2) IOC None).2 in
  last_order_queued e'
  ∧ length (events e') ≤ 1
  ∧ length (orders e') ≤ Datatypes.S (length (orders e))
  ∧ (Forall demo_order (orders e) → Forall demo_order (orders e')).
Proof.
  intros Htape Hev e'. subst e'.
  assert (last_order_queued e ∧ length (events e) ≤ 1
          ∧ length (orders e) ≤ Datatypes.S (length (orders e))
          ∧ (Forall demo_order (orders e) → Forall demo_order (orders e)))
    as Hsame.
  { unfold last_order_queued. rewrite Hev. simpl.
    split_and!; [by intros ev Hin%elem_of_nil|lia|lia|done]. }
  unfold submit_order, find_position.
  destruct (positions e !! k) as [p|]; [|done].
  destruct (pymin _ (capacity p (tape st).1) <=? 0)%F eqn:Hq; [done|].
  unfold last_order_queued.
  simpl. rewrite Hev. split_and!.
  - intros ev ->%list_elem_of_singleton. simpl. rewrite length_app. simpl. lia.
  - simpl. lia.
  - rewrite length_app. simpl. lia.
  - intros Hall. apply Forall_app. split; [done|]. apply Forall_singleton.
    split_and!; [done|done|done|]. simpl.
    apply pymin_randint; [apply Htape|done].
Qed.

Lemma demo_bar_step tape algo rows fuel st e k bar :
  randint_1_5 tape →
  demo_state algo rows st e →
  ∃ e', bar_step (DemoStrategy tape) algo (2 + fuel) st e k bar
        = Done (Datatypes.S st, e')
        ∧ demo_state algo rows (Datatypes.S st) e'.
Proof.
  intros Htape (He & Hlast & Hlen & Hn & Hall). unfold bar_step.
  destruct (resolve_events_total (DemoStrategy tape) algo rows (2 + fuel) k 0 st
              (begin_bar e k bar) [] (demo_quiet tape)) as [[[st1 e1] lg] Hres].
  { by constructor. }
  { simpl. lia. }
  rewrite Hres.
  pose proof (resolve_events_reachable _ _ _ _ _ _ _ _ _ _
                (reach_bar _ _ _ k bar He) Hres) as He1.
  destruct (demo_pass _ _ _ _ _ _ _ _ _ Hres) as (Hst & Hev & Hlen1 & Hall1).
  simpl in He1, Hst, Hev, Hlen1, Hall1. subst st1. simpl.
  eexists. split; [reflexivity|].
  destruct (demo_submit tape (clear_events e1) k st Htape eq_refl)
    as (H1 & H2 & H3 & H4).
  split_and!; [by apply reach_submit, reach_clear|done|done| |].
  - simpl in H3. lia.
  - apply H4. simpl. by apply Hall1.
Qed.

Lemma demo_run_bars tape algo rows fuel bars st e :
  randint_1_5 tape →
  demo_state algo rows st e →
  ∃ e', run_bars (DemoStrategy tape) algo (2 + fuel) bars st e
        = Done (length bars + st, e')
        ∧ demo_state algo rows (length bars + st) e'.
Proof.
  intros Htape. revert st e.
  induction bars as [|[k bar] bars IH]; intros st e HI.
  - exists e. done.
  - destruct (demo_bar_step tape algo rows fuel st e k bar Htape HI)
      as (e1 & Hb & HI1).
    destruct (IH _ _ HI1) as (e2 & Hr & HI2).
    exists e2. cbn [run_bars]. rewrite Hb.
    replace (length ((k, bar) :: bars) + st) with (length bars + Datatypes.S st)
      by (simpl; lia).
    done.
Qed.

Lemma demo_run tape algo rows fuel bars :
  randint_1_5 tape →
  ∃ e, run (DemoStrategy tape) algo (2 + fuel) rows bars 0
       = Done (length bars, e)
       ∧ demo_state algo rows (length bars) e.
Proof.
  intros Htape. unfold run.
  destruct (demo_run_bars tape algo rows fuel bars 0 (init_engine rows) Htape)
    as (e & Hr & HI).
  { split_and!; [constructor|by intros ev; simpl; rewrite elem_of_nil
                |simpl; lia|simpl; lia|constructor]. }
  rewrite Nat.add_0_r in Hr, HI.
  exists e. cbn [on_start DemoStrategy run_cmd fst snd].
  cbn [run_bars] in Hr. rewrite Hr. done.
Qed.

(** X23: the demo strategy, whatever it draws and whatever the
    matching algorithm, the instruments and the bars: its run
    finishes with two units of fuel for each pass and raises nothing;
    it has then seen every bar, has at most one order for each bar,
    and each order is immediate-or-cancel, without a limit price,
    with a quantity that is positive and at most 5. *)
Theorem demo_run_finishes tape algo rows fuel bars :
  randint_1_5 tape →
  ∃ e, run (DemoStrategy tape) algo (2 + fuel) rows bars 0
       = Done (length bars, e)
       ∧ length (orders e) ≤ length bars
       ∧ Forall demo_order (orders e).
Proof.
  intros Htape.
  destruct (demo_run tape algo rows fuel bars Htape)
    as (e & Hr & _ & _ & _ & Hlen & Hall).
  by exists e.
Qed.

Lemma demo_tape_randint : randint_1_5 demo_tape.
Proof.
  intros n. unfold demo_tape. simpl.
  pose proof (Z.mod_pos_bound (Z.of_nat n) 5). lia.
Qed.

Lemma demo_run_finishes_witness :
  randint_1_5 demo_tape
  ∧ ∃ e, run (DemoStrategy demo_tape) AlwaysFilled 2 two_rows three_bars 0
         = Done (3, e)
         ∧ length (orders e) ≤ 3.
Proof.
  split; [exact demo_tape_randint|].
  destruct (demo_run_finishes demo_tape AlwaysFilled two_rows 0 three_bars
              demo_tape_randint) as (e & Hr & Hlen & _).
  exists e. split; [exact Hr|exact Hlen].
Defined.

(** X24: under [AlwaysFilled], as [demo/run.py] configures the engine,
    the demo ends with every order but the last executed in full;
    the last one, submitted on the last bar, may still be pending. *)
Theorem demo_fills_all_but_the_last tape rows fuel bars st e i o :
  randint_1_5 tape →
  run (DemoStrategy tape) AlwaysFilled fuel rows bars 0 = Done (st, e) →
  orders e !! i = Some o → Datatypes.S i < length (orders e) →
  pend_qty o = 0%F ∧ exec_qty o = orig_qty o.
Proof.
  intros Htape Hrun Ho Hi.
  destruct (demo_run tape AlwaysFilled rows fuel bars Htape)
    as (e2 & Hr2 & _ & Hlast & _).
  rewrite (run_fuel_mono (DemoStrategy tape) AlwaysFilled fuel (2 + fuel)
             rows bars 0 (st, e) ltac:(lia) Hrun) in Hr2.
  injection Hr2 as _ <-.
  destruct (run_fills_only _ _ _ _ _ _ Hrun) as (_ & Hf & Hn). simpl in Hf, Hn.
  destruct (pend_qty o <=? 0)%F eqn:Hq; [by apply (Hn i o)|].
  destruct (Hf i o Ho Hq) as (idx & Hidx & _).
  assert (mkEvent 0 i ∈ events e) as Hin by (apply list_elem_of_lookup; eauto).
  apply Hlast in Hin. simpl in Hin. lia.
Qed.

Lemma demo_fills_all_but_the_last_witness :
  run (DemoStrategy demo_tape) AlwaysFilled 2 two_rows three_bars 0
    = Done (3, demo_end)
  ∧ (λ o, (direction o, orig_qty o)) <$> orders demo_end
    = [(Buy, of_Z 1); (Sell, of_Z 2); (Buy, of_Z 3)]
  ∧ ∃ o, orders demo_end !! 1 = Some o ∧ exec_qty o = orig_qty o.
Proof.
  assert (run (DemoStrategy demo_tape) AlwaysFilled 2 two_rows three_bars 0
          = Done (3, demo_end)) as Hrun by by_compute.
  set (o := mkOrder 1 CU Sell IOC None (of_Z 2) 0%F (of_Z 2) (Some 2%Z)
              (Some 3%Z)).
  assert (orders demo_end !! 1 = Some o) as Ho by by_compute.
  assert (2 < length (orders demo_end)) as Hi by by_compute.
  destruct (demo_fills_all_but_the_last demo_tape two_rows 2 three_bars 3
              demo_end 1 o demo_tape_randint Hrun Ho Hi) as [_ He].
  split_and!; [exact Hrun|by_compute|].
  exists o. split; [exact Ho|exact He].
Defined.

(* ===================================================================== *)
(** ** A pass that does not end *)
(* ===================================================================== *)

Lemma rally_next k i st e j o p :
  length (events e) = Datatypes.S i →
  length (orders e) = Datatypes.S j →
  pend_qty o = 1%F → direction o = opposite st → position o = CU →
  max_hold_qty p = of_Z 10 →
  hold_qty p = match st with Sell => 0%F | Buy => 1%F end →
  pending_qty p
    = match st with
      | Sell => mkPendingQty 1%F 0%F
      | Buy => mkPendingQty 0%F 1%F
      end →
  rally (Datatypes.S i) (opposite st)
    (submit_order
       (do_fill k e j (set_last_time o (cur_tm e)) p (pend_qty o)).1
       CU st 1%F IOC None).2.
Proof.
  intros Hlen Hol Hpe Hd Hpos Hm Hh Hpq.
  set (ev_px := match cur_px e !! k with Some x => x | None => NaN end).
  set (f := apply_fill p (opposite st) 1%F ev_px).
  set (e1 := (do_fill k e j (set_last_time o (cur_tm e)) p (pend_qty o)).1).
  assert (positions e1 !! CU = Some (fill_pos f)) as Hp1.
  { subst e1 f ev_px. unfold do_fill.
    cbn [fst positions push_trade put_position position set_last_time
         direction pend_qty].
    by rewrite Hpos, Hd, Hpe, lookup_insert_eq. }
  assert (length (orders e1) = Datatypes.S j) as Hol1.
  { subst e1. unfold do_fill. cbn [fst orders push_trade put_position put_order].
    by rewrite length_insert. }
  assert (events e1 = events e) as Hev1 by done.
  assert (max_hold_qty (fill_pos f) = of_Z 10) as Hm1.
  { subst f. by rewrite apply_fill_max_hold_qty. }
  assert (hold_qty (fill_pos f)
          = match st with Sell => 1%F | Buy => 0%F end) as Hh1.
  { subst f. rewrite apply_fill_hold_qty, Hh. destruct st; by_compute. }
  assert (pending_qty (fill_pos f) = mkPendingQty 0%F 0%F) as Hpq1.
  { subst f. rewrite apply_fill_pending, Hpq. destruct st; by_compute. }
  assert (pymin 1%F (capacity (fill_pos f) st) = 1%F) as Hmin.
  { unfold capacity. rewrite Hm1, Hh1, Hpq1. destruct st; by_compute. }
  unfold submit_order, find_position. rewrite Hp1. cbv zeta. rewrite Hmin.
  replace (1 <=? 0)%F with false by by_compute.
  exists (Datatypes.S j), (new_Order (Datatypes.S j) CU st IOC None 1%F (cur_tm e1)),
         (reserve_pending (fill_pos f) st 1%F).
  unfold accept_order. rewrite Hol1.
  cbn [snd events orders positions enqueue put_position push_order order_id new_Order].
  rewrite Hev1.
  split_and!.
  - rewrite length_app, Hlen. simpl. lia.
  - rewrite lookup_app_r by lia. by rewrite Hlen, Nat.sub_diag.
  - rewrite length_app, Hol1. simpl. lia.
  - rewrite lookup_app_r by lia. by rewrite Hol1, Nat.sub_diag.
  - done.
  - by destruct st.
  - done.
  - by rewrite lookup_insert_eq.
  - done.
  - simpl. rewrite Hh1. by destruct st.
  - simpl. rewrite Hpq1. destruct st; by_compute.
Qed.

Lemma rally_never_ends k fuel i st e log :
  rally i st e →
  resolve_events ping_pong AlwaysFilled fuel k i st e log = OutOfFuel.
Proof.
  revert i st e log. induction fuel as [|fuel IH]; intros i st e log; [done|].
  intros (j & o & p & Hlen & Hev & Hol & Ho & Hpe & Hd & Hpos & Hp & Hm & Hh & Hpq).
  cbn [resolve_events]. rewrite Hev.
  assert ((pend_qty o <=? 0)%F = false) as Hq by (rewrite Hpe; by_compute).
  rewrite <- Hpos in Hp.
  rewrite (event_effect_sound _ _ _ _ _
             (effect_fill AlwaysFilled k e (mkEvent 0 j) o p Ho Hq Hp
                eq_refl eq_refl)).
  unfold do_fill at 1. cbn [ev_order notify on_order_executed ping_pong run_cmd fst snd].
  apply IH.
  by apply (rally_next k i st e j o p).
Qed.

Lemma rally_start k bar :
  rally 0 Sell
    (begin_bar (submit_order (init_engine two_rows) CU Buy 1%F IOC None).2
       k bar).
Proof.
  exists 0, (new_Order 0 CU Buy IOC None 1%F None),
    (mkPosition (plain_info CU) (of_Z 10) 0%F 0%F (mkPendingQty 1%F 0%F)
       0%F 0%F).
  cbn [begin_bar events orders positions].
  split_and!; by_compute.
Qed.

(** X25: the resolution loop of a bar need not end.  [ping_pong] answers
    every execution with a new order from within
    [on_order_executed]; under [AlwaysFilled] the loop, which iterates
    over the queue while the queue grows, reaches each new event in
    the same pass, and the first bar of a run is never finished,
    whatever the fuel. *)
Theorem event_loop_may_not_end fuel k bar bars :
  run ping_pong AlwaysFilled fuel two_rows ((k, bar) :: bars) Buy = OutOfFuel.
Proof.
  unfold run. cbn [on_start ping_pong run_cmd fst snd opposite run_bars].
  unfold bar_step. by rewrite (rally_never_ends k fuel 0 Sell _ [] (rally_start k bar)).
Qed.
